(** * Academic portfolio site: convention checker, build pipeline, navigation

    A shallow embedding of the parts of the repository that the
    specification makes claims about:

    - the regular-expression helpers of [tests/accessibility.test.js],
      [tests/performance.test.js] and [tests/styling.test.js], over a small
      backtracking matcher that follows the ECMAScript semantics of the
      regex fragment these files use;
    - the WCAG contrast helpers ([getLuminance], [getContrastRatio]);
    - the vendor tasks of the build file ([cleanVendor], [vendor],
      [gulp.series]);
    - the scroll behaviour of [js/navigation.js].

    Strings are sequences of code units; a code unit is an [ascii] (the
    Latin-1 range of UTF-16).  JavaScript numbers that only hold small
    integers are [Z] or [nat]; the luminance arithmetic is carried out in
    [R], the exact arithmetic that [Math.pow] and the IEEE operations
    approximate. *)

From Stdlib Require Import Reals Lra Lia ZArith QArith List Ascii String Bool.
From stdpp Require Import gmap strings.
Import ListNotations.
Open Scope string_scope.
Open Scope list_scope.

(** ** Code units and strings *)

Module Js.

Definition code (c : ascii) : N := N_of_ascii c.

Definition is_upper (c : ascii) : bool := ((65 <=? code c) && (code c <=? 90))%N.
Definition is_lower (c : ascii) : bool := ((97 <=? code c) && (code c <=? 122))%N.

(** Latin-1 letters with a lower case inside Latin-1: U+00C0..U+00DE
    without the multiplication sign U+00D7. *)
Definition is_upper_latin1 (c : ascii) : bool :=
  ((192 <=? code c) && (code c <=? 222) && negb (code c =? 215))%N.

(** [String.prototype.toLowerCase], one code unit at a time. *)
Definition lower_char (c : ascii) : ascii :=
  if is_upper c || is_upper_latin1 c then ascii_of_N (code c + 32) else c.

(** The regex canonicalisation of the [i] flag on ASCII letters; a code
    unit outside ASCII never canonicalises to an ASCII one. *)
Definition upper_ascii (c : ascii) : ascii :=
  if is_lower c then ascii_of_N (code c - 32) else c.
Definition lower_ascii (c : ascii) : ascii :=
  if is_upper c then ascii_of_N (code c + 32) else c.

Fixpoint toLowerCase (s : string) : string :=
  match s with
  | EmptyString => EmptyString
  | String c s' => String (lower_char c) (toLowerCase s')
  end.

(** White space of [trim] and of the class [\s] among the code units below
    256: TAB, LF, VT, FF, CR, SPACE and NBSP. *)
Definition is_space (c : ascii) : bool :=
  ((9 <=? code c) && (code c <=? 13) || (code c =? 32) || (code c =? 160))%N.

Fixpoint trimStart (s : string) : string :=
  match s with
  | EmptyString => EmptyString
  | String c s' => if is_space c then trimStart s' else s
  end.

(** [trimEnd] drops a character when it is white space and everything
    after it has been dropped. *)
Fixpoint trimEnd (s : string) : string :=
  match s with
  | EmptyString => EmptyString
  | String c s' =>
      match trimEnd s' with
      | EmptyString => if is_space c then EmptyString else String c EmptyString
      | t => String c t
      end
  end.

Definition trim (s : string) : string := trimEnd (trimStart s).

Fixpoint startsWith (s p : string) : bool :=
  match p, s with
  | EmptyString, _ => true
  | String a p', String b s' => if Ascii.eqb a b then startsWith s' p' else false
  | String _ _, EmptyString => false
  end.

(** [String.prototype.includes]. *)
Fixpoint includes (s p : string) : bool :=
  startsWith s p ||
  match s with
  | EmptyString => false
  | String _ s' => includes s' p
  end.

End Js.

(** ** Regular expressions

    The fragment used by the test helpers: a sequence of character classes,
    each with a quantifier, capture-group brackets and the end anchor.  All
    quantified sub-patterns of the sources are single character classes,
    so the backtracking matcher is structurally recursive. *)

Module Regex.

Inductive quant := One | Opt | Star | Plus | LazyStar.

(** A class is a list of inclusive ranges, possibly negated. *)
Record cset := CSet { cs_neg : bool; cs_ranges : list (ascii * ascii) }.

Inductive node :=
| Atom (cs : cset) (q : quant)
| GOpen
| GClose
| Eol.

Definition regex := list node.

Definition in_range (c : ascii) (r : ascii * ascii) : bool :=
  ((Js.code (fst r) <=? Js.code c) && (Js.code c <=? Js.code (snd r)))%N.

Definition in_ranges (c : ascii) (rs : list (ascii * ascii)) : bool :=
  existsb (in_range c) rs.

(** CharacterSetMatcher: with the [i] flag a code unit is found in the set
    when some member has the same canonical form. *)
Definition cset_match (ic : bool) (cs : cset) (c : ascii) : bool :=
  let found :=
    if ic
    then in_ranges c (cs_ranges cs)
         || in_ranges (Js.upper_ascii c) (cs_ranges cs)
         || in_ranges (Js.lower_ascii c) (cs_ranges cs)
    else in_ranges c (cs_ranges cs) in
  xorb (cs_neg cs) found.

(** The state of one match attempt: the text matched so far, the finished
    capture groups in order, and the group being captured. *)
Record mstate := MState {
  whole : string;
  groups : list string;
  cur : option string
}.

Definition init : mstate := MState "" [] None.

Definition snoc (s : string) (c : ascii) : string := s +:+ String c "".

Definition push (c : ascii) (st : mstate) : mstate :=
  MState (snoc (whole st) c) (groups st) (option_map (fun g => snoc g c) (cur st)).

Definition open_group (st : mstate) : mstate :=
  MState (whole st) (groups st) (Some "").

Definition close_group (st : mstate) : mstate :=
  MState (whole st)
         (groups st ++ [match cur st with Some g => g | None => "" end])
         None.

Definition cont := mstate -> string -> option (mstate * string).

(** Greedy repetition of one class: take as many as possible, give back
    one at a time until the continuation succeeds. *)
Fixpoint greedy (p : ascii -> bool) (k : cont) (st : mstate) (s : string)
  {struct s} : option (mstate * string) :=
  match s with
  | String c s' =>
      if p c
      then match greedy p k (push c st) s' with
           | Some r => Some r
           | None => k st s
           end
      else k st s
  | EmptyString => k st s
  end.

(** Lazy repetition: try the continuation first, take one more on failure. *)
Fixpoint lazy (p : ascii -> bool) (k : cont) (st : mstate) (s : string)
  {struct s} : option (mstate * string) :=
  match k st s with
  | Some r => Some r
  | None =>
      match s with
      | String c s' => if p c then lazy p k (push c st) s' else None
      | EmptyString => None
      end
  end.

Fixpoint match_here (ic : bool) (r : regex) {struct r} : cont :=
  match r with
  | [] => fun st s => Some (st, s)
  | GOpen :: r' => fun st s => match_here ic r' (open_group st) s
  | GClose :: r' => fun st s => match_here ic r' (close_group st) s
  | Eol :: r' =>
      fun st s =>
        match s with
        | EmptyString => match_here ic r' st s
        | String _ _ => None
        end
  | Atom cs One :: r' =>
      fun st s =>
        match s with
        | String c s' =>
            if cset_match ic cs c then match_here ic r' (push c st) s' else None
        | EmptyString => None
        end
  | Atom cs Opt :: r' =>
      fun st s =>
        match s with
        | String c s' =>
            if cset_match ic cs c
            then match match_here ic r' (push c st) s' with
                 | Some res => Some res
                 | None => match_here ic r' st s
                 end
            else match_here ic r' st s
        | EmptyString => match_here ic r' st s
        end
  | Atom cs Star :: r' => greedy (cset_match ic cs) (match_here ic r')
  | Atom cs Plus :: r' =>
      fun st s =>
        match s with
        | String c s' =>
            if cset_match ic cs c
            then greedy (cset_match ic cs) (match_here ic r') (push c st) s'
            else None
        | EmptyString => None
        end
  | Atom cs LazyStar :: r' => lazy (cset_match ic cs) (match_here ic r')
  end.

(** [RegExp.prototype.exec] on a regex without the [g] flag, and
    [String.prototype.match] with such a regex: the leftmost match. *)
Fixpoint exec (ic : bool) (r : regex) (s : string) : option mstate :=
  match match_here ic r init s with
  | Some (st, _) => Some st
  | None =>
      match s with
      | EmptyString => None
      | String _ s' => exec ic r s'
      end
  end.

(** [RegExp.prototype.test]. *)
Definition test (ic : bool) (r : regex) (s : string) : bool :=
  match exec ic r s with Some _ => true | None => false end.

(** The loop [while ((match = re.exec(s)) !== null)] of a regex with the
    [g] flag: the successive matches, each search resuming where the
    previous match ended.  [skip] counts the code units of the previous
    match that are still to be passed over.  Every [g] regex of the sources
    starts with a literal, so no match is empty. *)
Fixpoint exec_loop (ic : bool) (r : regex) (skip : nat) (s : string)
  : list mstate :=
  match s with
  | EmptyString => []
  | String _ s' =>
      match skip with
      | S k => exec_loop ic r k s'
      | O =>
          match match_here ic r init s with
          | Some (st, _) => st :: exec_loop ic r (String.length (whole st) - 1) s'
          | None => exec_loop ic r 0 s'
          end
      end
  end.

Definition exec_all (ic : bool) (r : regex) (s : string) : list mstate :=
  exec_loop ic r 0 s.

(** [match[i]] for [i >= 1]; an absent group reads as the empty string. *)
Definition group (i : nat) (st : mstate) : string :=
  nth (i - 1) (groups st) "".

(** *** Building blocks *)

Definition chr (c : ascii) : cset := CSet false [(c, c)].
Definition lit (s : string) : regex :=
  map (fun c => Atom (chr c) One) (list_ascii_of_string s).

(** [[^>]] *)
Definition not_gt : cset := CSet true [(">", ">")%char].
(** The class of the two quote characters (code units 34 and 39) and its
    complement. *)
Definition quote : cset := CSet false [("034", "034"); ("'", "'")]%char.
Definition not_quote : cset := CSet true [("034", "034"); ("'", "'")]%char.
(** Everything but the double quote (code unit 34). *)
Definition not_dquote : cset := CSet true [("034", "034")]%char.
(** [\d], [[1-6]], [[a-f\d]], [\s], [[\s\S]] *)
Definition digit : cset := CSet false [("0", "9")]%char.
Definition one_to_six : cset := CSet false [("1", "6")]%char.
Definition hex_digit : cset := CSet false [("a", "f"); ("0", "9")]%char.
Definition space : cset :=
  CSet false [("009", "013"); (" ", " "); ("160", "160")]%char.
Definition any : cset := CSet true [].

End Regex.

Import Regex.

(** ** The test harness and the file system *)

(** The three ways a Jest test case ends: it returns, an [expect] fails, or
    an [Error] is thrown. *)
Inductive outcome :=
| Passed
| Failed
| Threw (msg : string).

Definition expect (b : bool) : outcome := if b then Passed else Failed.

(** Sequencing of statements: the first failure ends the test case. *)
Definition andThen (o : outcome) (k : outcome) : outcome :=
  match o with Passed => k | _ => o end.

Infix "&>" := andThen (at level 85, right associativity).

(** [xs.forEach(f)] and the [while (exec)] loops whose body is a sequence
    of [expect]s. *)
Fixpoint forEach {A : Type} (f : A -> outcome) (l : list A) : outcome :=
  match l with
  | [] => Passed
  | x :: l' => f x &> forEach f l'
  end.

(** The files of the project root, by the path relative to it. *)
Definition existsSync (fs : gmap string string) (p : string) : bool :=
  bool_decide (is_Some (fs !! p)).

(** [fs.readFileSync(p, 'utf-8')] throws on a missing file. *)
Definition readFileSync (fs : gmap string string) (p : string)
  (k : string -> outcome) : outcome :=
  match fs !! p with
  | Some text => k text
  | None => Threw "ENOENT: no such file or directory"
  end.

(** The page documents every describe block lists. *)
Definition htmlFiles : list string :=
  ["index.html"; "publications.html"; "awards.html"; "teaching.html";
   "outreach.html"; "news.html"; "resume.html"].

(** ** Link accessibility ([tests/accessibility.test.js]) *)

Record link := Link { tag : string; href : string }.

(** The regex [/<a[^>]*href=Q(V)Q[^>]*>/gi], writing [Q] for the class of
    the two quote characters and [V] for [[^Q]*]. *)
Definition linkRegex : regex :=
  lit "<a" ++ [Atom not_gt Star] ++ lit "href="
  ++ [Atom quote One; GOpen; Atom not_quote Star; GClose; Atom quote One;
      Atom not_gt Star]
  ++ lit ">".

Definition extractExternalLinks (html : string) : list link :=
  flat_map
    (fun m =>
       let fullTag := whole m in
       let href := group 1 m in
       if Js.startsWith href "http://" || Js.startsWith href "https://"
       then [Link fullTag href]
       else [])
    (exec_all true linkRegex html).

(** [linkHasAttribute(linkTag, attribute, value = null)].  The attribute
    and the value are spliced into the regex source; at every call site
    they are words without regex operators, so they stand for themselves.
    An empty value is falsy and takes the second branch. *)
Definition linkHasAttribute (linkTag attribute : string) (value : option string)
  : bool :=
  match value with
  | Some (String c v) =>
      test true (lit attribute ++ lit "=" ++ [Atom quote One]
                 ++ lit (String c v) ++ [Atom quote One]) linkTag
  | _ =>
      test true (lit attribute ++ lit "=" ++
                 [Atom quote One; Atom not_quote Star; Atom quote One]) linkTag
  end.

(** The regex [/rel=Q(V)Q/i]. *)
Definition relRegex : regex :=
  lit "rel=" ++ [Atom quote One; GOpen; Atom not_quote Star; GClose; Atom quote One].

(** [relMatch ? relMatch[1] : ''] *)
Definition relValue (linkTag : string) : string :=
  match exec true relRegex linkTag with
  | Some m => group 1 m
  | None => ""
  end.

(** The body of the property of the test case
    [all external links have target="_blank"], run by fast-check on file
    names drawn from [htmlFiles]. *)
Definition targetBlankProperty (fs : gmap string string) (filename : string)
  : outcome :=
  if negb (existsSync fs filename) then Passed
  else
    readFileSync fs filename (fun html =>
      forEach (fun l => expect (linkHasAttribute (tag l) "target" (Some "_blank")))
              (extractExternalLinks html)).

(** The body of the property of [all external links have rel="noopener
    noreferrer"]. *)
Definition relProperty (fs : gmap string string) (filename : string) : outcome :=
  if negb (existsSync fs filename) then Passed
  else
    readFileSync fs filename (fun html =>
      forEach (fun l =>
                 let hasRel := linkHasAttribute (tag l) "rel" None in
                 expect hasRel &>
                 if hasRel
                 then expect (test false (lit "noopener") (relValue (tag l))) &>
                      expect (test false (lit "noreferrer") (relValue (tag l)))
                 else Passed)
              (extractExternalLinks html)).

(** Both test cases of the link check on one file. *)
Definition linkCheck (fs : gmap string string) (filename : string) : bool :=
  match targetBlankProperty fs filename, relProperty fs filename with
  | Passed, Passed => true
  | _, _ => false
  end.

(** ** Heading hierarchy ([tests/accessibility.test.js]) *)

(** A JavaScript number that holds an integer, or [NaN] ([None]). *)
Definition num := option Z.

(** The value of a digit in the given radix (at most 16). *)
Definition digitValueIn (radix : Z) (c : ascii) : option Z :=
  let v :=
    if cset_match false digit c then Some (Z.of_N (Js.code c) - 48)%Z
    else if Js.is_lower c then Some (Z.of_N (Js.code c) - 87)%Z
    else if Js.is_upper c then Some (Z.of_N (Js.code c) - 55)%Z
    else None in
  match v with
  | Some d => if (d <? radix)%Z then Some d else None
  | None => None
  end.

(** The digits a string starts with, most significant first. *)
Fixpoint leadingDigitsIn (radix : Z) (s : string) : list Z :=
  match s with
  | EmptyString => []
  | String c s' =>
      match digitValueIn radix c with
      | Some d => d :: leadingDigitsIn radix s'
      | None => []
      end
  end.

(** [parseInt(s, radix)] on a string without sign, prefix or leading white
    space: the value of the leading digits, [NaN] when there is none. *)
Definition parseIntRadix (s : string) (radix : Z) : num :=
  match leadingDigitsIn radix s with
  | [] => None
  | ds => Some (fold_left (fun acc d => radix * acc + d)%Z ds 0%Z)
  end.

(** [parseInt(s)]: the radix defaults to 10. *)
Definition parseInt (s : string) : num := parseIntRadix s 10.

Definition numSub (a b : num) : num :=
  match a, b with
  | Some x, Some y => Some (x - y)%Z
  | _, _ => None
  end.

(** Comparisons with [NaN] are false. *)
Definition numGt (a : num) (k : Z) : bool :=
  match a with Some x => (k <? x)%Z | None => false end.
Definition numLe (a : num) (k : Z) : bool :=
  match a with Some x => (x <=? k)%Z | None => false end.
Definition numStrictEq (a : num) (k : Z) : bool :=
  match a with Some x => (x =? k)%Z | None => false end.

(** [headings[i]]; reading past the end gives [undefined], which the
    arithmetic turns into [NaN]. *)
Definition at_index (headings : list num) (i : nat) : num :=
  match nth_error headings i with
  | Some h => h
  | None => None
  end.

(** The regex [/<h([1-6])[^>]*>/gi]. *)
Definition headingRegex : regex :=
  lit "<h" ++ [GOpen; Atom one_to_six One; GClose; Atom not_gt Star] ++ lit ">".

Definition extractHeadings (html : string) : list num :=
  map (fun m => parseInt (group 1 m)) (exec_all true headingRegex html).

(** The body of the [for] loop at index [i]. *)
Definition headingStep (headings : list num) (i : nat) : outcome :=
  let diff := numSub (at_index headings i) (at_index headings (i - 1)) in
  if numGt diff 0 then expect (numLe diff 1) else Passed.

(** The assertions on the heading levels of one page. *)
Definition headingAssertions (headings : list num) : outcome :=
  expect (1 <=? List.length (List.filter (fun h => numStrictEq h 1) headings))%nat &>
  forEach (headingStep headings) (seq 1 (List.length headings - 1)).

(** The body of [htmlFiles.forEach] in the test case
    [sections have proper heading structure]. *)
Definition headingFileCheck (fs : gmap string string) (filename : string)
  : outcome :=
  if negb (existsSync fs filename) then Passed
  else readFileSync fs filename (fun html => headingAssertions (extractHeadings html)).

Definition headingCheck (fs : gmap string string) : outcome :=
  forEach (headingFileCheck fs) htmlFiles.

(** ** Image alternative text ([tests/accessibility.test.js]) *)

(** The regex [/<img[^>]*>/gi]. *)
Definition imgRegex : regex := lit "<img" ++ [Atom not_gt Star] ++ lit ">".

Definition imgTags (html : string) : list string :=
  map whole (exec_all true imgRegex html).

(** The regex [/alt=Q(V)Q/], without the [i] flag. *)
Definition altRegex : regex :=
  lit "alt=" ++ [Atom quote One; GOpen; Atom not_quote Star; GClose; Atom quote One].

(** [imgTag.match(altRegex)]: the captured value when there is a match. *)
Definition altMatch (imgTag : string) : option string :=
  option_map (group 1) (exec false altRegex imgTag).

(** The property of [all images have alt attributes]. *)
Definition altPresentProperty (fs : gmap string string) (filename : string)
  : outcome :=
  if negb (existsSync fs filename) then Passed
  else
    readFileSync fs filename (fun html =>
      forEach (fun imgTag => expect (test false altRegex imgTag)) (imgTags html)).

(** The body of [htmlFiles.forEach] in [all images have non-empty alt
    text].  The else branch calls [fail], which the suite neither defines
    nor imports: the call raises a ReferenceError. *)
Definition altNonEmptyFileCheck (fs : gmap string string) (filename : string)
  : outcome :=
  if negb (existsSync fs filename) then Passed
  else
    readFileSync fs filename (fun html =>
      forEach (fun imgTag =>
                 match altMatch imgTag with
                 | Some altText => expect (0 <? String.length (Js.trim altText))%nat
                 | None => Threw "ReferenceError: fail is not defined"
                 end)
              (imgTags html)).

Definition genericTerms : list string := ["image"; "photo"; "picture"; "img"].

(** [genericTerms.some(term => altText.toLowerCase() === term)] *)
Definition isGeneric (altText : string) : bool :=
  existsb (fun term => String.eqb (Js.toLowerCase altText) term) genericTerms.

(** The body of [htmlFiles.forEach] in [alt text is descriptive]. *)
Definition altDescriptiveFileCheck (fs : gmap string string) (filename : string)
  : outcome :=
  if negb (existsSync fs filename) then Passed
  else
    readFileSync fs filename (fun html =>
      forEach (fun imgTag =>
                 match altMatch imgTag with
                 | Some alt =>
                     let altText := Js.trim alt in
                     expect (3 <=? String.length altText)%nat &>
                     expect (negb (isGeneric altText))
                 | None => Passed
                 end)
              (imgTags html)).

(** [role=Q presentation Q] or [aria-hidden=Q true Q] in the tag. *)
Definition isDecorative (imgTag : string) : bool :=
  test false (lit "role=" ++ [Atom quote One] ++ lit "presentation" ++ [Atom quote One])
       imgTag
  || test false (lit "aria-hidden=" ++ [Atom quote One] ++ lit "true" ++ [Atom quote One])
          imgTag.

(** The body of [htmlFiles.forEach] in [decorative images can have empty
    alt]: its only assertion is that the captured group is defined, which a
    match always satisfies. *)
Definition altDecorativeFileCheck (fs : gmap string string) (filename : string)
  : outcome :=
  if negb (existsSync fs filename) then Passed
  else
    readFileSync fs filename (fun html =>
      forEach (fun imgTag =>
                 if isDecorative imgTag
                 then match altMatch imgTag with
                      | Some _ => expect true
                      | None => Passed
                      end
                 else Passed)
              (imgTags html)).

(** The four test cases of the image check on one file. *)
Definition altCheck (fs : gmap string string) (filename : string) : bool :=
  match altPresentProperty fs filename, altNonEmptyFileCheck fs filename,
        altDescriptiveFileCheck fs filename, altDecorativeFileCheck fs filename with
  | Passed, Passed, Passed, Passed => true
  | _, _, _, _ => false
  end.

(** ** External resources ([tests/performance.test.js]) *)

(** The regex [/<TAG[^>]*ATTR=Q(PREFIX[^Q]+)Q[^>]*>/gi], the shape of the
    four regexes of [extractExternalResources]. *)
Definition resourceRegex (tagName attr : string) (prefix : regex) : regex :=
  lit "<" ++ lit tagName ++ [Atom not_gt Star] ++ lit attr ++ lit "="
  ++ [Atom quote One; GOpen] ++ prefix ++ [Atom not_quote Plus; GClose;
      Atom quote One; Atom not_gt Star]
  ++ lit ">".

(** [https?:\/\/] and [\/\/] *)
Definition httpPrefix : regex := lit "http" ++ [Atom (chr "s") Opt] ++ lit "://".
Definition protocolRelativePrefix : regex := lit "//".

Definition extractExternalResources (html : string) : list string :=
  map (group 1) (exec_all true (resourceRegex "link" "href" httpPrefix) html)
  ++ map (group 1) (exec_all true (resourceRegex "script" "src" httpPrefix) html)
  ++ map (group 1) (exec_all true (resourceRegex "img" "src" httpPrefix) html)
  ++ map (fun m => "https:" +:+ group 1 m)
         (exec_all true (resourceRegex "img" "src" protocolRelativePrefix) html).

(** The property of [external HTTP requests should not exceed 15 per
    page]; [new Set(externalResources)] is a finite set of strings. *)
Definition requestCountProperty (fs : gmap string string) (filename : string)
  : outcome :=
  if negb (existsSync fs filename) then Passed
  else
    readFileSync fs filename (fun html =>
      let externalResources := extractExternalResources html in
      let uniqueResources : gset string := list_to_set externalResources in
      expect (size uniqueResources <=? 15)%nat).

(** [resourceCounts[url] = (resourceCounts[url] || 0) + 1] *)
Definition countResource (resourceCounts : gmap string nat) (url : string)
  : gmap string nat :=
  <[url := (default 0 (resourceCounts !! url) + 1)%nat]> resourceCounts.

(** The body of [htmlFiles.forEach] in [pages should minimize duplicate
    external resources]. *)
Definition duplicateFileCheck (fs : gmap string string) (filename : string)
  : outcome :=
  if negb (existsSync fs filename) then Passed
  else
    readFileSync fs filename (fun html =>
      let externalResources := extractExternalResources html in
      let resourceCounts := fold_left countResource externalResources ∅ in
      let duplicates :=
        List.filter (fun '(url, count) => (1 <? count)%nat) (map_to_list resourceCounts) in
      expect (List.length duplicates =? 0)%nat).

Definition resourceCheck (fs : gmap string string) (filename : string) : bool :=
  match requestCountProperty fs filename, duplicateFileCheck fs filename with
  | Passed, Passed => true
  | _, _ => false
  end.

(** ** Colour contrast ([tests/accessibility.test.js]) *)

Record rgb := RGB { r : Z; g : Z; b : Z }.

(** The regex [/^#?([a-f\d]{2})([a-f\d]{2})([a-f\d]{2})$/i]; the start
    anchor is rendered by matching at the first position only. *)
Definition hexRegex : regex :=
  [Atom (chr "#") Opt;
   GOpen; Atom hex_digit One; Atom hex_digit One; GClose;
   GOpen; Atom hex_digit One; Atom hex_digit One; GClose;
   GOpen; Atom hex_digit One; Atom hex_digit One; GClose;
   Eol].

(** [hexToRgb(hex)]: [null] is [None].  Each group holds two hexadecimal
    digits, so no channel is [NaN]. *)
Definition hexToRgb (hex : string) : option rgb :=
  match match_here true hexRegex init hex with
  | Some (result, _) =>
      match parseIntRadix (group 1 result) 16, parseIntRadix (group 2 result) 16,
            parseIntRadix (group 3 result) 16 with
      | Some r, Some g, Some b => Some (RGB r g b)
      | _, _, _ => None
      end
  | None => None
  end.

Open Scope R_scope.

(** The arrow function mapped over the three channels. *)
Definition linearize (c : R) : R :=
  let c := c / 255 in
  if Rle_dec c 0.03928 then c / 12.92 else Rpower ((c + 0.055) / 1.055) 2.4.

Definition getLuminance (r g b : R) : R :=
  let rs := linearize r in
  let gs := linearize g in
  let bs := linearize b in
  0.2126 * rs + 0.7152 * gs + 0.0722 * bs.

Definition getContrastRatio (color1 color2 : rgb) : R :=
  let lum1 := getLuminance (IZR (r color1)) (IZR (g color1)) (IZR (b color1)) in
  let lum2 := getLuminance (IZR (r color2)) (IZR (g color2)) (IZR (b color2)) in
  let lighter := Rmax lum1 lum2 in
  let darker := Rmin lum1 lum2 in
  (lighter + 0.05) / (darker + 0.05).

(** [expect(ratio).toBeGreaterThanOrEqual(bound)] *)
Definition expectAtLeast (ratio bound : R) : outcome :=
  if Rle_dec bound ratio then Passed else Failed.

(** The specification's wording of the luminance: the piecewise gamma
    transform of each channel divided by 255, then the weighted sum. *)
Definition gammaTransform (v : R) : R :=
  if Rle_dec v 0.03928 then v / 12.92 else Rpower ((v + 0.055) / 1.055) 2.4.

Definition relativeLuminance (c : rgb) : R :=
  0.2126 * gammaTransform (IZR (r c) / 255)
  + 0.7152 * gammaTransform (IZR (g c) / 255)
  + 0.0722 * gammaTransform (IZR (b c) / 255).

Close Scope R_scope.

(** The regex [/--color-NAME:\s*#([a-f\d]{6})/i]. *)
Definition colorVarRegex (name : string) : regex :=
  lit "--color-" ++ lit name ++ lit ":" ++ [Atom space Star] ++ lit "#"
  ++ [GOpen; Atom hex_digit One; Atom hex_digit One; Atom hex_digit One;
      Atom hex_digit One; Atom hex_digit One; Atom hex_digit One; GClose].

(** [css.match(colorVarRegex)] followed by [hexToRgb('#' + match[1])]: the
    outer [None] is a failed regex match, the inner one a [null] colour. *)
Definition colorVar (css name : string) : option (option rgb) :=
  option_map (fun m => hexToRgb ("#" +:+ group 1 m)) (exec true (colorVarRegex name) css).

(** The test case [primary text color has sufficient contrast with
    background]. *)
Definition textContrastTest (fs : gmap string string) : outcome :=
  let cssPath := "css/variables.css" in
  if negb (existsSync fs cssPath) then Passed
  else
    readFileSync fs cssPath (fun css =>
      match colorVar css "text", colorVar css "background" with
      | Some (Some textColor), Some (Some bgColor) =>
          expectAtLeast (getContrastRatio textColor bgColor) 4.5%R
      | _, _ => Passed
      end).

(** ** Property-based test cases (fast-check) *)

(** [fc.assert(fc.property(fc.constantFrom(...values), prop), {numRuns})]:
    the generator draws [numRuns] indices into [values] and the property
    runs on each drawn value.  The draws are an input of the model.
    [fc.constantFrom] throws when it is given no value. *)
Definition fcAssertConstantFrom {A : Type} (values : list A) (draws : list nat)
  (prop : A -> outcome) : outcome :=
  match values with
  | [] => Threw "fc.constantFrom expects at least one parameter"
  | v :: _ => forEach (fun i => prop (nth (i mod List.length values) values v)) draws
  end.

(** The two link test cases as Jest runs them. *)
Definition targetBlankTest (fs : gmap string string) (draws : list nat) : outcome :=
  fcAssertConstantFrom htmlFiles draws (targetBlankProperty fs).
Definition relTest (fs : gmap string string) (draws : list nat) : outcome :=
  fcAssertConstantFrom htmlFiles draws (relProperty fs).

(** ** Publication entries ([tests/styling.test.js],
       [tests/publications.test.js]) *)

(** The double quote, code unit 34. *)
Definition dq : string := String "034" "".

Record element := Element { elTag : string; attributes : string; fullMatch : string }.

(** The regex [/<(T)(A)>/gi] with [T] the tag name [[a-z][a-z0-9]*] and
    [A] the attributes [[^>]*class=D[^D]*NAME[^D]*D[^>]*], writing [D] for
    the double quote. *)
Definition elementsByClassRegex (className : string) : regex :=
  lit "<"
  ++ [GOpen; Atom (CSet false [("a", "z")%char]) One;
      Atom (CSet false [("a", "z"); ("0", "9")]%char) Star; GClose;
      GOpen; Atom not_gt Star]
  ++ lit "class=" ++ lit dq ++ [Atom not_dquote Star] ++ lit className
  ++ [Atom not_dquote Star] ++ lit dq ++ [Atom not_gt Star; GClose]
  ++ lit ">".

Definition extractElementsByClass (html className : string) : list element :=
  map (fun m => Element (group 1 m) (group 2 m) (whole m))
      (exec_all true (elementsByClassRegex className) html).

(** [s.split(/\s+/).filter(c => c.length > 0)]: the maximal runs of
    characters that are not white space.  [word] is the run being read. *)
Fixpoint splitWords (word : string) (s : string) : list string :=
  match s with
  | EmptyString => match word with EmptyString => [] | _ => [word] end
  | String c s' =>
      if cset_match false space c
      then match word with
           | EmptyString => splitWords "" s'
           | _ => word :: splitWords "" s'
           end
      else splitWords (snoc word c) s'
  end.

(** The regex [/class=Q(V)Q/]. *)
Definition classRegex : regex :=
  lit "class=" ++ [Atom quote One; GOpen; Atom not_quote Star; GClose; Atom quote One].

Definition extractClasses (elementHtml : string) : list string :=
  match exec false classRegex elementHtml with
  | None => []
  | Some classMatch => splitWords "" (group 1 classMatch)
  end.

(** The test case [publication entries have consistent CSS classes] of the
    styling suite. *)
Definition publicationClassesTest (fs : gmap string string) (draws : list nat)
  : outcome :=
  let publicationsFile := "publications.html" in
  if negb (existsSync fs publicationsFile) then Threw "publications.html not found"
  else
    readFileSync fs publicationsFile (fun html =>
      let entries := extractElementsByClass html "publication-entry" in
      expect (0 <? List.length entries)%nat &>
      fcAssertConstantFrom entries draws (fun entry =>
        let classes := extractClasses (fullMatch entry) in
        expect (existsb (String.eqb "publication-entry") classes) &>
        expect (String.eqb (Js.toLowerCase (elTag entry)) "article"))).

(** The regex [/<article[^>]*class=D[^D]*publication-entry[^D]*D[^>]*>
    ([\s\S]*?)<\/article>/gi]. *)
Definition entryRegex : regex :=
  lit "<article" ++ [Atom not_gt Star] ++ lit "class=" ++ lit dq
  ++ [Atom not_dquote Star] ++ lit "publication-entry" ++ [Atom not_dquote Star]
  ++ lit dq ++ [Atom not_gt Star] ++ lit ">"
  ++ [GOpen; Atom any LazyStar; GClose] ++ lit "</article>".

Definition extractPublicationEntries (html : string) : list string :=
  map (group 1) (exec_all true entryRegex html).

(** The regex [/<[^>]*class=D[^D]*NAME[^D]*D[^>]*>([\s\S]*?)<\/[^>]+>/i];
    [null] is [None]. *)
Definition extractTextContent (html className : string) : option string :=
  let regex :=
    lit "<" ++ [Atom not_gt Star] ++ lit "class=" ++ lit dq
    ++ [Atom not_dquote Star] ++ lit className ++ [Atom not_dquote Star]
    ++ lit dq ++ [Atom not_gt Star] ++ lit ">"
    ++ [GOpen; Atom any LazyStar; GClose] ++ lit "</" ++ [Atom not_gt Plus]
    ++ lit ">" in
  option_map (fun m => Js.trim (group 1 m)) (exec true regex html).

(** [expect(x).toBeTruthy()] on a string or [null]. *)
Definition truthy (x : option string) : bool :=
  match x with
  | Some (String _ _) => true
  | _ => false
  end.

(** The class [\w]. *)
Definition word_char : cset :=
  CSet false [("a", "z"); ("A", "Z"); ("0", "9"); ("_", "_")]%char.

(** The regex [/\b(19|20)\d{2}\b/] at the current position: the match
    starts and ends with a word character, so the boundaries ask for no
    word character before and none after. *)
Definition yearHere (s : string) : bool :=
  match s with
  | String c1 (String c2 (String c3 (String c4 rest))) =>
      ((Ascii.eqb c1 "1" && Ascii.eqb c2 "9") || (Ascii.eqb c1 "2" && Ascii.eqb c2 "0"))
      && cset_match false digit c3 && cset_match false digit c4
      && match rest with
         | EmptyString => true
         | String c5 _ => negb (cset_match false word_char c5)
         end
  | _ => false
  end.

(** Whether the year regex matches somewhere; [afterWord] tells whether the
    preceding character is a word character. *)
Fixpoint hasYear (afterWord : bool) (s : string) : bool :=
  (negb afterWord && yearHere s)
  || match s with
     | EmptyString => false
     | String c s' => hasYear (cset_match false word_char c) s'
     end.

(** The test case [all publication entries have required fields] of the
    publications suite. *)
Definition publicationFieldsTest (fs : gmap string string) (draws : list nat)
  : outcome :=
  let publicationsFile := "publications.html" in
  if negb (existsSync fs publicationsFile) then Threw "publications.html not found"
  else
    readFileSync fs publicationsFile (fun html =>
      let entries := extractPublicationEntries html in
      expect (0 <? List.length entries)%nat &>
      fcAssertConstantFrom entries draws (fun entry =>
        expect (Js.includes entry ("class=" +:+ dq +:+ "publication-authors" +:+ dq)) &>
        expect (Js.includes entry ("class=" +:+ dq +:+ "publication-title" +:+ dq)) &>
        expect (Js.includes entry ("class=" +:+ dq +:+ "publication-venue" +:+ dq)) &>
        let authorsContent := extractTextContent entry "publication-authors" in
        let titleContent := extractTextContent entry "publication-title" in
        let venueContent := extractTextContent entry "publication-venue" in
        expect (truthy authorsContent) &>
        expect (truthy titleContent) &>
        expect (truthy venueContent) &>
        expect (match venueContent with
                | Some venue => hasYear false venue
                | None => false
                end))).

(** The test case [publication entries use semantic HTML article elements]
    of the publications suite, which reads the file without looking for it
    first. *)
Definition semanticArticleTest (fs : gmap string string) : outcome :=
  readFileSync fs "publications.html" (fun html =>
    expect (Js.includes html "<article") &>
    expect (Js.includes html ("class=" +:+ dq +:+ "publication-entry" +:+ dq)) &>
    expect (Js.includes html "<section") &>
    expect (Js.includes html ("class=" +:+ dq +:+ "publication-section" +:+ dq)) &>
    expect (Js.includes html "<main")).

(** ** The build file (gulp tasks) *)

Module Gulp.

(** The project tree: files and directories by their path segments. *)
Inductive fsnode :=
| File (content : string)
| Dir.

Definition path := list string.

(** What a task does to the tree, in the order it does it. *)
Inductive op :=
| Remove (p : path)
| Put (p : path) (n : fsnode).

Definition existsSync (t : gmap path fsnode) (p : path) : bool :=
  bool_decide (is_Some (t !! p)).

(** [fs.rmSync(p, { recursive: true, force: true })] *)
Definition rmSync (t : gmap path fsnode) (p : path) : gmap path fsnode :=
  filter (fun entry => ¬ p `prefix_of` entry.1) t.

(** The directories above a path, outermost first. *)
Definition ancestors (p : path) : list path :=
  map (fun n => take n p) (seq 1 (List.length p - 1)).

(** One step of the chain of directories that [gulp.dest] makes above an
    entry: a directory that exists is kept, and a file in its place is an
    I/O error.  The result is the tree after the step and whether the step
    succeeded. *)
Definition mkdir (t : gmap path fsnode) (d : path) : gmap path fsnode * bool :=
  match t !! d with
  | Some Dir => (t, true)
  | Some (File _) => (t, false)
  | None => (<[d := Dir]> t, true)
  end.

Fixpoint mkdirp (ds : list path) (t : gmap path fsnode) : gmap path fsnode * bool :=
  match ds with
  | [] => (t, true)
  | d :: ds' => let r := mkdir t d in if r.2 then mkdirp ds' r.1 else r
  end.

(** The write of one entry: a file replaces a file, a directory is made
    unless it exists, and a file in the place of a directory or a directory
    in the place of a file is an I/O error. *)
Definition write (t : gmap path fsnode) (p : path) (n : fsnode)
  : gmap path fsnode * bool :=
  match n, t !! p with
  | Dir, None => (<[p := Dir]> t, true)
  | Dir, Some Dir => (t, true)
  | Dir, Some (File _) => (t, false)
  | File _, Some Dir => (t, false)
  | File _, _ => (<[p := n]> t, true)
  end.

(** [gulp.dest] writes an entry after creating the directories above it;
    the removal with [force] does not fail. *)
Definition apply (t : gmap path fsnode) (o : op) : gmap path fsnode * bool :=
  match o with
  | Remove p => (rmSync t p, true)
  | Put p n => let r := mkdirp (ancestors p) t in if r.2 then write r.1 p n else r
  end.

(** The operations are performed in their order; the first I/O error ends
    the build, and what was done before it stays done. *)
Fixpoint perform (ops : list op) (t : gmap path fsnode) : gmap path fsnode * bool :=
  match ops with
  | [] => (t, true)
  | o :: ops' => let r := apply t o in if r.2 then perform ops' r.1 else r
  end.

(** The tree that the operations leave behind, and whether they all
    succeeded. *)
Definition run (ops : list op) (t : gmap path fsnode) : gmap path fsnode :=
  (perform ops t).1.

Definition completes (ops : list op) (t : gmap path fsnode) : bool :=
  (perform ops t).2.

(** A task reads the tree it is started on and performs operations. *)
Definition task := gmap path fsnode -> list op.

(** [gulp.series(...tasks)]: each task starts when the one before it has
    signalled completion; after an error no later operation is performed. *)
Fixpoint series (tasks : list task) : task :=
  match tasks with
  | [] => fun _ => []
  | f :: rest => fun t => let ops := f t in ops ++ series rest (run ops t)
  end.

Definition jqueryPath : path := ["vendor"; "jquery"].

(** [cleanVendor(cb)]: the removal is synchronous and [cb] is called after
    it. *)
Definition cleanVendor : task :=
  fun t => if existsSync t jqueryPath then [Remove jqueryPath] else [].

Definition bootstrapDist : path := ["node_modules"; "bootstrap"; "dist"].
Definition vendorBootstrap : path := ["vendor"; "bootstrap"].

Fixpoint stripPrefix (pre p : path) : option path :=
  match pre, p with
  | [], _ => Some p
  | a :: pre', c :: p' => if String.eqb a c then stripPrefix pre' p' else None
  | _ :: _, [] => None
  end.

(** Globs do not match names that start with a dot. *)
Definition hidden (segment : string) : bool := Js.startsWith segment ".".

(** The negated globs [dist/css/bootstrap-grid*] and
    [dist/css/bootstrap-reboot*], on the path below [dist]. *)
Definition excludedVariant (rel : path) : bool :=
  match rel with
  | [dir; name] =>
      String.eqb dir "css"
      && (Js.startsWith name "bootstrap-grid" || Js.startsWith name "bootstrap-reboot")
  | _ => false
  end.

(** The path below [dist] of an entry that [gulp.src] selects: matched by
    [dist/**/*] and by neither negated glob. *)
Definition selected (p : path) : option path :=
  match stripPrefix bootstrapDist p with
  | Some (seg :: rel) =>
      if existsb hidden (seg :: rel) || excludedVariant (seg :: rel) then None
      else Some (seg :: rel)
  | _ => None
  end.

(** [vendor()]: the selected entries are written below [vendor/bootstrap]
    at their path relative to [dist]. *)
Definition vendor : task :=
  fun t =>
    flat_map (fun entry : path * fsnode =>
                match selected entry.1 with
                | Some rel => [Put (vendorBootstrap ++ rel) entry.2]
                | None => []
                end)
             (map_to_list t).

Definition exports_clean : task := cleanVendor.
Definition exports_vendor : task := series [cleanVendor; vendor].
Definition exports_default : task := exports_vendor.

(** A tree in which every entry lies in directories that exist. *)
Definition closed (t : gmap path fsnode) : bool :=
  forallb (fun entry : path * fsnode => forallb (existsSync t) (ancestors entry.1))
          (map_to_list t).

(** No entry at or below the path. *)
Definition absent (p : path) (t : gmap path fsnode) : Prop :=
  forall q : path, p `prefix_of` q -> t !! q = None.

Definition isPut (o : op) : bool :=
  match o with Put _ _ => true | Remove _ => false end.

End Gulp.

(** ** Navigation behaviour ([js/navigation.js]) *)

Module Nav.

Inductive listener :=
| InitAll                 (* the DOMContentLoaded callback *)
| UpdateNavbarOnScroll.   (* the scroll callback *)

(** The part of the browser state the script reads and writes: the class
    list of the first element matching [.navbar] (if any), the scroll
    offset, whether the document is still loading, and the registered
    listeners. *)
Record page := Page {
  navbar : option (list string);
  scrollY : Q;
  loading : bool;
  scrollListeners : list listener;
  loadedListeners : list listener
}.

Definition contains (classList : list string) (c : string) : bool :=
  existsb (String.eqb c) classList.

(** [DOMTokenList.add] and [remove]. *)
Definition add (classList : list string) (c : string) : list string :=
  if contains classList c then classList else classList ++ [c].
Definition remove (classList : list string) (c : string) : list string :=
  List.filter (fun x => negb (String.eqb c x)) classList.

Definition updateNavbarOnScroll (p : page) : page :=
  match navbar p with
  | Some classList =>
      if Qlt_le_dec 50 (scrollY p)
      then Page (Some (add classList "navbar-scrolled")) (scrollY p) (loading p)
                (scrollListeners p) (loadedListeners p)
      else Page (Some (remove classList "navbar-scrolled")) (scrollY p) (loading p)
                (scrollListeners p) (loadedListeners p)
  | None => p
  end.

Definition initNavbarScrollBehavior (p : page) : page :=
  match navbar p with
  | None => p
  | Some _ =>
      let p' := updateNavbarOnScroll p in
      Page (navbar p') (scrollY p') (loading p')
           (scrollListeners p' ++ [UpdateNavbarOnScroll]) (loadedListeners p')
  end.

(** The three initialisers; the click listeners of [initSmoothScroll] and
    [initMobileMenuAutoClose] touch neither the class list of the navbar
    nor the listeners below. *)
Definition initAll (p : page) : page := initNavbarScrollBehavior p.

Definition runListener (p : page) (l : listener) : page :=
  match l with
  | InitAll => initAll p
  | UpdateNavbarOnScroll => updateNavbarOnScroll p
  end.

(** The body of the script. *)
Definition script (p : page) : page :=
  if loading p
  then Page (navbar p) (scrollY p) (loading p) (scrollListeners p)
            (loadedListeners p ++ [InitAll])
  else initAll p.

(** The browser scrolls to offset [y] and fires [scroll]. *)
Definition fireScroll (y : Q) (p : page) : page :=
  fold_left runListener (scrollListeners p)
            (Page (navbar p) y (loading p) (scrollListeners p) (loadedListeners p)).

(** The browser finishes parsing and fires [DOMContentLoaded], once. *)
Definition fireDOMContentLoaded (p : page) : page :=
  fold_left runListener (loadedListeners p)
            (Page (navbar p) (scrollY p) false (scrollListeners p) []).

(** The states the page goes through once the script has run on a page
    without listeners of its own. *)
Inductive reachable : page -> Prop :=
| reach_script p0 :
    scrollListeners p0 = [] -> loadedListeners p0 = [] ->
    reachable (script p0)
| reach_scroll p y :
    reachable p -> reachable (fireScroll y p)
| reach_loaded p :
    reachable p -> loading p = true -> reachable (fireDOMContentLoaded p).

End Nav.

(** ** Predicates used in the statements *)

(** What the two link test cases ask of the tag of an external link. *)
Definition linkTagOk (linkTag : string) : Prop :=
  linkHasAttribute linkTag "target" (Some "_blank") = true
  /\ linkHasAttribute linkTag "rel" None = true
  /\ test false (lit "noopener") (relValue linkTag) = true
  /\ test false (lit "noreferrer") (relValue linkTag) = true.

(** Whether the captured attribute value names an external URL. *)
Definition isExternal (url : string) : bool :=
  Js.startsWith url "http://" || Js.startsWith url "https://".

(** No nesting step deeper than one level between adjacent headings. *)
Definition noSkippedLevel (levels : list Z) : Prop :=
  forall (i : nat) (a b : Z),
    nth_error levels i = Some a -> nth_error levels (S i) = Some b -> (b - a <= 1)%Z.

(** The regex has no capture-group bracket. *)
Definition groupFree (r : regex) : bool :=
  forallb (fun n => match n with GOpen | GClose => false | _ => true end) r.

(** A continuation that leaves the finished groups as they are. *)
Definition keepsGroups (k : cont) : Prop :=
  forall st s st' rest, k st s = Some (st', rest) -> groups st' = groups st.

(** What the image test cases ask of an img tag. *)
Definition imgTagOk (imgTag : string) : Prop :=
  exists alt : string,
    altMatch imgTag = Some alt
    /\ (3 <= String.length (Js.trim alt))%nat
    /\ isGeneric (Js.trim alt) = false.

(** A page with one decorative image whose alternative text is empty. *)
Definition decorativePage : string :=
  "<img src='divider.png' alt='' role='presentation'>".

(** An RGB colour: every channel between 0 and 255. *)
Definition isRgb (c : rgb) : Prop :=
  (0 <= r c <= 255)%Z /\ (0 <= g c <= 255)%Z /\ (0 <= b c <= 255)%Z.

(** The luminance of a colour, as [getContrastRatio] computes it. *)
Definition luminanceOf (c : rgb) : R :=
  getLuminance (IZR (r c)) (IZR (g c)) (IZR (b c)).

(** The ratio of a pair of hex colours: what the contrast test cases
    compute from the two declarations. *)
Definition contrastOfHex (text background : string) : option R :=
  match hexToRgb text, hexToRgb background with
  | Some textColor, Some bgColor => Some (getContrastRatio textColor bgColor)
  | _, _ => None
  end.

(** A variables sheet with the two declarations. *)
Definition variablesSheet : string :=
  ":root { --color-text: #1a1a1a; --color-background: #ffffff; }".

(** A checkout without any file. *)
Definition emptyCheckout : gmap string string := ∅.

(** The entry is written below [vendor/bootstrap] and is not one of the
    excluded bundle variants. *)
Definition bootstrapCopy (o : Gulp.op) : Prop :=
  exists (rel : Gulp.path) (n : Gulp.fsnode),
    o = Gulp.Put (Gulp.vendorBootstrap ++ rel) n
    /\ rel <> []
    /\ Gulp.excludedVariant rel = false.

(** A tree with a stale jQuery directory and a Bootstrap distribution. *)
Definition staleTree : gmap Gulp.path Gulp.fsnode :=
  list_to_map
    [(["vendor"], Gulp.Dir);
     (["vendor"; "jquery"], Gulp.Dir);
     (["vendor"; "jquery"; "jquery.min.js"], Gulp.File "jquery");
     (["node_modules"], Gulp.Dir);
     (["node_modules"; "bootstrap"], Gulp.Dir);
     (["node_modules"; "bootstrap"; "dist"], Gulp.Dir);
     (["node_modules"; "bootstrap"; "dist"; "css"], Gulp.Dir);
     (["node_modules"; "bootstrap"; "dist"; "css"; "bootstrap.min.css"],
      Gulp.File "css");
     (["node_modules"; "bootstrap"; "dist"; "css"; "bootstrap-grid.css"],
      Gulp.File "grid");
     (["node_modules"; "bootstrap"; "dist"; "js"], Gulp.Dir);
     (["node_modules"; "bootstrap"; "dist"; "js"; "bootstrap.bundle.js"],
      Gulp.File "js")].

(** The invariant of the scroll behaviour: while the document loads only
    the DOMContentLoaded callback is registered; afterwards a navbar has
    the scroll callback and carries the class exactly above offset 50. *)
Definition navInvariant (p : Nav.page) : Prop :=
  (Nav.loading p = true ->
   Nav.scrollListeners p = [] /\ Nav.loadedListeners p = [Nav.InitAll])
  /\ (Nav.loading p = false ->
      Nav.loadedListeners p = []
      /\ match Nav.navbar p with
         | Some classList =>
             Nav.scrollListeners p = [Nav.UpdateNavbarOnScroll]
             /\ (Nav.contains classList "navbar-scrolled" = true
                 <-> (50 < Nav.scrollY p)%Q)
         | None => Nav.scrollListeners p = []
         end).

(** A page that is still loading, with a navbar, scrolled to the top. *)
Definition freshPage : Nav.page :=
  Nav.Page (Some ["navbar"; "navbar-expand-lg"; "fixed-top"]) 0 true [] [].

(** A small home page and the checkout that holds only it. *)
Definition samplePage : string :=
  "<h1>Dr. Le</h1><h2>News</h2><h3>2024</h3><h2>Links</h2>"
  +:+ "<a href='https://scholar.example.org/le' target='_blank' rel='noopener noreferrer'>Scholar</a>"
  +:+ "<a href='publications.html'>Publications</a>"
  +:+ "<img src='https://cdn.example.org/le.jpg' alt='Portrait of Dr. Le'>"
  +:+ "<link href='https://fonts.example.org/inter.css' rel='stylesheet'>".

Definition sampleSite : gmap string string := {[ "index.html" := samplePage ]}.

(** ** Predicates used in the further properties *)

(** A continuation whose result has matched a prefix of the input. *)
Definition consumesInput (k : cont) : Prop :=
  forall st s st' rest,
    k st s = Some (st', rest) ->
    exists w : string, s = w +:+ rest /\ whole st' = whole st +:+ w.

(** [st'] is [st] after the text [w] has been matched. *)
Definition extends (st : mstate) (w : string) (st' : mstate) : Prop :=
  whole st' = whole st +:+ w
  /\ groups st' = groups st
  /\ cur st' = option_map (fun g => g +:+ w) (cur st).

(** Every character of the string satisfies the test. *)
Fixpoint allChars (p : ascii -> bool) (s : string) : bool :=
  match s with
  | EmptyString => true
  | String c s' => p c && allChars p s'
  end.

(** The string occurs in the text. *)
Definition occursIn (w text : string) : Prop :=
  exists before after : string, text = before +:+ w +:+ after.

(** ASCII letters in lower case, everything else unchanged. *)
Fixpoint asciiLower (s : string) : string :=
  match s with
  | EmptyString => EmptyString
  | String c s' => String (Js.lower_ascii c) (asciiLower s')
  end.

(** The state after the characters of [w] have been matched one by one. *)
Fixpoint pushAll (w : string) (st : mstate) : mstate :=
  match w with
  | EmptyString => st
  | String c w' => pushAll w' (push c st)
  end.

(** The text [w'] is matched by the literal [w], character by character. *)
Fixpoint litOk (ic : bool) (w w' : string) : bool :=
  match w, w' with
  | EmptyString, EmptyString => true
  | String c w, String x w' => cset_match ic (chr c) x && litOk ic w w'
  | _, _ => false
  end.

(** The text does not go on with a character of the class. *)
Definition stopsAt (p : ascii -> bool) (s : string) : bool :=
  match s with
  | EmptyString => true
  | String c _ => negb (p c)
  end.

Ltac split4 := split; [|split; [|split]].

(** ** More test cases of the suites *)

(** The body of [htmlFiles.forEach] in the test case [external links have
    security attributes] ([tests/accessibility.test.js]). *)
Definition securityAttributesFileCheck (fs : gmap string string) (filename : string)
  : outcome :=
  if negb (existsSync fs filename) then Passed
  else
    readFileSync fs filename (fun html =>
      forEach (fun l =>
                 expect (linkHasAttribute (tag l) "target" None) &>
                 expect (linkHasAttribute (tag l) "rel" None) &>
                 match exec true relRegex (tag l) with
                 | Some relMatch => expect (test false (lit "noopener") (group 1 relMatch))
                 | None => Passed
                 end)
              (extractExternalLinks html)).

(** Whether a match attempt succeeds. *)
Definition succeeds (o : option (mstate * string)) : bool :=
  match o with Some _ => true | None => false end.

(** Two continuations that succeed together, the second on the text in
    lower case. *)
Definition sameOutcome (k k' : cont) : Prop :=
  forall st st' s, succeeds (k st s) = succeeds (k' st' (asciiLower s)).

(** The regexes [/NAME=Q?\d+Q?/i] and [/style=Q[^Q]*NAME:\s*\d+px/i] of
    [imageHasDimensions] ([tests/performance.test.js]). *)
Definition dimensionAttrRegex (name : string) : regex :=
  lit name ++ lit "=" ++ [Atom quote Opt; Atom digit Plus; Atom quote Opt].

Definition dimensionStyleRegex (name : string) : regex :=
  lit "style=" ++ [Atom quote One; Atom not_quote Star] ++ lit name ++ lit ":"
  ++ [Atom space Star; Atom digit Plus] ++ lit "px".

Definition imageHasDimensions (imgTag : string) : bool :=
  let widthAttr := test true (dimensionAttrRegex "width") imgTag in
  let heightAttr := test true (dimensionAttrRegex "height") imgTag in
  let styleWidth := test true (dimensionStyleRegex "width") imgTag in
  let styleHeight := test true (dimensionStyleRegex "height") imgTag in
  (widthAttr || styleWidth) && (heightAttr || styleHeight).

(** The property of [all images should have explicit dimensions]. *)
Definition dimensionsProperty (fs : gmap string string) (filename : string)
  : outcome :=
  if negb (existsSync fs filename) then Passed
  else
    readFileSync fs filename (fun html =>
      forEach (fun imgTag => expect (imageHasDimensions imgTag)) (imgTags html)).

(** The body of [htmlFiles.forEach] in [images should have width and
    height attributes]. *)
Definition dimensionAttributesFileCheck (fs : gmap string string) (filename : string)
  : outcome :=
  if negb (existsSync fs filename) then Passed
  else
    readFileSync fs filename (fun html =>
      forEach (fun imgTag =>
                 let hasWidthAttr := test true (dimensionAttrRegex "width") imgTag in
                 let hasHeightAttr := test true (dimensionAttrRegex "height") imgTag in
                 if negb hasWidthAttr || negb hasHeightAttr
                 then
                   let hasCssDimensions :=
                     test true (dimensionStyleRegex "width") imgTag
                     && test true (dimensionStyleRegex "height") imgTag in
                   expect hasCssDimensions
                 else Passed)
              (imgTags html)).

(** The class [[\w-]] and the complement of the semicolon. *)
Definition word_dash : cset :=
  CSet false [("a", "z"); ("A", "Z"); ("0", "9"); ("_", "_"); ("-", "-")]%char.
Definition not_semicolon : cset := CSet true [(";", ";")]%char.

(** A text of letters, digits, underscores and hyphens: spliced into the
    source of a regex it stands for itself. *)
Definition plainWord (s : string) : bool := allChars (cset_match false word_dash) s.

(** The regex [/--([\w-]+):\s*([^;]+);/g] ([tests/styling.test.js]). *)
Definition cssVarRegex : regex :=
  lit "--" ++ [GOpen; Atom word_dash Plus; GClose] ++ lit ":"
  ++ [Atom space Star; GOpen; Atom not_semicolon Plus; GClose] ++ lit ";".

(** [variables[name] = value] on a plain object: the assignment of a
    string to [__proto__] is dropped, every other name becomes an own
    property. *)
Definition setProperty (variables : gmap string string) (name value : string)
  : gmap string string :=
  if String.eqb name "__proto__" then variables else <[name := value]> variables.

(** [extractCSSVariables(cssContent)]: the own properties of the object it
    returns. *)
Definition extractCSSVariables (cssContent : string) : gmap string string :=
  fold_left (fun variables m => setProperty variables (group 1 m) (Js.trim (group 2 m)))
            (exec_all false cssVarRegex cssContent) ∅.

(** The last element of the list that satisfies the test. *)
Definition findLast {A : Type} (f : A -> bool) (l : list A) : option A :=
  find f (rev l).

(** A character that is not white space. *)
Definition notSpace (c : ascii) : bool := negb (cset_match false space c).

(** A page with an image that has its two dimension attributes. *)
Definition sizedPage : string :=
  "<section><img src='le.jpg' alt='Portrait of Dr. Le' width='300' height='400'></section>".

(** Whether the position after [s] follows a word character, when the
    position before [s] does so according to [afterWord]. *)
Fixpoint wordBefore (afterWord : bool) (s : string) : bool :=
  match s with
  | EmptyString => afterWord
  | String c s' => wordBefore (cset_match false word_char c) s'
  end.

(** The capture groups of the state are pieces of the text matched so far,
    and the group being captured is its end. *)
Definition capturesInside (st : mstate) : Prop :=
  Forall (fun g => occursIn g (whole st)) (groups st)
  /\ forall g : string, cur st = Some g -> exists a : string, whole st = a +:+ g.

(** A continuation that keeps the capture groups inside the matched text. *)
Definition keepsInside (k : cont) : Prop :=
  forall st s st' rest,
    capturesInside st -> k st s = Some (st', rest) -> capturesInside st'.

(** A publications page with one entry, followed by a stray closing tag. *)
Definition publicationsPage : string :=
  "<main><article class=" +:+ dq +:+ "card publication-entry" +:+ dq +:+ ">"
  +:+ "<h3 class=" +:+ dq +:+ "publication-title" +:+ dq +:+ "> Contrast checks </h3>"
  +:+ "<p class=" +:+ dq +:+ "publication-venue" +:+ dq +:+ ">Web Conf, 2021.</p>"
  +:+ "</article><p>More</p></ARTICLE></main>".

(** The body of the entry of that page. *)
Definition publicationsPageEntry : string :=
  "<h3 class=" +:+ dq +:+ "publication-title" +:+ dq +:+ "> Contrast checks </h3>"
  +:+ "<p class=" +:+ dq +:+ "publication-venue" +:+ dq +:+ ">Web Conf, 2021.</p>".

(** The element of that page with the class of an entry. *)
Definition publicationsPageElement : element :=
  Element "article"
          (" class=" +:+ dq +:+ "card publication-entry" +:+ dq)
          ("<article class=" +:+ dq +:+ "card publication-entry" +:+ dq +:+ ">").

(** A sheet that declares one variable twice. *)
Definition spacingSheet : string :=
  ":root { --spacing-sm: 4px; --spacing-md: 1rem; --spacing-sm:  8px ; }".

(** ** The CSS task of the build file *)

(** [s.endsWith(suffix)] *)
Fixpoint endsWith (s suffix : string) : bool :=
  String.eqb s suffix
  || match s with
     | EmptyString => false
     | String _ s' => endsWith s' suffix
     end.

(** What the globs [./css/*.css] and [!./css/*.min.css] select among the
    names of the entries of [css]. *)
Definition cssSource (name : string) : bool :=
  endsWith name ".css" && negb (Gulp.hidden name) && negb (endsWith name ".min.css").

(** [rename({ suffix: '.min' })] on a name with the extension [.css]: the
    suffix goes between the base name and the extension. *)
Definition minName (name : string) : string :=
  substring 0 (String.length name - 4) name +:+ ".min" +:+ ".css".

Section Minify.

(** The transform of the clean-css library, which is not part of the
    repository. *)
Variable cleanCSS : string -> string.

(** The plugin passes an entry without contents through. *)
Definition minified (n : Gulp.fsnode) : Gulp.fsnode :=
  match n with
  | Gulp.File content => Gulp.File (cleanCSS content)
  | Gulp.Dir => Gulp.Dir
  end.

(** [minifyCSS()] *)
Definition minifyCSS : Gulp.task :=
  fun t =>
    flat_map (fun entry : Gulp.path * Gulp.fsnode =>
                match entry.1 with
                | [dir; name] =>
                    if String.eqb dir "css" && cssSource name
                    then [Gulp.Put ["css"; minName name] (minified entry.2)]
                    else []
                | _ => []
                end)
             (map_to_list t).

Definition exports_css : Gulp.task := minifyCSS.

End Minify.

(** A tree with two stylesheets, one of them minified already. *)
Definition cssTree : gmap Gulp.path Gulp.fsnode :=
  list_to_map
    [(["css"], Gulp.Dir);
     (["css"; "base.css"], Gulp.File ".a { color: #fff; }");
     (["css"; "legacy.min.css"], Gulp.File ".b{margin:0}")].

(** The entries of the tree that lie outside the directory. *)
Definition outside (dir p : Gulp.path) : Prop := ¬ dir `prefix_of` p.

(** The classes of the navbar other than the one the script toggles. *)
Definition otherClasses (p : Nav.page) : option (list string) :=
  option_map (List.filter (fun c => negb (String.eqb "navbar-scrolled" c))) (Nav.navbar p).

(** ** The words of the specification

    The pieces of a page that the checks are about, described by the text
    of the page alone; the properties compare them with what the test
    helpers compute. *)

(** [hit s x rest] says that the text [s] starts with a piece that stands
    for [x] and that [rest] follows the piece.  The pieces of a text in
    document order: the first one is the piece that starts earliest, and
    the next ones are those of the text behind it. *)
Inductive inDocumentOrder {A : Type} (hit : string -> A -> string -> Prop)
  : string -> list A -> Prop :=
| order_none (s : string) :
    (forall (before after : string) (x : A) (rest : string),
        s = before +:+ after -> ~ hit after x rest) ->
    inDocumentOrder hit s []
| order_next (before s : string) (x : A) (rest : string) (xs : list A) :
    (forall (b1 b2 : string) (y : A) (r : string),
        before = b1 +:+ b2 -> b2 <> "" -> ~ hit (b2 +:+ s) y r) ->
    hit s x rest ->
    inDocumentOrder hit rest xs ->
    inDocumentOrder hit (before +:+ s) (x :: xs).

(** The two quote characters, code units 34 and 39. *)
Definition isQuote (c : ascii) : bool := Ascii.eqb c "034" || Ascii.eqb c "'".

(** A text without the character that closes a tag, and a text without a
    quote character. *)
Definition noGt (s : string) : bool := allChars (fun c => negb (Ascii.eqb c ">")) s.
Definition noQuote (s : string) : bool := allChars (fun c => negb (isQuote c)) s.

(** *** Headings *)

(** The digit of a heading level. *)
Definition levelDigit (level : Z) : ascii := ascii_of_N (48 + Z.to_N level).

(** The text starts with the opening tag of a heading of the level: the
    angle bracket, the letter h in either case, the digit of a level
    between 1 and 6, and everything up to the next closing angle
    bracket. *)
Definition headingTagAt (s : string) (level : Z) (rest : string) : Prop :=
  exists (h : ascii) (attrs : string),
    s = String "<" (String h (String (levelDigit level) (attrs +:+ ">" +:+ rest)))
    /\ (h = "h"%char \/ h = "H"%char)
    /\ (1 <= level <= 6)%Z
    /\ noGt attrs = true.

(** The levels of the headings of a page in document order. *)
Definition headingLevels (html : string) (levels : list Z) : Prop :=
  inDocumentOrder headingTagAt html levels.

(** *** Tags with a quoted attribute *)

(** The text is [attr=Q value Q tail>] followed by [rest]: the attribute
    name in any letter case, a value without quote characters between two
    quote characters, and the remainder of the tag up to its closing angle
    bracket.  [ok] is what is asked of the value. *)
Definition attributeAt (attr : string) (ok : string -> Prop) (s value rest : string)
  : Prop :=
  exists (key : string) (q1 q2 : ascii) (tail : string),
    s = key +:+ String q1 (value +:+ String q2 (tail +:+ ">" +:+ rest))
    /\ asciiLower key = attr +:+ "="
    /\ isQuote q1 = true /\ isQuote q2 = true
    /\ noQuote value = true /\ ok value
    /\ noGt tail = true.

(** The text is a tag [<name lead attr=Q value Q tail>] followed by
    [rest], where the part [lead] between the tag name and the attribute
    does not leave the tag. *)
Definition tagAt (name attr : string) (ok : string -> Prop)
  (s lead value rest : string) : Prop :=
  exists (opening s2 : string),
    s = opening +:+ lead +:+ s2
    /\ asciiLower opening = "<" +:+ name
    /\ noGt lead = true
    /\ attributeAt attr ok s2 value rest.

(** The value that is read off the tag the text starts with: when several
    places of the tag fit, the last of them. *)
Definition tagValueAt (name attr : string) (ok : string -> Prop)
  (s value rest : string) : Prop :=
  exists lead : string,
    tagAt name attr ok s lead value rest
    /\ forall lead' value' rest' : string,
         tagAt name attr ok s lead' value' rest' ->
         (String.length lead' <= String.length lead)%nat.

(** *** Anchors *)

Definition anyValue (value : string) : Prop := True.

(** The text starts with the tag [tag a], whose name starts with the
    letter a in either case (an anchor, but also an area or abbr tag with
    an href), and the href value of the tag is [href a]. *)
Definition anchorAt (s : string) (a : link) (rest : string) : Prop :=
  s = tag a +:+ rest /\ tagValueAt "a" "href" anyValue s (href a) rest.

(** These tags of a page, in document order. *)
Definition anchorsInOrder (html : string) (anchors : list link) : Prop :=
  inDocumentOrder anchorAt html anchors.

(** The href names a web address. *)
Definition webAddress (url : string) : Prop :=
  (exists r : string, url = "http://" +:+ r) \/ (exists r : string, url = "https://" +:+ r).

(** The tag carries target=Q_blankQ, in any letter case. *)
Definition carriesTargetBlank (linkTag : string) : Prop :=
  exists (before key : string) (q1 : ascii) (value : string) (q2 : ascii)
         (after : string),
    linkTag = before +:+ key +:+ String q1 (value +:+ String q2 after)
    /\ asciiLower key = "target="
    /\ asciiLower value = "_blank"
    /\ isQuote q1 = true /\ isQuote q2 = true.

(** The text starts with [rel=Q value Q], the attribute name in any letter
    case. *)
Definition relAttributeAt (s value : string) : Prop :=
  exists (key : string) (q1 q2 : ascii) (after : string),
    s = key +:+ String q1 (value +:+ String q2 after)
    /\ asciiLower key = "rel="
    /\ isQuote q1 = true /\ isQuote q2 = true
    /\ noQuote value = true.

(** The value of the first rel attribute of the tag. *)
Definition firstRelValue (linkTag value : string) : Prop :=
  exists before s : string,
    linkTag = before +:+ s
    /\ relAttributeAt s value
    /\ forall (b1 b2 value' : string),
         before = b1 +:+ b2 -> b2 <> "" -> ~ relAttributeAt (b2 +:+ s) value'.

(** The tag carries a rel attribute, and the value of the first one holds
    both isolation tokens. *)
Definition carriesRelIsolation (linkTag : string) : Prop :=
  exists value : string,
    firstRelValue linkTag value
    /\ occursIn "noopener" value
    /\ occursIn "noreferrer" value.

(** *** External resources *)

(** An absolute URL of the web: the scheme http or https in any letter
    case, and something behind it. *)
Definition absoluteUrl (url : string) : Prop :=
  exists scheme body : string,
    url = scheme +:+ body
    /\ (asciiLower scheme = "http://" \/ asciiLower scheme = "https://")
    /\ body <> "".

(** A protocol-relative URL. *)
Definition protocolRelativeUrl (url : string) : Prop :=
  exists body : string, url = "//" +:+ body /\ body <> "".

(** The externally hosted resources of a page: the absolute URLs of the
    link hrefs, of the script srcs and of the img srcs, each kind in
    document order, and then the protocol-relative img srcs with the
    prefix [https:]. *)
Definition externalResources (html : string) (urls : list string) : Prop :=
  exists links scripts imgs relativeImgs : list string,
    inDocumentOrder (tagValueAt "link" "href" absoluteUrl) html links
    /\ inDocumentOrder (tagValueAt "script" "src" absoluteUrl) html scripts
    /\ inDocumentOrder (tagValueAt "img" "src" absoluteUrl) html imgs
    /\ inDocumentOrder (tagValueAt "img" "src" protocolRelativeUrl) html relativeImgs
    /\ urls = links ++ scripts ++ imgs ++ map (fun u => "https:" +:+ u) relativeImgs.

(** ** Auxiliary definitions of the proofs *)

(** The level that the loop of the heading check reads off a match. *)
Definition levelOf (m : mstate) : Z := default 0%Z (parseInt (group 1 m)).

(** The anchor that [extractExternalLinks] reads off a match. *)
Definition anchorOf (m : mstate) : link := Link (whole m) (group 1 m).

(** The regexes of the tags with a quoted attribute, with the regex of the
    value left open: [attr=Q(V)Q[^>]*>] and [<name[^>]*attr=Q(V)Q[^>]*>]. *)
Definition attributeRegex (attr : string) (V : regex) : regex :=
  lit (attr +:+ "=")
  ++ Atom quote One :: GOpen
     :: V ++ (GClose :: Atom quote One :: Atom not_gt Star :: lit ">").

Definition tagRegex (name attr : string) (V : regex) : regex :=
  lit ("<" +:+ name) ++ Atom not_gt Star :: attributeRegex attr V.

(** * Properties *)

(** ** The test harness *)

Lemma expect_Passed (b : bool) : expect b = Passed <-> b = true.
Proof. destruct b; simpl; split; congruence. Qed.

Lemma andThen_Passed (o k : outcome) : (o &> k) = Passed <-> o = Passed /\ k = Passed.
Proof.
  destruct o; simpl; split; try tauto; try congruence;
    intros [? ?]; congruence.
Qed.

Lemma forEach_Passed {A : Type} (f : A -> outcome) (l : list A) :
  forEach f l = Passed <-> Forall (fun x => f x = Passed) l.
Proof.
  induction l as [|x l IH]; simpl.
  - split; auto.
  - rewrite andThen_Passed, IH. split.
    + intros [? ?]. constructor; assumption.
    + intros H. inversion H; subst. split; assumption.
Qed.

Lemma existsSync_Some (fs : gmap string string) (p text : string) :
  fs !! p = Some text -> existsSync fs p = true.
Proof. intros H. unfold existsSync. apply bool_decide_eq_true. rewrite H. eauto. Qed.

Lemma existsSync_None (fs : gmap string string) (p : string) :
  fs !! p = None -> existsSync fs p = false.
Proof.
  intros H. unfold existsSync. apply bool_decide_eq_false. rewrite H.
  intros [? ?]. discriminate.
Qed.

(** A guarded read of a file that exists runs the continuation on its text. *)
Lemma guarded_read (fs : gmap string string) (p text : string) (o : outcome)
  (k : string -> outcome) :
  fs !! p = Some text ->
  (if negb (existsSync fs p) then o else readFileSync fs p k) = k text.
Proof.
  intros H. rewrite (existsSync_Some _ _ _ H). simpl. unfold readFileSync. now rewrite H.
Qed.

(** A guarded read of a missing file takes the guard's branch. *)
Lemma guarded_skip (fs : gmap string string) (p : string) (o : outcome)
  (k : string -> outcome) :
  fs !! p = None ->
  (if negb (existsSync fs p) then o else readFileSync fs p k) = o.
Proof. intros H. now rewrite (existsSync_None _ _ H). Qed.

(** A property-based test case passes when its property holds of every
    value it can draw; the draws decide which values it looks at. *)
Lemma fcAssertConstantFrom_Passed {A : Type} (values : list A) (draws : list nat)
  (prop : A -> outcome) :
  values <> [] -> Forall (fun v => prop v = Passed) values ->
  fcAssertConstantFrom values draws prop = Passed.
Proof.
  intros Hne Hall. destruct values as [|v values]; [contradiction|].
  unfold fcAssertConstantFrom. apply forEach_Passed, List.Forall_forall.
  intros i _. rewrite List.Forall_forall in Hall. apply Hall, nth_In.
  apply Nat.mod_upper_bound. discriminate.
Qed.

(** ** Link accessibility *)

Lemma extractExternalLinks_spec (html : string) (l : link) :
  In l (extractExternalLinks html) <->
  exists m, In m (exec_all true linkRegex html)
            /\ isExternal (group 1 m) = true
            /\ l = Link (whole m) (group 1 m).
Proof.
  unfold extractExternalLinks. rewrite in_flat_map. split.
  - intros (m & Hm & Hl). exists m. split; [assumption|].
    unfold isExternal.
    destruct (Js.startsWith (group 1 m) "http://" || Js.startsWith (group 1 m) "https://");
      simpl in Hl; [|contradiction].
    destruct Hl as [Hl|[]]. split; [reflexivity|]. now symmetry.
  - intros (m & Hm & Hext & ->). exists m. split; [assumption|].
    unfold isExternal in Hext. rewrite Hext. now left.
Qed.

(** The two test cases in terms of the matches of the link regex and of
    the tests that they run on a tag. *)
Lemma linkCheck_matches
  (fs : gmap string string) (filename html : string) :
  fs !! filename = Some html ->
  linkCheck fs filename = true <->
  forall m, In m (exec_all true linkRegex html) ->
            isExternal (group 1 m) = true ->
            linkTagOk (whole m).
Proof.
  intros Hfile. unfold linkCheck, targetBlankProperty, relProperty.
  rewrite !(guarded_read _ _ _ _ _ Hfile).
  set (links := extractExternalLinks html).
  assert (Hall : (forall m, In m (exec_all true linkRegex html) ->
            isExternal (group 1 m) = true ->
            linkTagOk (whole m)) <-> Forall (fun l => linkTagOk (tag l)) links).
  { rewrite List.Forall_forall. split.
    - intros H l Hl. apply extractExternalLinks_spec in Hl as (m & Hm & Hext & ->).
      simpl. now apply H.
    - intros H m Hm Hext.
      apply (H (Link (whole m) (group 1 m))).
      apply extractExternalLinks_spec. eauto. }
  rewrite Hall. clear Hall.
  split.
  - intros H.
    destruct (forEach _ links) eqn:Ht; try discriminate.
    destruct (forEach (fun l => _ &> _) links) eqn:Hr; try discriminate.
    apply forEach_Passed in Ht, Hr.
    rewrite List.Forall_forall in *. intros l Hl.
    specialize (Ht l Hl). specialize (Hr l Hl). cbv zeta in Hr.
    apply expect_Passed in Ht.
    apply andThen_Passed in Hr as [Hrel Hr]. apply expect_Passed in Hrel.
    rewrite Hrel in Hr. apply andThen_Passed in Hr as [Ho Hn].
    apply expect_Passed in Ho, Hn. repeat split; assumption.
  - intros H.
    assert (Ht : forEach (fun l => expect (linkHasAttribute (tag l) "target" (Some "_blank")))
                         links = Passed).
    { apply forEach_Passed. eapply List.Forall_impl; [|exact H].
      intros l (Ht & _). now apply expect_Passed. }
    rewrite Ht.
    match goal with |- match ?o with _ => _ end = true => assert (Hr : o = Passed) end.
    { apply forEach_Passed. eapply List.Forall_impl; [|exact H].
      intros l (_ & Hrel & Ho & Hn). cbv zeta. rewrite Hrel. cbn [expect andThen].
      apply andThen_Passed. split; now apply expect_Passed. }
    now rewrite Hr.
Qed.

(** ** The matcher *)

Lemma push_groups (c : ascii) (st : mstate) : groups (push c st) = groups st.
Proof. reflexivity. Qed.

Lemma greedy_keeps (p : ascii -> bool) (k : cont) :
  keepsGroups k -> keepsGroups (greedy p k).
Proof.
  intros Hk st s. revert st.
  induction s as [|c s IH]; intros st st' rest; simpl.
  - apply Hk.
  - destruct (p c); [|apply Hk].
    destruct (greedy p k (push c st) s) as [[st1 rest1]|] eqn:Hg.
    + intros [= <- <-]. now rewrite (IH _ _ _ Hg).
    + apply Hk.
Qed.

Lemma lazy_keeps (p : ascii -> bool) (k : cont) :
  keepsGroups k -> keepsGroups (lazy p k).
Proof.
  intros Hk st s. revert st.
  induction s as [|c s IH]; intros st st' rest; simpl.
  - destruct (k st "") as [[st1 rest1]|] eqn:Hks; [|discriminate].
    intros [= <- <-]. exact (Hk _ _ _ _ Hks).
  - destruct (k st (String c s)) as [[st1 rest1]|] eqn:Hks.
    + intros [= <- <-]. exact (Hk _ _ _ _ Hks).
    + destruct (p c); [|discriminate].
      intros Hl. now rewrite (IH _ _ _ Hl).
Qed.

Lemma match_here_keeps (ic : bool) (r : regex) :
  groupFree r = true -> keepsGroups (match_here ic r).
Proof.
  induction r as [|n r IH]; intros Hfree.
  - intros st s st' rest [= <- <-]. reflexivity.
  - simpl in Hfree. apply andb_true_iff in Hfree as [Hn Hfree].
    specialize (IH Hfree).
    destruct n as [cs q| | |]; try discriminate.
    + destruct q; simpl.
      * intros st [|c s] st' rest; [discriminate|].
        destruct (cset_match ic cs c); [|discriminate].
        intros H. now rewrite (IH _ _ _ _ H).
      * intros st [|c s] st' rest; [apply IH|].
        destruct (cset_match ic cs c); [|apply IH].
        destruct (match_here ic r (push c st) s) as [[st1 rest1]|] eqn:Hm.
        -- intros [= <- <-]. now rewrite (IH _ _ _ _ Hm).
        -- apply IH.
      * now apply greedy_keeps.
      * intros st [|c s] st' rest; [discriminate|].
        destruct (cset_match ic cs c); [|discriminate].
        intros H. now rewrite (greedy_keeps _ _ IH _ _ _ _ H).
      * now apply lazy_keeps.
    + simpl. intros st [|c s] st' rest; [apply IH|discriminate].
Qed.

(** Every match the [g] loop reports is a match at some position. *)
Lemma exec_loop_In (ic : bool) (r : regex) (s : string) (skip : nat) (m : mstate) :
  In m (exec_loop ic r skip s) ->
  exists s' rest, match_here ic r init s' = Some (m, rest).
Proof.
  revert skip. induction s as [|c s IH]; intros skip; simpl; [intros []|].
  destruct skip as [|k]; [|apply IH].
  destruct (match_here ic r init (String c s)) as [[st rest]|] eqn:Hm.
  - intros [<-|Hin]; [eauto|]. eapply IH, Hin.
  - apply IH.
Qed.

(** ** Heading hierarchy *)

Lemma one_to_six_level (c : ascii) :
  cset_match true one_to_six c = true ->
  exists n : Z, parseInt (String c "") = Some n /\ (1 <= n <= 6)%Z.
Proof.
  destruct c as [[] [] [] [] [] [] [] []]; vm_compute; intros H;
    try discriminate; eexists; (split; [reflexivity|split; discriminate]).
Qed.

Lemma heading_match_level (s rest : string) (m : mstate) :
  match_here true headingRegex init s = Some (m, rest) ->
  exists n : Z, parseInt (group 1 m) = Some n /\ (1 <= n <= 6)%Z.
Proof.
  destruct s as [|c1 [|c2 [|c3 s]]]; try discriminate;
    cbn [headingRegex lit list_ascii_of_string map app match_here];
    try (destruct (cset_match true (chr "<") c1); discriminate).
  { destruct (cset_match true (chr "<") c1); [|discriminate].
    destruct (cset_match true (chr "h") c2); discriminate. }
  destruct (cset_match true (chr "<") c1); [|discriminate].
  destruct (cset_match true (chr "h") c2); [|discriminate].
  cbn [open_group close_group push cur groups whole option_map init].
  destruct (cset_match true one_to_six c3) eqn:Hc3; [|discriminate].
  cbn [open_group close_group push cur groups whole option_map init app snoc].
  intros Hg.
  apply (greedy_keeps _ _ (match_here_keeps true (lit ">") eq_refl)) in Hg.
  unfold group. rewrite Hg. simpl.
  now apply one_to_six_level.
Qed.

Lemma extractHeadings_levels (html : string) :
  exists levels : list Z,
    extractHeadings html = map Some levels
    /\ Forall (fun n => (1 <= n <= 6)%Z) levels.
Proof.
  unfold extractHeadings, exec_all.
  assert (H : Forall (fun m => exists n : Z, parseInt (group 1 m) = Some n /\ (1 <= n <= 6)%Z)
                     (exec_loop true headingRegex 0 html)).
  { apply List.Forall_forall. intros m Hm.
    apply exec_loop_In in Hm as (s' & rest & Hm). eapply heading_match_level, Hm. }
  induction H as [|m ms (n & Hn & Hr) _ (levels & Hl & Hall)].
  - exists []. split; [reflexivity|constructor].
  - exists (n :: levels). simpl. rewrite Hn, Hl. split; [reflexivity|].
    constructor; assumption.
Qed.

Lemma at_index_Some (levels : list Z) (i : nat) :
  at_index (map Some levels) i = nth_error levels i.
Proof.
  unfold at_index. rewrite nth_error_map. now destruct (nth_error levels i).
Qed.

Lemma has_h1_iff (levels : list Z) :
  (1 <=? List.length (List.filter (fun h => numStrictEq h 1) (map Some levels)))%nat = true
  <-> In 1%Z levels.
Proof.
  induction levels as [|a l IH]; simpl.
  - split; [discriminate|tauto].
  - destruct (a =? 1)%Z eqn:Ha.
    + apply Z.eqb_eq in Ha. simpl. split; auto.
    + apply Z.eqb_neq in Ha. rewrite IH. split; [tauto|]. intros [?|?]; [congruence|assumption].
Qed.

Lemma headingStep_iff (levels : list Z) (i : nat) (a b : Z) :
  nth_error levels i = Some a -> nth_error levels (S i) = Some b ->
  headingStep (map Some levels) (S i) = Passed <-> (b - a <= 1)%Z.
Proof.
  intros Ha Hb. unfold headingStep.
  replace (S i - 1)%nat with i by lia.
  rewrite !at_index_Some, Ha, Hb. simpl.
  destruct (0 <? b - a)%Z eqn:Hpos.
  - rewrite expect_Passed. apply Z.leb_le.
  - apply Z.ltb_ge in Hpos. split; [lia|reflexivity].
Qed.

Lemma headingAssertions_iff (levels : list Z) :
  headingAssertions (map Some levels) = Passed
  <-> In 1%Z levels /\ noSkippedLevel levels.
Proof.
  unfold headingAssertions.
  rewrite andThen_Passed, expect_Passed, has_h1_iff, forEach_Passed, List.Forall_forall.
  rewrite length_map.
  apply and_iff_compat_l. unfold noSkippedLevel. split.
  - intros H i a b Ha Hb.
    apply (headingStep_iff levels i a b Ha Hb). apply H.
    apply in_seq.
    assert (S i < List.length levels)%nat by (apply nth_error_Some; congruence). lia.
  - intros H j Hj. apply in_seq in Hj.
    destruct j as [|i]; [lia|].
    destruct (nth_error levels i) as [a|] eqn:Ha;
      [|apply nth_error_None in Ha; lia].
    destruct (nth_error levels (S i)) as [b|] eqn:Hb;
      [|apply nth_error_None in Hb; lia].
    apply (headingStep_iff levels i a b Ha Hb). eapply H; eassumption.
Qed.

(** ** Image alternative text *)

Lemma altMatch_test (imgTag : string) :
  test false altRegex imgTag = true <-> exists alt, altMatch imgTag = Some alt.
Proof.
  unfold test, altMatch. destruct (exec false altRegex imgTag); simpl.
  - split; eauto.
  - split; [discriminate|]. intros [? ?]. discriminate.
Qed.

(** The image check makes no difference between decorative and other
    images: it passes exactly when every img tag has an alt value of
    trimmed length at least 3 that is not a generic term. *)
Lemma alt_check_iff (fs : gmap string string) (filename html : string) :
  fs !! filename = Some html ->
  altCheck fs filename = true <-> Forall imgTagOk (imgTags html).
Proof.
  intros Hfile.
  unfold altCheck, altPresentProperty, altNonEmptyFileCheck,
    altDescriptiveFileCheck, altDecorativeFileCheck.
  rewrite !(guarded_read _ _ _ _ _ Hfile).
  set (tags := imgTags html).
  assert (Hdec : forEach (fun imgTag =>
                   if isDecorative imgTag
                   then match altMatch imgTag with
                        | Some _ => expect true
                        | None => Passed
                        end
                   else Passed) tags = Passed).
  { apply forEach_Passed, List.Forall_forall. intros t _.
    destruct (isDecorative t); [|reflexivity]. now destruct (altMatch t). }
  rewrite Hdec. clear Hdec.
  split.
  - intros H.
    destruct (forEach _ tags) eqn:H1; try discriminate.
    destruct (forEach (fun imgTag => match altMatch imgTag with
                                     | Some altText => expect _
                                     | None => Threw _ end) tags) eqn:H2;
      try discriminate.
    destruct (forEach (fun imgTag => match altMatch imgTag with
                                     | Some alt => _
                                     | None => Passed end) tags) eqn:H3;
      try discriminate.
    apply forEach_Passed in H1, H2, H3. rewrite List.Forall_forall in *.
    intros t Ht. specialize (H2 t Ht). specialize (H3 t Ht). cbv zeta in H3.
    unfold imgTagOk. destruct (altMatch t) as [alt|]; [|discriminate].
    exists alt. split; [reflexivity|].
    apply andThen_Passed in H3 as [Hlen Hgen].
    apply expect_Passed in Hlen, Hgen.
    apply Nat.leb_le in Hlen. apply negb_true_iff in Hgen. now split.
  - intros H.
    assert (H1 : forEach (fun imgTag => expect (test false altRegex imgTag)) tags = Passed).
    { apply forEach_Passed. eapply List.Forall_impl; [|exact H].
      intros t (alt & Halt & _). apply expect_Passed, altMatch_test. eauto. }
    rewrite H1.
    assert (H2 : forEach (fun imgTag => match altMatch imgTag with
                   | Some altText => expect (0 <? String.length (Js.trim altText))%nat
                   | None => Threw "ReferenceError: fail is not defined" end) tags
                 = Passed).
    { apply forEach_Passed. eapply List.Forall_impl; [|exact H].
      intros t (alt & -> & Hlen & _). apply expect_Passed, Nat.ltb_lt. lia. }
    rewrite H2.
    assert (H3 : forEach (fun imgTag => match altMatch imgTag with
                   | Some alt =>
                       expect (3 <=? String.length (Js.trim alt))%nat &>
                       expect (negb (isGeneric (Js.trim alt)))
                   | None => Passed end) tags = Passed).
    { apply forEach_Passed. eapply List.Forall_impl; [|exact H].
      intros t (alt & -> & Hlen & Hgen).
      apply andThen_Passed. split; apply expect_Passed.
      - now apply Nat.leb_le.
      - now rewrite Hgen. }
    now rewrite H3.
Qed.

(** C4.  The page with the single tag
    [<img src='divider.png' alt='' role='presentation'>] has one img tag,
    the tag is marked decorative and its alt value is empty; the test case
    about decorative images passes on it, and the test cases about
    non-empty and descriptive alternative text fail, so the image check
    rejects the page although the image is decorative. *)
Theorem decorative_empty_alt_rejected :
  let fs : gmap string string := {[ "index.html" := decorativePage ]} in
  imgTags decorativePage = [decorativePage]
  /\ isDecorative decorativePage = true
  /\ altMatch decorativePage = Some ""
  /\ altPresentProperty fs "index.html" = Passed
  /\ altDecorativeFileCheck fs "index.html" = Passed
  /\ altNonEmptyFileCheck fs "index.html" = Failed
  /\ altDescriptiveFileCheck fs "index.html" = Failed
  /\ altCheck fs "index.html" = false.
Proof. vm_compute. repeat split; reflexivity. Qed.

(** ** External resources *)

(** After the counting loop an URL is a key of the object exactly when it
    occurs, and its value is the number of its occurrences. *)
Lemma countResource_lookup (urls : list string) (counts : gmap string nat) (url : string) :
  fold_left countResource urls counts !! url =
  match count_occ string_dec urls url with
  | O => counts !! url
  | S n => Some (default 0 (counts !! url) + S n)%nat
  end.
Proof.
  revert counts. induction urls as [|u urls IH]; intros counts; simpl; [reflexivity|].
  rewrite IH. unfold countResource.
  destruct (string_dec u url) as [->|Hne].
  - rewrite lookup_insert_eq. simpl.
    destruct (count_occ string_dec urls url); f_equal; lia.
  - rewrite lookup_insert_ne by assumption. reflexivity.
Qed.

Lemma no_duplicates_iff (urls : list string) :
  let resourceCounts := fold_left countResource urls ∅ in
  (List.length (List.filter (fun '(url, count) => (1 <? count)%nat)
                            (map_to_list resourceCounts)) =? 0)%nat = true
  <-> forall url, (count_occ string_dec urls url <= 1)%nat.
Proof.
  intros resourceCounts. rewrite Nat.eqb_eq, List.length_zero_iff_nil. split.
  - intros Hnil url.
    destruct (count_occ string_dec urls url) as [|[|n]] eqn:Hc; [lia|lia|exfalso].
    assert (Hin : In (url, S (S n)) (List.filter (fun '(url, count) => (1 <? count)%nat)
                                                  (map_to_list resourceCounts))).
    { apply List.filter_In. split; [|reflexivity].
      apply list_elem_of_In, elem_of_map_to_list. unfold resourceCounts.
      rewrite countResource_lookup, Hc, lookup_empty. reflexivity. }
    rewrite Hnil in Hin. destruct Hin.
  - intros Hle.
    destruct (List.filter _ (map_to_list resourceCounts)) as [|[url count] l] eqn:Hf;
      [reflexivity|exfalso].
    assert (Hin : In (url, count) (List.filter (fun '(url, count) => (1 <? count)%nat)
                                               (map_to_list resourceCounts)))
      by (rewrite Hf; now left).
    apply List.filter_In in Hin as [Hin Hgt].
    apply list_elem_of_In, elem_of_map_to_list in Hin. unfold resourceCounts in Hin.
    rewrite countResource_lookup, lookup_empty in Hin. specialize (Hle url).
    apply Nat.ltb_lt in Hgt.
    destruct (count_occ string_dec urls url); [discriminate|].
    injection Hin as <-. simpl in Hgt. lia.
Qed.

Lemma resourceCheck_eq (fs : gmap string string) (filename html : string) :
  fs !! filename = Some html ->
  resourceCheck fs filename =
  (size (list_to_set (extractExternalResources html) : gset string) <=? 15)%nat
  && (List.length
        (List.filter (fun '(url, count) => (1 <? count)%nat)
           (map_to_list (fold_left countResource (extractExternalResources html) ∅)))
      =? 0)%nat.
Proof.
  intros Hfile. unfold resourceCheck, requestCountProperty, duplicateFileCheck.
  rewrite !(guarded_read _ _ _ _ _ Hfile). cbv zeta.
  destruct (size _ <=? 15)%nat; simpl; [|reflexivity].
  now destruct (_ =? 0)%nat.
Qed.

(** When the check passes the extracted list itself has no repetition and
    at most 15 entries. *)
Lemma resource_check_NoDup
  (fs : gmap string string) (filename html : string) :
  fs !! filename = Some html ->
  resourceCheck fs filename = true <->
  List.NoDup (extractExternalResources html)
  /\ (List.length (extractExternalResources html) <= 15)%nat.
Proof.
  intros Hfile. rewrite (resourceCheck_eq _ _ _ Hfile), andb_true_iff.
  rewrite no_duplicates_iff, Nat.leb_le.
  rewrite <- (List.NoDup_count_occ string_dec).
  split; intros [H1 H2]; split; try assumption.
  - apply NoDup_ListNoDup in H2.
    rewrite <- (size_list_to_set (C := gset string)) by assumption. assumption.
  - apply NoDup_ListNoDup in H1.
    rewrite (size_list_to_set (C := gset string)) by assumption. assumption.
Qed.

(** The two test cases in terms of the list that is extracted. *)
Lemma resourceCheck_counts
  (fs : gmap string string) (filename html : string) :
  fs !! filename = Some html ->
  resourceCheck fs filename = true <->
  (size (list_to_set (extractExternalResources html) : gset string) <= 15)%nat
  /\ forall url, (count_occ string_dec (extractExternalResources html) url <= 1)%nat.
Proof.
  intros Hfile. rewrite (resourceCheck_eq _ _ _ Hfile), andb_true_iff.
  now rewrite no_duplicates_iff, Nat.leb_le.
Qed.

(** ** Colour contrast *)

(** A hexadecimal digit has a value below 16. *)
Lemma hex_digit_value (c : ascii) :
  cset_match true hex_digit c = true ->
  exists d : Z, digitValueIn 16 c = Some d /\ (0 <= d < 16)%Z.
Proof.
  destruct c as [[] [] [] [] [] [] [] []]; vm_compute; intros H;
    try discriminate; eexists; (split; [reflexivity|split; [discriminate|reflexivity]]).
Qed.

Lemma hex_pair_value (c1 c2 : ascii) :
  cset_match true hex_digit c1 = true -> cset_match true hex_digit c2 = true ->
  exists v : Z, parseIntRadix (String c1 (String c2 "")) 16 = Some v /\ (0 <= v <= 255)%Z.
Proof.
  intros H1 H2.
  destruct (hex_digit_value c1 H1) as (d1 & Hd1 & Hr1).
  destruct (hex_digit_value c2 H2) as (d2 & Hd2 & Hr2).
  exists (16 * (16 * 0 + d1) + d2)%Z. split; [|lia].
  unfold parseIntRadix. cbn [leadingDigitsIn]. rewrite Hd1, Hd2. reflexivity.
Qed.

(** The six digits after the optional hash sign: the three groups hold two
    hexadecimal digits each. *)
Lemma hex_groups (st : mstate) (s rest : string) (m : mstate) :
  match_here true (tl hexRegex) st s = Some (m, rest) ->
  exists c1 c2 c3 c4 c5 c6 : ascii,
    Forall (fun c => cset_match true hex_digit c = true) [c1; c2; c3; c4; c5; c6]
    /\ groups m
       = groups st ++ [String c1 (String c2 ""); String c3 (String c4 "");
                       String c5 (String c6 "")].
Proof.
  unfold hexRegex. cbn [tl].
  destruct s as [|c1 [|c2 [|c3 [|c4 [|c5 [|c6 s]]]]]];
    cbn [match_here open_group close_group push cur groups whole option_map snoc];
    try discriminate;
    repeat match goal with
           | |- context [if cset_match true hex_digit ?c then _ else _] =>
               destruct (cset_match true hex_digit c) eqn:?; try discriminate
           end;
    try discriminate.
  destruct s; [|discriminate]. intros [= <- <-].
  exists c1, c2, c3, c4, c5, c6. split.
  - repeat constructor; assumption.
  - simpl. rewrite <- !app_assoc. reflexivity.
Qed.

(** A colour that [hexToRgb] returns has its channels between 0 and 255;
    the parse of a group never fails. *)
Lemma hexToRgb_isRgb (hex : string) :
  match match_here true hexRegex init hex with
  | Some _ => exists c, hexToRgb hex = Some c /\ isRgb c
  | None => hexToRgb hex = None
  end.
Proof.
  unfold hexToRgb.
  destruct (match_here true hexRegex init hex) as [[m rest]|] eqn:Hm; [|reflexivity].
  assert (Htail : exists st s0, groups st = []
                    /\ match_here true (tl hexRegex) st s0 = Some (m, rest)).
  { change hexRegex with (Atom (chr "#") Opt :: tl hexRegex) in Hm.
    cbn [match_here] in Hm.
    destruct hex as [|c s']; [exists init, ""; now split|].
    destruct (cset_match true (chr "#") c); [|exists init, (String c s'); now split].
    destruct (match_here true (tl hexRegex) (push c init) s') as [res|] eqn:Hconsumed.
    - injection Hm as ->. exists (push c init), s'. now split.
    - exists init, (String c s'). now split. }
  destruct Htail as (st & s0 & Hst & Htail).
  apply hex_groups in Htail as (c1 & c2 & c3 & c4 & c5 & c6 & Hhex & Hgroups).
  rewrite Hst in Hgroups. cbn [app] in Hgroups.
  unfold group. rewrite Hgroups. cbn [nth Nat.sub].
  repeat match goal with
         | H : Forall _ (_ :: _) |- _ => inversion H; subst; clear H
         end.
  destruct (hex_pair_value c1 c2) as (r & -> & Hr); try assumption.
  destruct (hex_pair_value c3 c4) as (g & -> & Hg); try assumption.
  destruct (hex_pair_value c5 c6) as (b & -> & Hb); try assumption.
  exists (RGB r g b). split; [reflexivity|]. unfold isRgb. simpl. auto.
Qed.

Lemma hexToRgb_Some_isRgb (hex : string) (c : rgb) :
  hexToRgb hex = Some c -> isRgb c.
Proof.
  intros Hc. pose proof (hexToRgb_isRgb hex) as H.
  destruct (match_here true hexRegex init hex).
  - destruct H as (c' & Hc' & Hrgb). congruence.
  - congruence.
Qed.

Section Contrast.
Local Open Scope R_scope.

Lemma Rpower_one (y : R) : Rpower 1 y = 1.
Proof. unfold Rpower. now rewrite ln_1, Rmult_0_r, exp_0. Qed.

(** Below 1 a power with exponent 2.4 is below its base. *)
Lemma Rpower_below (x : R) : 0 < x < 1 -> 0 < Rpower x 2.4 < x.
Proof.
  intros [Hpos Hlt]. split; [apply exp_pos|].
  unfold Rpower.
  assert (Hln : ln x < 0) by (rewrite <- ln_1; now apply ln_increasing).
  rewrite <- (exp_ln x Hpos) at 2. apply exp_increasing. lra.
Qed.

Lemma linearize_nonneg (c : R) : 0 <= c -> 0 <= linearize c.
Proof.
  intros Hc. unfold linearize.
  destruct (Rle_dec (c / 255) 0.03928).
  - lra.
  - left. apply exp_pos.
Qed.

Lemma luminance_nonneg (c : rgb) : isRgb c -> 0 <= luminanceOf c.
Proof.
  intros ([Hr _] & [Hg _] & [Hb _]). unfold luminanceOf, getLuminance.
  apply IZR_le in Hr, Hg, Hb.
  pose proof (linearize_nonneg _ Hr). pose proof (linearize_nonneg _ Hg).
  pose proof (linearize_nonneg _ Hb). lra.
Qed.

Lemma getLuminance_spec (c : rgb) : luminanceOf c = relativeLuminance c.
Proof. reflexivity. Qed.

Lemma getContrastRatio_eq (c1 c2 : rgb) :
  getContrastRatio c1 c2 =
  (Rmax (luminanceOf c1) (luminanceOf c2) + 0.05)
  / (Rmin (luminanceOf c1) (luminanceOf c2) + 0.05).
Proof. reflexivity. Qed.

Lemma luminance_white : luminanceOf (RGB 255 255 255) = 1.
Proof.
  unfold luminanceOf, getLuminance, linearize. simpl.
  destruct (Rle_dec (255 / 255) 0.03928); [lra|].
  replace ((255 / 255 + 0.055) / 1.055) with 1 by lra.
  rewrite Rpower_one. lra.
Qed.

Lemma luminance_text : 0 < luminanceOf (RGB 26 26 26) < 0.15.
Proof.
  unfold luminanceOf, getLuminance, linearize. simpl.
  destruct (Rle_dec (26 / 255) 0.03928); [lra|].
  assert (Hx : 0 < (26 / 255 + 0.055) / 1.055 < 1) by lra.
  pose proof (Rpower_below _ Hx) as [Hp Hq].
  assert ((26 / 255 + 0.055) / 1.055 < 0.15) by lra.
  lra.
Qed.

Lemma ratio_text_on_white : 4.5 <= getContrastRatio (RGB 26 26 26) (RGB 255 255 255).
Proof.
  rewrite getContrastRatio_eq, luminance_white.
  pose proof luminance_text as [Hp Hq].
  rewrite Rmax_right, Rmin_left by lra.
  apply Rmult_le_reg_r with (r := luminanceOf (RGB 26 26 26) + 0.05); [lra|].
  unfold Rdiv. rewrite Rmult_assoc, Rinv_l by lra. lra.
Qed.

End Contrast.

(** C5.  [getLuminance] is the weighted sum (0.2126, 0.7152, 0.0722) of
    the piecewise gamma transform of the channels divided by 255, and the
    ratio is the lighter luminance plus 0.05 over the darker plus 0.05.
    The pair #1a1a1a on #ffffff parses to (26,26,26) and (255,255,255), its
    ratio is at least 4.5, and the text contrast test case passes on a
    variables sheet with these two declarations.  The ratio is a function
    of the hex pair, so computing it again gives the same value. *)
Theorem contrast_text_background :
  (forall c : rgb, luminanceOf c = relativeLuminance c)
  /\ (forall c1 c2 : rgb,
        getContrastRatio c1 c2 =
        ((Rmax (relativeLuminance c1) (relativeLuminance c2) + 0.05)
         / (Rmin (relativeLuminance c1) (relativeLuminance c2) + 0.05))%R)
  /\ contrastOfHex "#1a1a1a" "#ffffff"
     = Some (getContrastRatio (RGB 26 26 26) (RGB 255 255 255))
  /\ (4.5 <= getContrastRatio (RGB 26 26 26) (RGB 255 255 255))%R
  /\ textContrastTest {[ "css/variables.css" := variablesSheet ]} = Passed.
Proof.
  split; [reflexivity|]. split; [reflexivity|].
  assert (Ht : hexToRgb "#1a1a1a" = Some (RGB 26 26 26)) by (vm_compute; reflexivity).
  assert (Hb : hexToRgb "#ffffff" = Some (RGB 255 255 255)) by (vm_compute; reflexivity).
  split; [unfold contrastOfHex; now rewrite Ht, Hb|].
  split; [exact ratio_text_on_white|].
  unfold textContrastTest.
  rewrite (guarded_read _ _ variablesSheet) by apply lookup_singleton_eq.
  assert (Hvt : colorVar variablesSheet "text" = Some (Some (RGB 26 26 26)))
    by (vm_compute; reflexivity).
  assert (Hvb : colorVar variablesSheet "background" = Some (Some (RGB 255 255 255)))
    by (vm_compute; reflexivity).
  rewrite Hvt, Hvb. unfold expectAtLeast.
  destruct (Rle_dec 4.5 _) as [|Hn]; [reflexivity|].
  exfalso. apply Hn, ratio_text_on_white.
Qed.

(** C10.  For two RGB colours the contrast ratio does not depend on the
    order of the arguments, and it is at least 1. *)
Theorem contrast_ratio_symmetric_ge_1 (c1 c2 : rgb) :
  isRgb c1 -> isRgb c2 ->
  getContrastRatio c1 c2 = getContrastRatio c2 c1
  /\ (1 <= getContrastRatio c1 c2)%R.
Proof.
  intros H1 H2. rewrite !getContrastRatio_eq. split.
  - now rewrite Rmax_comm, Rmin_comm.
  - pose proof (luminance_nonneg _ H1) as Hl1.
    pose proof (luminance_nonneg _ H2) as Hl2.
    pose proof (Rmin_Rgt_r (luminanceOf c1) (luminanceOf c2) (-0.05)%R) as Hmin.
    pose proof (Rmax_l (luminanceOf c1) (luminanceOf c2)).
    pose proof (Rmin_l (luminanceOf c1) (luminanceOf c2)).
    assert (Hpos : (0 < Rmin (luminanceOf c1) (luminanceOf c2) + 0.05)%R).
    { assert (Rmin (luminanceOf c1) (luminanceOf c2) > -0.05)%R
        by (apply Hmin; split; lra). lra. }
    apply Rmult_le_reg_r with (r := (Rmin (luminanceOf c1) (luminanceOf c2) + 0.05)%R);
      [assumption|].
    unfold Rdiv. rewrite Rmult_assoc, Rinv_l by lra. lra.
Qed.

Lemma contrast_ratio_symmetric_ge_1_witness :
  getContrastRatio (RGB 26 26 26) (RGB 255 255 255)
  = getContrastRatio (RGB 255 255 255) (RGB 26 26 26)
  /\ (1 <= getContrastRatio (RGB 26 26 26) (RGB 255 255 255))%R.
Proof.
  apply (contrast_ratio_symmetric_ge_1 (RGB 26 26 26) (RGB 255 255 255));
    unfold isRgb; simpl; lia.
Defined.

(** ** Missing files *)

(** C3, counterexample.  The publication test cases on a checkout without files: the two
    guarded ones throw their own error, the unguarded read throws the
    error of the file system; none of them passes. *)
Lemma missing_publications_raise :
  emptyCheckout !! "publications.html" = None
  /\ publicationClassesTest emptyCheckout [] = Threw "publications.html not found"
  /\ publicationFieldsTest emptyCheckout [] = Threw "publications.html not found"
  /\ semanticArticleTest emptyCheckout = Threw "ENOENT: no such file or directory".
Proof. repeat split; reflexivity. Qed.

(** C3, as amended.  The link, heading, image, resource and contrast
    checks skip a file that does not exist and pass; the publication
    checks of the styling and publications suites raise an error when
    publications.html does not exist. *)
Theorem missing_file_policy
  (fs : gmap string string) (filename : string) (draws : list nat) :
  let missing := delete filename fs in
  let noSheet := delete "css/variables.css" fs in
  let noPublications := delete "publications.html" fs in
  targetBlankProperty missing filename = Passed
  /\ relProperty missing filename = Passed
  /\ headingFileCheck missing filename = Passed
  /\ altPresentProperty missing filename = Passed
  /\ altNonEmptyFileCheck missing filename = Passed
  /\ altDescriptiveFileCheck missing filename = Passed
  /\ altDecorativeFileCheck missing filename = Passed
  /\ requestCountProperty missing filename = Passed
  /\ duplicateFileCheck missing filename = Passed
  /\ textContrastTest noSheet = Passed
  /\ publicationClassesTest noPublications draws = Threw "publications.html not found"
  /\ publicationFieldsTest noPublications draws = Threw "publications.html not found"
  /\ semanticArticleTest noPublications = Threw "ENOENT: no such file or directory".
Proof.
  intros missing noSheet noPublications.
  assert (Hm : missing !! filename = None) by apply lookup_delete_eq.
  assert (Hs : noSheet !! "css/variables.css" = None) by apply lookup_delete_eq.
  assert (Hp : noPublications !! "publications.html" = None) by apply lookup_delete_eq.
  unfold targetBlankProperty, relProperty, headingFileCheck, altPresentProperty,
    altNonEmptyFileCheck, altDescriptiveFileCheck, altDecorativeFileCheck,
    requestCountProperty, duplicateFileCheck, textContrastTest,
    publicationClassesTest, publicationFieldsTest, semanticArticleTest.
  cbv zeta.
  rewrite !(guarded_skip _ _ _ _ Hm), (guarded_skip _ _ _ _ Hs), !(guarded_skip _ _ _ _ Hp).
  unfold readFileSync. rewrite Hp.
  repeat split; reflexivity.
Qed.

(** ** The vendor task *)

Section Vendor.
Import Gulp.

Lemma perform_app (ops1 ops2 : list op) (t : gmap path fsnode) :
  perform (ops1 ++ ops2) t
  = if (perform ops1 t).2 then perform ops2 (perform ops1 t).1 else perform ops1 t.
Proof.
  revert t. induction ops1 as [|o ops1 IH]; intros t; [reflexivity|].
  cbn [app perform]. destruct (apply t o) as [t1 [|]]; cbn [fst snd]; [apply IH|reflexivity].
Qed.

Lemma run_app (ops1 ops2 : list op) (t : gmap path fsnode) :
  completes ops1 t = true -> run (ops1 ++ ops2) t = run ops2 (run ops1 t).
Proof. unfold completes, run. intros H. now rewrite perform_app, H. Qed.

Lemma completes_app (ops1 ops2 : list op) (t : gmap path fsnode) :
  completes (ops1 ++ ops2) t = completes ops1 t && completes ops2 (run ops1 t).
Proof.
  unfold completes, run. rewrite perform_app.
  destruct (perform ops1 t) as [t1 [|]]; reflexivity.
Qed.

Lemma cleanVendor_completes (t : gmap path fsnode) : completes (cleanVendor t) t = true.
Proof. unfold cleanVendor. now destruct (existsSync t jqueryPath). Qed.

(** What every step keeps, the build keeps, whether it ends or aborts. *)
Lemma run_invariant (P : gmap path fsnode -> Prop) (ops : list op)
  (t : gmap path fsnode) :
  (forall o s, In o ops -> P s -> P (apply s o).1) -> P t -> P (run ops t).
Proof.
  unfold run. revert t. induction ops as [|o ops IH]; intros t Hstep Ht; [exact Ht|].
  cbn [perform]. pose proof (Hstep o t (or_introl eq_refl) Ht) as Ho.
  destruct (apply t o) as [t1 [|]]; cbn [fst snd] in *; [|exact Ho].
  apply IH; [|exact Ho]. intros o' s Hin. apply Hstep. now right.
Qed.

Lemma mkdir_other (t : gmap path fsnode) (d q : path) :
  d <> q -> (mkdir t d).1 !! q = t !! q.
Proof.
  intros Hq. unfold mkdir. destruct (t !! d) as [[c|]|]; try reflexivity.
  cbn [fst]. now apply lookup_insert_ne.
Qed.

Lemma mkdir_keep (t : gmap path fsnode) (d q : path) (n : fsnode) :
  t !! q = Some n -> (mkdir t d).1 !! q = Some n.
Proof.
  intros Hq. destruct (decide (d = q)) as [->|Hne]; [|now rewrite mkdir_other].
  unfold mkdir. rewrite Hq. now destruct n.
Qed.

Lemma mkdirp_other (ds : list path) (t : gmap path fsnode) (q : path) :
  ¬ In q ds -> (mkdirp ds t).1 !! q = t !! q.
Proof.
  revert t. induction ds as [|d ds IH]; intros t Hq; [reflexivity|].
  cbn [mkdirp]. assert (Hd : d <> q) by (intros ->; apply Hq; now left).
  pose proof (mkdir_other t d q Hd) as Hm.
  destruct (mkdir t d) as [t1 [|]]; cbn [fst snd] in *; [|exact Hm].
  rewrite IH; [exact Hm|]. intros H. apply Hq. now right.
Qed.

Lemma mkdirp_keep (ds : list path) (t : gmap path fsnode) (q : path) (n : fsnode) :
  t !! q = Some n -> (mkdirp ds t).1 !! q = Some n.
Proof.
  revert t. induction ds as [|d ds IH]; intros t Hq; [exact Hq|].
  cbn [mkdirp]. pose proof (mkdir_keep t d q n Hq) as Hm.
  destruct (mkdir t d) as [t1 [|]]; cbn [fst snd] in *; [|exact Hm].
  now apply IH.
Qed.

Lemma write_other (t : gmap path fsnode) (p q : path) (n : fsnode) :
  p <> q -> (write t p n).1 !! q = t !! q.
Proof.
  intros Hq. unfold write.
  destruct n as [c|], (t !! p) as [[c'|]|]; cbn [fst]; try reflexivity;
    now apply lookup_insert_ne.
Qed.

Lemma put_other (t : gmap path fsnode) (k q : path) (n : fsnode) :
  q <> k -> ¬ In q (ancestors k) -> (apply t (Put k n)).1 !! q = t !! q.
Proof.
  intros Hk Hd. cbn [apply]. pose proof (mkdirp_other (ancestors k) t q Hd) as Hm.
  destruct (mkdirp (ancestors k) t) as [t1 [|]]; cbn [fst snd] in *; [|exact Hm].
  rewrite write_other by congruence. exact Hm.
Qed.

Lemma absent_rmSync (t : gmap path fsnode) (p : path) : absent p (rmSync t p).
Proof.
  intros q Hq. unfold rmSync. apply map_lookup_filter_None. right.
  intros n _ Hn. now apply Hn.
Qed.

(** No path at or above an entry of [vendor/bootstrap] lies in
    [vendor/jquery]. *)
Lemma jquery_not_prefix (rel : path) (n : nat) :
  ¬ jqueryPath `prefix_of` take n (vendorBootstrap ++ rel).
Proof.
  unfold jqueryPath, vendorBootstrap. intros [k Hk].
  destruct n as [|[|n]]; simpl in Hk; discriminate.
Qed.

Lemma ancestors_prefix (k d : path) :
  In d (ancestors k) -> exists j, d = take j k /\ (1 <= j < List.length k)%nat.
Proof.
  unfold ancestors. intros H. apply in_map_iff in H as (j & <- & Hj).
  apply in_seq in Hj. exists j. split; [reflexivity|lia].
Qed.

Lemma absent_put (t : gmap path fsnode) (rel : path) (n : fsnode) :
  absent jqueryPath t ->
  absent jqueryPath (apply t (Put (vendorBootstrap ++ rel) n)).1.
Proof.
  intros Ht q Hq. rewrite put_other; [now apply Ht| |].
  - intros ->.
    pose proof (jquery_not_prefix rel (List.length (vendorBootstrap ++ rel))) as H.
    rewrite firstn_all in H. contradiction.
  - intros Hd. apply ancestors_prefix in Hd as (j & -> & _).
    now apply (jquery_not_prefix rel j).
Qed.

Lemma absent_copies (ops : list op) (t : gmap path fsnode) :
  Forall bootstrapCopy ops -> absent jqueryPath t -> absent jqueryPath (run ops t).
Proof.
  intros Hops. apply run_invariant. intros o s Hin Hs.
  rewrite List.Forall_forall in Hops. destruct (Hops o Hin) as (rel & n & -> & _).
  now apply absent_put.
Qed.

Lemma selected_rel (p rel : path) :
  selected p = Some rel -> rel <> [] /\ excludedVariant rel = false.
Proof.
  unfold selected. destruct (stripPrefix bootstrapDist p) as [[|seg rel']|]; try discriminate.
  destruct (existsb hidden (seg :: rel')) eqn:Hh; [discriminate|].
  destruct (excludedVariant (seg :: rel')) eqn:He; [discriminate|].
  simpl. intros [= <-]. split; [discriminate|assumption].
Qed.

Lemma vendor_copies (t : gmap path fsnode) : Forall bootstrapCopy (vendor t).
Proof.
  unfold vendor. apply List.Forall_forall. intros o Ho.
  apply in_flat_map in Ho as ([p n] & _ & Ho). simpl in Ho.
  destruct (selected p) as [rel|] eqn:Hsel; [|destruct Ho].
  destruct Ho as [<-|[]]. exists rel, n. split; [reflexivity|].
  now apply (selected_rel p).
Qed.

(** In a closed tree a path that does not exist has nothing below it. *)
Lemma closed_absent (t : gmap path fsnode) (p : path) :
  closed t = true -> p <> [] -> existsSync t p = false -> absent p t.
Proof.
  intros Hc Hp Hex q [k ->].
  destruct (_ !! _) as [n|] eqn:Hq; [exfalso|reflexivity].
  unfold closed in Hc. rewrite forallb_forall in Hc.
  assert (Hin : In (p ++ k, n) (map_to_list t))
    by now apply list_elem_of_In, elem_of_map_to_list.
  specialize (Hc _ Hin). simpl in Hc. rewrite forallb_forall in Hc.
  destruct k as [|x k].
  - rewrite app_nil_r in Hq. unfold existsSync in Hex.
    apply bool_decide_eq_false in Hex. apply Hex. rewrite Hq. eauto.
  - assert (Hanc : In p (ancestors (p ++ x :: k))).
    { unfold ancestors. apply in_map_iff. exists (List.length p). split.
      - now rewrite firstn_app, firstn_all, Nat.sub_diag, app_nil_r.
      - apply in_seq. rewrite length_app. simpl.
        destruct p; [contradiction|]. simpl. lia. }
    rewrite (Hc _ Hanc) in Hex. discriminate.
Qed.

Lemma absent_after_clean (t : gmap path fsnode) :
  closed t = true -> absent jqueryPath (run (cleanVendor t) t).
Proof.
  intros Hc. unfold cleanVendor. destruct (existsSync t jqueryPath) eqn:Hex; simpl.
  - apply absent_rmSync.
  - apply closed_absent; [assumption|discriminate|assumption].
Qed.

End Vendor.

(** C7.  The default task is the vendor task, and the vendor task is the
    cleanup followed by the copy: its operations are those of the cleanup,
    at most the removal of vendor/jquery, and then those of the copy, each
    of which writes below vendor/bootstrap an entry that is not a
    bootstrap-grid or bootstrap-reboot variant.  On a closed tree
    vendor/jquery is gone when the copy starts and stays gone after each
    of its writes. *)
Theorem vendor_cleans_before_copy (t : gmap Gulp.path Gulp.fsnode) :
  Gulp.closed t = true ->
  Gulp.exports_default = Gulp.exports_vendor
  /\ Gulp.exports_vendor t
     = Gulp.cleanVendor t ++ Gulp.vendor (Gulp.run (Gulp.cleanVendor t) t)
  /\ (Gulp.cleanVendor t = [] \/ Gulp.cleanVendor t = [Gulp.Remove Gulp.jqueryPath])
  /\ Forall bootstrapCopy (Gulp.vendor (Gulp.run (Gulp.cleanVendor t) t))
  /\ forall k : nat,
       Gulp.absent Gulp.jqueryPath
         (Gulp.run (Gulp.cleanVendor t
                    ++ take k (Gulp.vendor (Gulp.run (Gulp.cleanVendor t) t))) t).
Proof.
  intros Hc. split; [reflexivity|]. split.
  { unfold Gulp.exports_vendor. simpl. now rewrite app_nil_r. }
  split.
  { unfold Gulp.cleanVendor. destruct (Gulp.existsSync t Gulp.jqueryPath); auto. }
  split; [apply vendor_copies|].
  intros k. rewrite run_app by apply cleanVendor_completes. apply absent_copies.
  - apply List.Forall_forall. intros o Ho.
    pose proof (vendor_copies (Gulp.run (Gulp.cleanVendor t) t)) as Hall.
    rewrite List.Forall_forall in Hall. apply Hall.
    apply list_elem_of_In. apply list_elem_of_In in Ho.
    eapply subseteq_take, Ho.
  - now apply absent_after_clean.
Qed.

Lemma vendor_cleans_before_copy_witness :
  Gulp.exports_vendor staleTree
  = Gulp.cleanVendor staleTree
    ++ Gulp.vendor (Gulp.run (Gulp.cleanVendor staleTree) staleTree)
  /\ Gulp.absent Gulp.jqueryPath (Gulp.run (Gulp.exports_vendor staleTree) staleTree).
Proof.
  pose proof (vendor_cleans_before_copy staleTree eq_refl) as (_ & Heq & _ & _ & Habs).
  split; [exact Heq|].
  rewrite Heq.
  specialize (Habs (List.length (Gulp.vendor (Gulp.run (Gulp.cleanVendor staleTree) staleTree)))).
  now rewrite firstn_all in Habs.
Defined.

(** ** Navigation behaviour *)

Section Navigation.
Import Nav.

Lemma contains_add (classList : list string) (c : string) :
  contains (add classList c) c = true.
Proof.
  unfold add. destruct (contains classList c) eqn:Hc; [assumption|].
  unfold contains. rewrite existsb_app. simpl. rewrite String.eqb_refl.
  now rewrite orb_true_r.
Qed.

Lemma contains_remove (classList : list string) (c : string) :
  contains (remove classList c) c = false.
Proof.
  unfold contains, remove. induction classList as [|x l IH]; simpl; [reflexivity|].
  destruct (String.eqb c x) eqn:Hx; simpl; [assumption|]. now rewrite Hx.
Qed.

(** One run of the scroll callback sets the class from the offset and
    touches nothing else. *)
Lemma updateNavbarOnScroll_spec (p : page) (classList : list string) :
  navbar p = Some classList ->
  exists classList',
    updateNavbarOnScroll p
    = Page (Some classList') (scrollY p) (loading p) (scrollListeners p)
           (loadedListeners p)
    /\ (contains classList' "navbar-scrolled" = true <-> (50 < scrollY p)%Q).
Proof.
  intros Hn. unfold updateNavbarOnScroll. rewrite Hn.
  destruct (Qlt_le_dec 50 (scrollY p)) as [Hlt|Hle].
  - eexists. split; [reflexivity|]. rewrite contains_add. tauto.
  - eexists. split; [reflexivity|]. rewrite contains_remove.
    split; [discriminate|]. intros Hlt. exfalso. exact (Qle_not_lt _ _ Hle Hlt).
Qed.

Lemma initAll_invariant (p : page) :
  loading p = false -> scrollListeners p = [] -> loadedListeners p = [] ->
  navInvariant (initAll p).
Proof.
  intros Hl Hs Hd. unfold initAll, initNavbarScrollBehavior.
  destruct (navbar p) as [classList|] eqn:Hn.
  - destruct (updateNavbarOnScroll_spec p classList Hn) as (cl' & -> & Hcl).
    split; simpl; [congruence|]. intros _. rewrite Hs, Hd. auto.
  - split; [congruence|]. intros _. now rewrite Hn.
Qed.

Lemma script_invariant (p0 : page) :
  scrollListeners p0 = [] -> loadedListeners p0 = [] -> navInvariant (script p0).
Proof.
  intros Hs Hd. unfold script. destruct (loading p0) eqn:Hl.
  - split; simpl; [|congruence]. intros _. now rewrite Hd.
  - now apply initAll_invariant.
Qed.

Lemma fireScroll_invariant (p : page) (y : Q) :
  navInvariant p -> navInvariant (fireScroll y p).
Proof.
  intros [Hload Hdone]. unfold fireScroll.
  destruct (loading p) eqn:Hl.
  - destruct (Hload eq_refl) as [Hs Hd]. rewrite Hs. simpl.
    split; simpl; [auto|congruence].
  - destruct (Hdone eq_refl) as [Hd Hnav].
    destruct (navbar p) as [classList|] eqn:Hn.
    + destruct Hnav as [Hs _]. rewrite Hs. simpl.
      destruct (updateNavbarOnScroll_spec
                  (Page (Some classList) y false [UpdateNavbarOnScroll] (loadedListeners p))
                  classList eq_refl) as (cl' & -> & Hcl).
      split; simpl; [congruence|]. auto.
    + rewrite Hnav. simpl. split; simpl; [congruence|]. auto.
Qed.

Lemma fireDOMContentLoaded_invariant (p : page) :
  navInvariant p -> loading p = true -> navInvariant (fireDOMContentLoaded p).
Proof.
  intros [Hload _] Hl. destruct (Hload Hl) as [Hs Hd].
  unfold fireDOMContentLoaded. rewrite Hd. simpl.
  now apply initAll_invariant.
Qed.

Lemma reachable_invariant (p : page) : reachable p -> navInvariant p.
Proof.
  induction 1 as [p0 Hs Hd|p y _ IH|p _ IH Hl].
  - now apply script_invariant.
  - now apply fireScroll_invariant.
  - now apply fireDOMContentLoaded_invariant.
Qed.

End Navigation.

(** C9.  In every state the page reaches once the initialisation has run
    (at once, or on DOMContentLoaded), and so after every scroll event
    from then on, the navbar carries the class navbar-scrolled exactly
    when the vertical scroll offset is greater than 50; at offset 50 or
    below the class is absent. *)
Theorem navbar_scrolled_iff_offset_above_50
  (p : Nav.page) (classList : list string) :
  Nav.reachable p -> Nav.loading p = false -> Nav.navbar p = Some classList ->
  Nav.contains classList "navbar-scrolled" = true <-> (50 < Nav.scrollY p)%Q.
Proof.
  intros Hr Hl Hn. destruct (reachable_invariant p Hr) as [_ Hdone].
  destruct (Hdone Hl) as [_ Hnav]. rewrite Hn in Hnav. apply Hnav.
Qed.

Lemma navbar_scrolled_iff_offset_above_50_witness :
  Nav.contains ["navbar"; "navbar-expand-lg"; "fixed-top"; "navbar-scrolled"]
               "navbar-scrolled" = true
  <-> (50 < 80)%Q.
Proof.
  apply (navbar_scrolled_iff_offset_above_50
           (Nav.fireScroll 80 (Nav.fireDOMContentLoaded (Nav.script freshPage)))).
  - apply Nav.reach_scroll, Nav.reach_loaded; [|reflexivity].
    apply Nav.reach_script; reflexivity.
  - reflexivity.
  - reflexivity.
Defined.
Example sample_checks :
  linkCheck sampleSite "index.html" = true
  /\ headingFileCheck sampleSite "index.html" = Passed
  /\ altCheck sampleSite "index.html" = true
  /\ resourceCheck sampleSite "index.html" = true
  /\ extractHeadings samplePage = [Some 1; Some 2; Some 3; Some 2]%Z
  /\ extractExternalResources samplePage
     = ["https://fonts.example.org/inter.css"; "https://cdn.example.org/le.jpg"].
Proof. vm_compute. repeat split; reflexivity. Qed.

(** * Further properties of the embedded code *)

(** ** The matcher: what a match consumes *)

Lemma append_cons (c : ascii) (a b : string) :
  String c a +:+ b = String c (a +:+ b).
Proof. reflexivity. Qed.

Lemma append_nil_r (s : string) : s +:+ "" = s.
Proof. induction s as [|c s IH]; [reflexivity|]. now rewrite append_cons, IH. Qed.

Lemma append_assoc (a b c : string) : (a +:+ b) +:+ c = a +:+ (b +:+ c).
Proof. induction a as [|x a IH]; [reflexivity|]. now rewrite !append_cons, IH. Qed.

Lemma append_length (a b : string) :
  String.length (a +:+ b) = (String.length a + String.length b)%nat.
Proof.
  induction a as [|x a IH]; [reflexivity|]. rewrite append_cons. simpl. now rewrite IH.
Qed.

Lemma extends_refl (st : mstate) : extends st "" st.
Proof.
  unfold extends. rewrite append_nil_r. repeat split.
  destruct (cur st); simpl; [|reflexivity]. now rewrite append_nil_r.
Qed.

Lemma extends_push (st : mstate) (c : ascii) : extends st (String c "") (push c st).
Proof. unfold extends, push, snoc. simpl. repeat split. Qed.

Lemma extends_trans (st st1 st2 : mstate) (w1 w2 : string) :
  extends st w1 st1 -> extends st1 w2 st2 -> extends st (w1 +:+ w2) st2.
Proof.
  intros (Hw1 & Hg1 & Hc1) (Hw2 & Hg2 & Hc2). unfold extends.
  rewrite Hw2, Hw1, Hg2, Hg1, Hc2, Hc1, append_assoc. repeat split.
  destruct (cur st); simpl; [|reflexivity]. now rewrite append_assoc.
Qed.

Lemma pushAll_extends (w : string) (st : mstate) : extends st w (pushAll w st).
Proof.
  revert st. induction w as [|c w IH]; intros st; simpl; [apply extends_refl|].
  exact (extends_trans _ _ _ _ _ (extends_push st c) (IH (push c st))).
Qed.

Lemma pushAll_whole (w : string) (st : mstate) :
  whole (pushAll w st) = whole st +:+ w.
Proof. apply pushAll_extends. Qed.

Lemma pushAll_groups (w : string) (st : mstate) :
  groups (pushAll w st) = groups st.
Proof. apply pushAll_extends. Qed.

Lemma pushAll_cur (w : string) (st : mstate) :
  cur (pushAll w st) = option_map (fun g => g +:+ w) (cur st).
Proof. apply pushAll_extends. Qed.

Lemma pushAll_app (w1 w2 : string) (st : mstate) :
  pushAll (w1 +:+ w2) st = pushAll w2 (pushAll w1 st).
Proof.
  revert st. induction w1 as [|c w1 IH]; intros st; [reflexivity|].
  rewrite append_cons. simpl. apply IH.
Qed.

(** A greedy repetition hands to its continuation the state after a run of
    characters of the class. *)
Lemma greedy_inv (p : ascii -> bool) (k : cont) (st : mstate) (s : string)
  (res : mstate * string) :
  greedy p k st s = Some res ->
  exists w s' : string,
    s = w +:+ s' /\ allChars p w = true /\ k (pushAll w st) s' = Some res.
Proof.
  revert st. induction s as [|c s IH]; intros st; simpl.
  - intros Hk. exists "", "". repeat split. assumption.
  - destruct (p c) eqn:Hp.
    + destruct (greedy p k (push c st) s) as [r|] eqn:Hg.
      * intros [= <-]. destruct (IH _ Hg) as (w & s' & -> & Hall & Hk).
        exists (String c w), s'. simpl. rewrite Hp, Hall. repeat split. assumption.
      * intros Hk. exists "", (String c s). repeat split. assumption.
    + intros Hk. exists "", (String c s). repeat split. assumption.
Qed.

Lemma lazy_inv (p : ascii -> bool) (k : cont) (st : mstate) (s : string)
  (res : mstate * string) :
  lazy p k st s = Some res ->
  exists w s' : string,
    s = w +:+ s' /\ allChars p w = true /\ k (pushAll w st) s' = Some res.
Proof.
  revert st. induction s as [|c s IH]; intros st; simpl.
  - destruct (k st "") as [r|] eqn:Hk; [|discriminate].
    intros [= <-]. exists "", "". repeat split. assumption.
  - destruct (k st (String c s)) as [r|] eqn:Hk.
    + intros [= <-]. exists "", (String c s). repeat split. assumption.
    + destruct (p c) eqn:Hp; [|discriminate].
      intros Hl. destruct (IH _ Hl) as (w & s' & -> & Hall & Hk').
      exists (String c w), s'. simpl. rewrite Hp, Hall. repeat split. assumption.
Qed.

(** A greedy repetition takes the whole run when the continuation accepts
    what follows it. *)
Lemma greedy_max (p : ascii -> bool) (k : cont) (st : mstate) (w s : string)
  (res : mstate * string) :
  allChars p w = true -> stopsAt p s = true -> k (pushAll w st) s = Some res ->
  greedy p k st (w +:+ s) = Some res.
Proof.
  revert st. induction w as [|c w IH]; intros st Hall Hstop Hk.
  - change ("" +:+ s) with s. simpl in Hk.
    destruct s as [|x s]; simpl; [assumption|].
    simpl in Hstop. apply negb_true_iff in Hstop. now rewrite Hstop.
  - rewrite append_cons. simpl in Hall. apply andb_true_iff in Hall as [Hc Hall].
    simpl. rewrite Hc. now rewrite (IH (push c st) Hall Hstop Hk).
Qed.

(** A literal matches a text of its own shape, and only such a text. *)
Lemma lit_inv (ic : bool) (w : string) (r : regex) (st : mstate) (s : string)
  (res : mstate * string) :
  match_here ic (lit w ++ r) st s = Some res ->
  exists w' s' : string,
    s = w' +:+ s' /\ litOk ic w w' = true
    /\ match_here ic r (pushAll w' st) s' = Some res.
Proof.
  unfold lit. revert st s. induction w as [|c w IH]; intros st s; simpl.
  - intros H. exists "", s. repeat split. assumption.
  - destruct s as [|x s]; [discriminate|].
    destruct (cset_match ic (chr c) x) eqn:Hc; [|discriminate].
    intros H. destruct (IH _ _ H) as (w' & s' & -> & Hok & Hk).
    exists (String x w'), s'. simpl. rewrite Hc, Hok. repeat split. assumption.
Qed.

Lemma lit_fwd (ic : bool) (w w' : string) (r : regex) (st : mstate) (s : string) :
  litOk ic w w' = true ->
  match_here ic (lit w ++ r) st (w' +:+ s) = match_here ic r (pushAll w' st) s.
Proof.
  unfold lit. revert w' st. induction w as [|c w IH]; intros [|x w'] st Hok;
    try discriminate; [reflexivity|].
  simpl in Hok. apply andb_true_iff in Hok as [Hc Hok].
  rewrite append_cons. simpl. rewrite Hc. apply IH, Hok.
Qed.

Lemma litOk_length (ic : bool) (w w' : string) :
  litOk ic w w' = true -> String.length w' = String.length w.
Proof.
  revert w'. induction w as [|c w IH]; intros [|x w'] H; try discriminate;
    [reflexivity|].
  simpl in H. apply andb_true_iff in H as [_ H]. simpl. now rewrite (IH _ H).
Qed.

Lemma greedy_consumes (p : ascii -> bool) (k : cont) :
  consumesInput k -> consumesInput (greedy p k).
Proof.
  intros Hk st s st' rest Hg.
  apply greedy_inv in Hg as (w & s' & -> & _ & Hk1).
  apply Hk in Hk1 as (w2 & -> & Hw2).
  exists (w +:+ w2). rewrite Hw2, pushAll_whole, !append_assoc. split; reflexivity.
Qed.

Lemma lazy_consumes (p : ascii -> bool) (k : cont) :
  consumesInput k -> consumesInput (lazy p k).
Proof.
  intros Hk st s st' rest Hg.
  apply lazy_inv in Hg as (w & s' & -> & _ & Hk1).
  apply Hk in Hk1 as (w2 & -> & Hw2).
  exists (w +:+ w2). rewrite Hw2, pushAll_whole, !append_assoc. split; reflexivity.
Qed.

Lemma push_consumes (k : cont) (c : ascii) (st : mstate) (s : string)
  (st' : mstate) (rest : string) :
  consumesInput k -> k (push c st) s = Some (st', rest) ->
  exists w : string, String c s = w +:+ rest /\ whole st' = whole st +:+ w.
Proof.
  intros Hk H. apply Hk in H as (w & -> & Hw).
  exists (String c w). split; [reflexivity|].
  rewrite Hw. unfold push, snoc. simpl. now rewrite append_assoc.
Qed.

(** The text of a match is the input that the match walked over. *)
Lemma match_here_consumes (ic : bool) (r : regex) : consumesInput (match_here ic r).
Proof.
  induction r as [|n r IH].
  - intros st s st' rest [= <- <-]. exists "". now rewrite append_nil_r.
  - destruct n as [cs q| | |].
    + destruct q; simpl.
      * intros st [|c s] st' rest; [discriminate|].
        destruct (cset_match ic cs c); [|discriminate]. now apply push_consumes.
      * intros st [|c s] st' rest; [apply IH|].
        destruct (cset_match ic cs c); [|apply IH].
        destruct (match_here ic r (push c st) s) as [[st1 rest1]|] eqn:Hm.
        -- intros [= <- <-]. now apply (push_consumes _ _ _ _ _ _ IH).
        -- apply IH.
      * now apply greedy_consumes.
      * intros st [|c s] st' rest; [discriminate|].
        destruct (cset_match ic cs c); [|discriminate].
        apply push_consumes. now apply greedy_consumes.
      * now apply lazy_consumes.
    + intros st s st' rest H. simpl in H. apply IH in H as (w & -> & Hw).
      exists w. split; [reflexivity|exact Hw].
    + intros st s st' rest H. simpl in H. apply IH in H as (w & -> & Hw).
      exists w. split; [reflexivity|exact Hw].
    + intros st [|c s] st' rest H; [|discriminate]. simpl in H. now apply IH.
Qed.

(** Every match that the [g] loop reports is a piece of the text, matched
    where it stands. *)
Lemma exec_loop_occurs (ic : bool) (r : regex) (s : string) (skip : nat) (m : mstate) :
  In m (exec_loop ic r skip s) ->
  exists before after : string,
    s = before +:+ whole m +:+ after
    /\ match_here ic r init (whole m +:+ after) = Some (m, after).
Proof.
  revert skip. induction s as [|c s IH]; intros skip; simpl; [intros []|].
  assert (Hlater : forall k, In m (exec_loop ic r k s) ->
            exists before after : string,
              String c s = before +:+ whole m +:+ after
              /\ match_here ic r init (whole m +:+ after) = Some (m, after)).
  { intros k Hin. destruct (IH _ Hin) as (before & after & -> & Hm).
    exists (String c before), after. split; [reflexivity|assumption]. }
  destruct skip as [|k]; [|apply Hlater].
  destruct (match_here ic r init (String c s)) as [[st rest]|] eqn:Hm; [|apply Hlater].
  intros [<-|Hin]; [|eapply Hlater, Hin].
  destruct (match_here_consumes ic r _ _ _ _ Hm) as (w & Hs & Hw).
  change (whole st = w) in Hw. subst w. exists "", rest.
  rewrite <- Hs. split; [reflexivity|assumption].
Qed.

(** The first match of a search is a match at some position, and a match
    at some position makes the search succeed. *)
Lemma exec_Some (ic : bool) (r : regex) (s : string) (m : mstate) :
  exec ic r s = Some m ->
  exists before after rest : string,
    s = before +:+ after /\ match_here ic r init after = Some (m, rest).
Proof.
  induction s as [|c s IH]; simpl.
  - destruct (match_here ic r init "") as [[st rest]|] eqn:Hm; [|discriminate].
    intros [= <-]. exists "", "", rest. split; [reflexivity|assumption].
  - destruct (match_here ic r init (String c s)) as [[st rest]|] eqn:Hm.
    + intros [= <-]. exists "", (String c s), rest. split; [reflexivity|assumption].
    + intros H. destruct (IH H) as (before & after & rest & -> & Hm').
      exists (String c before), after, rest. split; [reflexivity|assumption].
Qed.

Lemma test_suffix (ic : bool) (r : regex) (before after : string)
  (res : mstate * string) :
  match_here ic r init after = Some res -> test ic r (before +:+ after) = true.
Proof.
  intros Hm. unfold test.
  assert (H : exists m, exec ic r (before +:+ after) = Some m).
  { induction before as [|c before IH].
    - change ("" +:+ after) with after. destruct res as [m rest]. exists m.
      destruct after; simpl; now rewrite Hm.
    - rewrite append_cons. simpl.
      destruct (match_here ic r init (String c (before +:+ after))) as [[st rest]|];
        [eauto|exact IH]. }
  destruct H as [m ->]. reflexivity.
Qed.

Lemma test_true (ic : bool) (r : regex) (s : string) :
  test ic r s = true ->
  exists before after res,
    s = before +:+ after /\ match_here ic r init after = Some res.
Proof.
  unfold test. destruct (exec ic r s) as [m|] eqn:He; [|discriminate].
  intros _. destruct (exec_Some _ _ _ _ He) as (before & after & rest & Hs & Hm).
  eauto 6.
Qed.

(** ** [hexToRgb] *)

Lemma hash_only (c : ascii) : cset_match true (chr "#") c = true -> c = "#"%char.
Proof.
  destruct c as [[] [] [] [] [] [] [] []]; vm_compute; intros H;
    try discriminate; reflexivity.
Qed.

Lemma hex_digit_not_hash (c : ascii) :
  cset_match true hex_digit c = true -> cset_match true (chr "#") c = false.
Proof.
  destruct c as [[] [] [] [] [] [] [] []]; vm_compute; intros H;
    try discriminate; reflexivity.
Qed.

Lemma digit_value_hex (c : ascii) (d : Z) :
  digitValueIn 16 c = Some d -> cset_match true hex_digit c = true.
Proof.
  destruct c as [[] [] [] [] [] [] [] []]; vm_compute; intros H;
    try discriminate; reflexivity.
Qed.

(** The part of the regex after the optional hash sign matches exactly six
    characters. *)
Lemma hex_tail_six (st : mstate) (s rest : string) (m : mstate) :
  match_here true (tl hexRegex) st s = Some (m, rest) ->
  String.length s = 6%nat.
Proof.
  unfold hexRegex. cbn [tl].
  destruct s as [|c1 [|c2 [|c3 [|c4 [|c5 [|c6 s]]]]]];
    cbn [match_here open_group close_group push cur groups whole option_map snoc];
    try discriminate;
    repeat match goal with
           | |- context [if cset_match true hex_digit ?c then _ else _] =>
               destruct (cset_match true hex_digit c) eqn:?; try discriminate
           end;
    try discriminate.
  destruct s; [reflexivity|discriminate].
Qed.

(** X1.  Whatever [hexToRgb] returns is a colour with its three channels
    between 0 and 255: two hexadecimal digits never give more. *)
Theorem hexToRgb_channels (hex : string) (c : rgb) :
  hexToRgb hex = Some c -> isRgb c.
Proof.
  intros Hc. pose proof (hexToRgb_isRgb hex) as H.
  destruct (match_here true hexRegex init hex).
  - destruct H as (c' & Hc' & Hrgb). congruence.
  - congruence.
Qed.

Lemma hexToRgb_channels_witness : isRgb (RGB 33 37 41).
Proof. apply (hexToRgb_channels "#212529"). reflexivity. Defined.

(** X2.  [hexToRgb] returns a colour only for six characters, or for seven
    of which the first is the hash sign: the three-digit shorthand and any
    other length give [null]. *)
Theorem hexToRgb_length (hex : string) (c : rgb) :
  hexToRgb hex = Some c ->
  String.length hex = 6%nat
  \/ (String.length hex = 7%nat /\ Js.startsWith hex "#" = true).
Proof.
  unfold hexToRgb.
  destruct (match_here true hexRegex init hex) as [[m rest]|] eqn:Hm; [|discriminate].
  intros _.
  change hexRegex with (Atom (chr "#") Opt :: tl hexRegex) in Hm.
  cbn [match_here] in Hm.
  destruct hex as [|c0 s']; [left; eapply hex_tail_six, Hm|].
  destruct (cset_match true (chr "#") c0) eqn:Hhash;
    [|left; eapply hex_tail_six, Hm].
  destruct (match_here true (tl hexRegex) (push c0 init) s') as [res|] eqn:Hconsumed.
  - right. destruct res as [m' rest']. apply hex_tail_six in Hconsumed.
    apply hash_only in Hhash. subst c0. split; [|now destruct s'].
    cbn [String.length]. now rewrite Hconsumed.
  - left. eapply hex_tail_six, Hm.
Qed.

Lemma hexToRgb_length_witness :
  String.length "#1a1a1a" = 6%nat
  \/ (String.length "#1a1a1a" = 7%nat /\ Js.startsWith "#1a1a1a" "#" = true).
Proof.
  apply (hexToRgb_length "#1a1a1a" (RGB 26 26 26)). reflexivity.
Defined.

Lemma hex_tail_decode (st : mstate) (c1 c2 c3 c4 c5 c6 : ascii) :
  Forall (fun c => cset_match true hex_digit c = true) [c1; c2; c3; c4; c5; c6] ->
  exists m,
    match_here true (tl hexRegex) st
      (String c1 (String c2 (String c3 (String c4 (String c5 (String c6 ""))))))
    = Some (m, "")
    /\ groups m
       = groups st ++ [String c1 (String c2 ""); String c3 (String c4 "");
                       String c5 (String c6 "")].
Proof.
  intros H.
  repeat match goal with
         | H : Forall _ (_ :: _) |- _ => inversion H; subst; clear H
         end.
  unfold hexRegex. cbn [tl match_here].
  repeat match goal with
         | H : cset_match true hex_digit _ = true |- _ => rewrite H; clear H
         end.
  eexists. split; [reflexivity|]. simpl. rewrite <- !app_assoc. reflexivity.
Qed.

Lemma hex_pair_decode (c1 c2 : ascii) (d1 d2 : Z) :
  digitValueIn 16 c1 = Some d1 -> digitValueIn 16 c2 = Some d2 ->
  parseIntRadix (String c1 (String c2 "")) 16 = Some (16 * d1 + d2)%Z.
Proof.
  intros H1 H2. unfold parseIntRadix. cbn [leadingDigitsIn]. rewrite H1, H2.
  cbn [fold_left]. f_equal; lia.
Qed.

(** X3.  Six hexadecimal digits decode to the three channel values
    16 * high + low, with or without the leading hash sign. *)
Theorem hexToRgb_decodes (c1 c2 c3 c4 c5 c6 : ascii) (d1 d2 d3 d4 d5 d6 : Z) :
  digitValueIn 16 c1 = Some d1 -> digitValueIn 16 c2 = Some d2 ->
  digitValueIn 16 c3 = Some d3 -> digitValueIn 16 c4 = Some d4 ->
  digitValueIn 16 c5 = Some d5 -> digitValueIn 16 c6 = Some d6 ->
  let digits :=
    String c1 (String c2 (String c3 (String c4 (String c5 (String c6 ""))))) in
  let colour := RGB (16 * d1 + d2) (16 * d3 + d4) (16 * d5 + d6) in
  hexToRgb digits = Some colour /\ hexToRgb (String "#" digits) = Some colour.
Proof.
  intros H1 H2 H3 H4 H5 H6 digits colour.
  assert (Hhex : Forall (fun c => cset_match true hex_digit c = true)
                        [c1; c2; c3; c4; c5; c6]).
  { repeat constructor; eapply digit_value_hex; eassumption. }
  assert (Hdecode : forall m,
             groups m = [String c1 (String c2 ""); String c3 (String c4 "");
                         String c5 (String c6 "")] ->
             match parseIntRadix (group 1 m) 16, parseIntRadix (group 2 m) 16,
                   parseIntRadix (group 3 m) 16 with
             | Some r, Some g, Some b => Some (RGB r g b)
             | _, _, _ => None
             end = Some colour).
  { intros m Hg. unfold group. rewrite Hg. cbn [nth Nat.sub].
    rewrite (hex_pair_decode _ _ _ _ H1 H2), (hex_pair_decode _ _ _ _ H3 H4),
      (hex_pair_decode _ _ _ _ H5 H6). reflexivity. }
  split.
  - destruct (hex_tail_decode init _ _ _ _ _ _ Hhex) as (m & Hm & Hg).
    unfold hexToRgb.
    change hexRegex with (Atom (chr "#") Opt :: tl hexRegex).
    cbn [match_here]. unfold digits.
    rewrite (hex_digit_not_hash c1) by (eapply digit_value_hex; eassumption).
    rewrite Hm. now apply Hdecode.
  - destruct (hex_tail_decode (push "#" init) _ _ _ _ _ _ Hhex) as (m & Hm & Hg).
    unfold hexToRgb.
    change hexRegex with (Atom (chr "#") Opt :: tl hexRegex).
    cbn [match_here]. unfold digits.
    replace (cset_match true (chr "#") "#") with true by reflexivity.
    rewrite Hm. now apply Hdecode.
Qed.

Lemma hexToRgb_decodes_witness :
  hexToRgb "1A2b3c" = Some (RGB (16 * 1 + 10) (16 * 2 + 11) (16 * 3 + 12))
  /\ hexToRgb "#1A2b3c" = Some (RGB (16 * 1 + 10) (16 * 2 + 11) (16 * 3 + 12)).
Proof.
  apply (hexToRgb_decodes "1" "A" "2" "b" "3" "c" 1 10 2 11 3 12); reflexivity.
Defined.

(** ** Luminance and contrast ratio *)

Section ContrastBounds.
Local Open Scope R_scope.

Lemma linearize_le_1 (c : R) : 0 <= c <= 255 -> linearize c <= 1.
Proof.
  intros [Hlo Hhi]. unfold linearize.
  destruct (Rle_dec (c / 255) 0.03928) as [Hsmall|Hbig]; [lra|].
  assert (Hx : 0 < (c / 255 + 0.055) / 1.055 <= 1) by lra.
  destruct Hx as [Hpos [Hlt|Heq]].
  - pose proof (Rpower_below _ (conj Hpos Hlt)). lra.
  - rewrite Heq, Rpower_one. lra.
Qed.

Lemma luminance_le_1 (c : rgb) : isRgb c -> luminanceOf c <= 1.
Proof.
  intros ([Hr Hr'] & [Hg Hg'] & [Hb Hb']). unfold luminanceOf, getLuminance.
  apply IZR_le in Hr, Hr', Hg, Hg', Hb, Hb'.
  pose proof (linearize_le_1 _ (conj Hr Hr')).
  pose proof (linearize_le_1 _ (conj Hg Hg')).
  pose proof (linearize_le_1 _ (conj Hb Hb')). lra.
Qed.

Lemma luminance_black : luminanceOf (RGB 0 0 0) = 0.
Proof.
  unfold luminanceOf, getLuminance, linearize. simpl.
  destruct (Rle_dec (0 / 255) 0.03928); lra.
Qed.

End ContrastBounds.

(** X4.  The relative luminance of an RGB colour lies between 0 and 1;
    black has luminance 0 and white has luminance 1. *)
Theorem luminance_between_0_and_1 (c : rgb) :
  isRgb c ->
  (0 <= luminanceOf c <= 1)%R
  /\ luminanceOf (RGB 0 0 0) = 0%R
  /\ luminanceOf (RGB 255 255 255) = 1%R.
Proof.
  intros Hc. split; [split|split].
  - now apply luminance_nonneg.
  - now apply luminance_le_1.
  - apply luminance_black.
  - apply luminance_white.
Qed.

Lemma luminance_between_0_and_1_witness :
  (0 <= luminanceOf (RGB 26 26 26) <= 1)%R
  /\ luminanceOf (RGB 0 0 0) = 0%R
  /\ luminanceOf (RGB 255 255 255) = 1%R.
Proof.
  apply (luminance_between_0_and_1 (RGB 26 26 26)). unfold isRgb. simpl. lia.
Defined.

(** X5.  The contrast ratio of two RGB colours is at most 21, the ratio
    of black and white; a colour has ratio 1 with itself. *)
Theorem contrast_ratio_at_most_21 (c1 c2 : rgb) :
  isRgb c1 -> isRgb c2 ->
  (getContrastRatio c1 c2 <= 21)%R
  /\ getContrastRatio c1 c1 = 1%R
  /\ getContrastRatio (RGB 0 0 0) (RGB 255 255 255) = 21%R.
Proof.
  intros H1 H2.
  pose proof (luminance_nonneg _ H1) as Hl1. pose proof (luminance_le_1 _ H1) as Hu1.
  pose proof (luminance_nonneg _ H2) as Hl2. pose proof (luminance_le_1 _ H2) as Hu2.
  rewrite !getContrastRatio_eq. split; [|split].
  - assert (Hmax : (Rmax (luminanceOf c1) (luminanceOf c2) <= 1)%R)
      by (apply Rmax_lub; assumption).
    assert (Hmin : (0 <= Rmin (luminanceOf c1) (luminanceOf c2))%R)
      by (apply Rmin_glb; assumption).
    apply Rmult_le_reg_r with (r := (Rmin (luminanceOf c1) (luminanceOf c2) + 0.05)%R);
      [lra|].
    unfold Rdiv. rewrite Rmult_assoc, Rinv_l by lra. lra.
  - unfold Rmax, Rmin. destruct (Rle_dec (luminanceOf c1) (luminanceOf c1)); field; lra.
  - rewrite luminance_black, luminance_white.
    rewrite Rmax_right, Rmin_left by lra. lra.
Qed.

Lemma contrast_ratio_at_most_21_witness :
  (getContrastRatio (RGB 26 26 26) (RGB 255 255 255) <= 21)%R
  /\ getContrastRatio (RGB 26 26 26) (RGB 26 26 26) = 1%R
  /\ getContrastRatio (RGB 0 0 0) (RGB 255 255 255) = 21%R.
Proof.
  apply (contrast_ratio_at_most_21 (RGB 26 26 26) (RGB 255 255 255));
    unfold isRgb; simpl; lia.
Defined.

(** ** Colour declarations *)

Lemma six_hex_group (st : mstate) (s rest : string) (m : mstate) :
  match_here true
    [GOpen; Atom hex_digit One; Atom hex_digit One; Atom hex_digit One;
     Atom hex_digit One; Atom hex_digit One; Atom hex_digit One; GClose] st s
  = Some (m, rest) ->
  exists c1 c2 c3 c4 c5 c6 : ascii,
    Forall (fun c => cset_match true hex_digit c = true) [c1; c2; c3; c4; c5; c6]
    /\ groups m
       = groups st
         ++ [String c1 (String c2 (String c3 (String c4 (String c5 (String c6 "")))))].
Proof.
  destruct s as [|c1 [|c2 [|c3 [|c4 [|c5 [|c6 s]]]]]];
    cbn [match_here open_group close_group push cur groups whole option_map snoc];
    try discriminate;
    repeat match goal with
           | |- context [if cset_match true hex_digit ?c then _ else _] =>
               destruct (cset_match true hex_digit c) eqn:?; try discriminate
           end;
    try discriminate.
  intros [= <- <-]. exists c1, c2, c3, c4, c5, c6. split.
  - repeat constructor; assumption.
  - reflexivity.
Qed.

(** Six hexadecimal digits after a hash sign parse to an RGB colour. *)
Lemma hexToRgb_hash_six (c1 c2 c3 c4 c5 c6 : ascii) :
  Forall (fun c => cset_match true hex_digit c = true) [c1; c2; c3; c4; c5; c6] ->
  exists c : rgb,
    hexToRgb
      (String "#"
         (String c1 (String c2 (String c3 (String c4 (String c5 (String c6 "")))))))
    = Some c
    /\ isRgb c.
Proof.
  intros Hhex.
  destruct (hex_tail_decode (push "#" init) _ _ _ _ _ _ Hhex) as (m & Hm & _).
  match goal with
  | |- exists c, hexToRgb ?hex = Some c /\ _ => pose proof (hexToRgb_isRgb hex) as H
  end.
  change hexRegex with (Atom (chr "#") Opt :: tl hexRegex) in H at 1.
  cbn [match_here] in H.
  replace (cset_match true (chr "#") "#") with true in H by reflexivity.
  rewrite Hm in H. exact H.
Qed.

(** X6.  When the regex of a colour declaration matches the sheet, the
    captured six digits always parse: [hexToRgb] does not return [null]
    there, and the colour has its channels between 0 and 255.  So the
    inner null test of the contrast test cases never skips the
    assertion. *)
Theorem colorVar_parses (css name : string) (parsed : option rgb) :
  colorVar css name = Some parsed ->
  exists c : rgb, parsed = Some c /\ isRgb c.
Proof.
  unfold colorVar.
  destruct (exec true (colorVarRegex name) css) as [m|] eqn:He; [|discriminate].
  intros [= <-].
  apply exec_Some in He as (before & after & rest & _ & Hm).
  unfold colorVarRegex in Hm.
  apply lit_inv in Hm as (w1 & s1 & _ & _ & Hm).
  apply lit_inv in Hm as (w2 & s2 & _ & _ & Hm).
  apply lit_inv in Hm as (w3 & s3 & _ & _ & Hm).
  change (match_here true ([Atom space Star] ++ ?r)) with
    (greedy (cset_match true space) (match_here true r)) in Hm.
  apply greedy_inv in Hm as (w4 & s4 & _ & _ & Hm).
  apply lit_inv in Hm as (w5 & s5 & _ & _ & Hm).
  apply six_hex_group in Hm as (c1 & c2 & c3 & c4 & c5 & c6 & Hhex & Hg).
  rewrite !pushAll_groups in Hg. cbn [groups init app] in Hg.
  unfold group. rewrite Hg. cbn [nth Nat.sub].
  repeat match goal with
         | H : Forall _ (_ :: _) |- _ => inversion H; subst; clear H
         end.
  change ("#" +:+ ?s) with (String "#" s).
  apply hexToRgb_hash_six. repeat constructor; assumption.
Qed.

Lemma colorVar_parses_witness :
  exists c : rgb, Some (RGB 26 26 26) = Some c /\ isRgb c.
Proof.
  apply (colorVar_parses variablesSheet "text" (Some (RGB 26 26 26))).
  vm_compute. reflexivity.
Defined.

(** ** Character classes and literals under the [i] flag *)

Lemma code_inj (x y : ascii) : Js.code x = Js.code y -> x = y.
Proof.
  unfold Js.code. intros H.
  rewrite <- (ascii_N_embedding x), <- (ascii_N_embedding y). now rewrite H.
Qed.

Lemma in_single (x c : ascii) : in_ranges x [(c, c)] = true -> x = c.
Proof.
  unfold in_ranges, in_range. simpl. rewrite orb_false_r, andb_true_iff.
  intros [H1 H2]. apply N.leb_le in H1, H2. apply code_inj. lia.
Qed.

Lemma lower_upper_ascii (x : ascii) :
  Js.lower_ascii (Js.upper_ascii x) = Js.lower_ascii x.
Proof. destruct x as [[] [] [] [] [] [] [] []]; reflexivity. Qed.

Lemma lower_lower_ascii (x : ascii) :
  Js.lower_ascii (Js.lower_ascii x) = Js.lower_ascii x.
Proof. destruct x as [[] [] [] [] [] [] [] []]; reflexivity. Qed.

(** Two characters that the [i] flag identifies have the same lower case. *)
Lemma chr_ci (c x : ascii) :
  cset_match true (chr c) x = true -> Js.lower_ascii x = Js.lower_ascii c.
Proof.
  unfold cset_match, chr. cbn [cs_neg cs_ranges xorb].
  rewrite !orb_true_iff. intros [[H|H]|H]; apply in_single in H.
  - now subst.
  - subst c. now rewrite lower_upper_ascii.
  - subst c. now rewrite lower_lower_ascii.
Qed.

Lemma litOk_ci (w w' : string) :
  litOk true w w' = true -> asciiLower w' = asciiLower w.
Proof.
  revert w'. induction w as [|c w IH]; intros [|x w'] H; try discriminate;
    [reflexivity|].
  simpl in H. apply andb_true_iff in H as [Hc H]. simpl.
  now rewrite (chr_ci _ _ Hc), (IH _ H).
Qed.

Lemma asciiLower_app (a b : string) :
  asciiLower (a +:+ b) = asciiLower a +:+ asciiLower b.
Proof.
  induction a as [|c a IH]; [reflexivity|].
  rewrite append_cons. simpl. now rewrite IH.
Qed.

Lemma startsWith_app (p s : string) : Js.startsWith (p +:+ s) p = true.
Proof.
  induction p as [|c p IH]; [now destruct s|].
  rewrite append_cons. simpl. now rewrite Ascii.eqb_refl.
Qed.

Lemma gt_only (x : ascii) : cset_match true (chr ">") x = true -> x = ">"%char.
Proof.
  intros H. apply chr_ci in H.
  destruct x as [[] [] [] [] [] [] [] []]; try discriminate; reflexivity.
Qed.

Lemma litOk_gt (w : string) : litOk true ">" w = true -> w = ">".
Proof.
  destruct w as [|x [|y w]]; try discriminate.
  - simpl. rewrite andb_true_r. intros H. now rewrite (gt_only _ H).
  - simpl. rewrite andb_false_r. discriminate.
Qed.

(** Inversion of a single character, an optional one and a repetition of
    at least one. *)
Lemma one_inv (ic : bool) (cs : cset) (r : regex) (st : mstate) (s : string)
  (res : mstate * string) :
  match_here ic (Atom cs One :: r) st s = Some res ->
  exists c s', s = String c s' /\ cset_match ic cs c = true
               /\ match_here ic r (push c st) s' = Some res.
Proof.
  simpl. destruct s as [|c s']; [discriminate|].
  destruct (cset_match ic cs c) eqn:Hc; [|discriminate]. eauto.
Qed.

Lemma opt_inv (ic : bool) (cs : cset) (r : regex) (st : mstate) (s : string)
  (res : mstate * string) :
  match_here ic (Atom cs Opt :: r) st s = Some res ->
  exists w s', s = w +:+ s' /\ (String.length w <= 1)%nat
               /\ allChars (cset_match ic cs) w = true
               /\ match_here ic r (pushAll w st) s' = Some res.
Proof.
  simpl. destruct s as [|c s'].
  - intros H. exists "", "". split4; auto.
  - destruct (cset_match ic cs c) eqn:Hc.
    + destruct (match_here ic r (push c st) s') as [r1|] eqn:Hm.
      * intros [= <-]. exists (String c ""), s'. simpl. rewrite Hc. split4; auto.
      * intros H. exists "", (String c s'). split4; auto.
    + intros H. exists "", (String c s'). split4; auto.
Qed.

Lemma plus_inv (ic : bool) (cs : cset) (r : regex) (st : mstate) (s : string)
  (res : mstate * string) :
  match_here ic (Atom cs Plus :: r) st s = Some res ->
  exists w s', s = w +:+ s' /\ (1 <= String.length w)%nat
               /\ allChars (cset_match ic cs) w = true
               /\ match_here ic r (pushAll w st) s' = Some res.
Proof.
  simpl. destruct s as [|c s']; [discriminate|].
  destruct (cset_match ic cs c) eqn:Hc; [|discriminate].
  intros H. apply greedy_inv in H as (w & s'' & -> & Hall & Hk).
  exists (String c w), s''. simpl. rewrite Hc, Hall. split4; auto. lia.
Qed.

Lemma star_inv (ic : bool) (cs : cset) (r : regex) (st : mstate) (s : string)
  (res : mstate * string) :
  match_here ic (Atom cs Star :: r) st s = Some res ->
  exists w s', s = w +:+ s' /\ allChars (cset_match ic cs) w = true
               /\ match_here ic r (pushAll w st) s' = Some res.
Proof. simpl. apply greedy_inv. Qed.

(** A group around a piece of the match captures the text of the piece. *)
Lemma captured (w : string) (st : mstate) :
  groups (close_group (pushAll w (open_group st))) = groups st ++ [w]
  /\ whole (close_group (pushAll w (open_group st))) = whole st +:+ w
  /\ cur (close_group (pushAll w (open_group st))) = None.
Proof.
  unfold close_group. cbn [groups whole cur].
  rewrite pushAll_groups, pushAll_whole, pushAll_cur. repeat split.
Qed.

(** ** The matcher: leftmost matches and longest repetitions *)

Lemma exec_loop_skip (ic : bool) (r : regex) (w rest : string) :
  exec_loop ic r (String.length w) (w +:+ rest) = exec_loop ic r 0 rest.
Proof.
  induction w as [|c w IH]; [reflexivity|]. rewrite append_cons. exact IH.
Qed.

(** A match at the head of the text is reported, and the loop goes on
    behind it. *)
Lemma exec_loop_hit (ic : bool) (r : regex) (s rest : string) (m : mstate) :
  match_here ic r init s = Some (m, rest) -> whole m <> "" ->
  exec_loop ic r 0 s = m :: exec_loop ic r 0 rest.
Proof.
  intros Hm Hne. pose proof Hm as Hc.
  apply match_here_consumes in Hc as (w & -> & Hw).
  change (whole init +:+ w) with w in Hw. subst w.
  destruct (whole m) as [|c w] eqn:Hwm; [contradiction|].
  rewrite append_cons in Hm |- *. cbn [exec_loop]. rewrite Hm, Hwm.
  cbn [String.length Nat.sub]. rewrite Nat.sub_0_r. f_equal. apply exec_loop_skip.
Qed.

Lemma exec_loop_before (ic : bool) (r : regex) (before s : string) :
  (forall b1 b2 : string,
      before = b1 +:+ b2 -> b2 <> "" -> match_here ic r init (b2 +:+ s) = None) ->
  exec_loop ic r 0 (before +:+ s) = exec_loop ic r 0 s.
Proof.
  induction before as [|c before IH]; intros Hno; [reflexivity|].
  rewrite append_cons. cbn [exec_loop].
  rewrite <- append_cons, (Hno "" (String c before) eq_refl) by discriminate.
  apply IH. intros b1 b2 -> Hb2. apply (Hno (String c b1) b2); [reflexivity|assumption].
Qed.

Lemma exec_loop_none (ic : bool) (r : regex) (s : string) :
  (forall before after : string,
      s = before +:+ after -> match_here ic r init after = None) ->
  exec_loop ic r 0 s = [].
Proof.
  intros Hno. rewrite <- (append_nil_r s). rewrite exec_loop_before; [reflexivity|].
  intros b1 b2 -> _. apply (Hno b1). now rewrite !append_nil_r.
Qed.

(** Either no place of the text matches, or there is a first place that
    does. *)
Lemma first_match (ic : bool) (r : regex) (s : string) :
  (forall before after : string,
      s = before +:+ after -> after <> "" -> match_here ic r init after = None)
  \/ exists (before s1 : string) (m : mstate) (rest : string),
       s = before +:+ s1
       /\ (forall b1 b2 : string,
             before = b1 +:+ b2 -> b2 <> "" -> match_here ic r init (b2 +:+ s1) = None)
       /\ match_here ic r init s1 = Some (m, rest)
       /\ s1 <> "".
Proof.
  induction s as [|c s IH].
  - left. intros [|x before] [|y after] H Hne; try discriminate. now elim Hne.
  - destruct (match_here ic r init (String c s)) as [[m rest]|] eqn:Hm.
    + right. exists "", (String c s), m, rest. split; [reflexivity|].
      split; [|split; [exact Hm|discriminate]].
      intros [|x b1] [|y b2] H Hne; try discriminate. now elim Hne.
    + destruct IH as [Hno|(before & s1 & m & rest & -> & Hno & Hs1 & Hne)].
      * left. intros [|x before] after H Hne.
        -- change ("" +:+ after) with after in H. now subst after.
        -- rewrite append_cons in H. injection H as _ ->. now apply (Hno before).
      * right. exists (String c before), s1, m, rest. split; [reflexivity|].
        split; [|split; assumption].
        intros [|x b1] b2 H Hb2.
        -- change ("" +:+ b2) with b2 in H. subst b2. exact Hm.
        -- rewrite append_cons in H. injection H as _ ->.
           apply (Hno b1 b2); [reflexivity|assumption].
Qed.

Section DocumentOrder.

Context {A : Type}.
Variable ic : bool.
Variable r : regex.
Variable f : mstate -> A.
Variable hit : string -> A -> string -> Prop.

Hypothesis hit_match :
  forall (s : string) (x : A) (rest : string),
    hit s x rest <-> exists m, match_here ic r init s = Some (m, rest) /\ f m = x.
Hypothesis match_not_empty :
  forall (s : string) (m : mstate) (rest : string),
    match_here ic r init s = Some (m, rest) -> whole m <> "".

Lemma no_hit_no_match (s : string) :
  (forall (x : A) (rest : string), ~ hit s x rest) -> match_here ic r init s = None.
Proof.
  intros Hno. destruct (match_here ic r init s) as [[m rest]|] eqn:Hm; [|reflexivity].
  exfalso. apply (Hno (f m) rest). apply hit_match. eauto.
Qed.

Lemma no_match_no_hit (s : string) (x : A) (rest : string) :
  match_here ic r init s = None -> ~ hit s x rest.
Proof. intros Hm H. apply hit_match in H as (m & H & _). congruence. Qed.

Lemma empty_no_match : match_here ic r init "" = None.
Proof.
  destruct (match_here ic r init "") as [[m rest]|] eqn:Hm; [|reflexivity].
  exfalso. apply (match_not_empty _ _ _ Hm).
  apply match_here_consumes in Hm as (w & Hs & Hw).
  destruct w; [exact Hw|discriminate].
Qed.

(** The pieces in document order are what the loop over the matches
    collects. *)
Lemma order_exec_loop (s : string) (xs : list A) :
  inDocumentOrder hit s xs -> map f (exec_loop ic r 0 s) = xs.
Proof.
  induction 1 as [s Hno|before s x rest xs Hno Hhit _ IH].
  - rewrite exec_loop_none; [reflexivity|].
    intros before after Hs. apply no_hit_no_match. intros x rest.
    now apply (Hno before after).
  - rewrite exec_loop_before.
    + apply hit_match in Hhit as (m & Hm & <-).
      rewrite (exec_loop_hit _ _ _ _ _ Hm (match_not_empty _ _ _ Hm)).
      cbn [map]. now rewrite IH.
    + intros b1 b2 Hb Hb2. apply no_hit_no_match. intros y r0.
      now apply (Hno b1 b2).
Qed.

Lemma exec_loop_order_length (n : nat) (s : string) :
  (String.length s <= n)%nat -> inDocumentOrder hit s (map f (exec_loop ic r 0 s)).
Proof.
  revert s. induction n as [|n IH]; intros s Hlen.
  - destruct s; [|simpl in Hlen; lia]. apply order_none.
    intros [|? ?] [|? ?] x rest H; try discriminate.
    apply no_match_no_hit, empty_no_match.
  - destruct (first_match ic r s) as [Hno|(before & s1 & m & rest & -> & Hno & Hm & Hne)].
    + rewrite exec_loop_none.
      * apply order_none. intros before after x rest Hs. apply no_match_no_hit.
        destruct after; [apply empty_no_match|]. now apply (Hno before).
      * intros before after Hs. destruct after; [apply empty_no_match|].
        now apply (Hno before).
    + rewrite (exec_loop_before _ _ _ _ Hno).
      rewrite (exec_loop_hit _ _ _ _ _ Hm (match_not_empty _ _ _ Hm)). cbn [map].
      apply (order_next hit before s1 (f m) rest).
      * intros b1 b2 y r0 Hb Hb2. apply no_match_no_hit. now apply (Hno b1).
      * apply hit_match. eauto.
      * apply IH. pose proof (match_not_empty _ _ _ Hm) as Hw.
        apply match_here_consumes in Hm as (w & -> & Hwm).
        change (whole init +:+ w) with w in Hwm. subst w.
        rewrite !append_length in Hlen. destruct (whole m); [contradiction|].
        simpl in Hlen. lia.
Qed.

Lemma exec_loop_order (s : string) (xs : list A) :
  inDocumentOrder hit s xs <-> map f (exec_loop ic r 0 s) = xs.
Proof.
  split; [apply order_exec_loop|]. intros <-.
  now apply (exec_loop_order_length (String.length s)).
Qed.

End DocumentOrder.

(** The match that [exec] reports is the first place of the text where
    the regex matches. *)
Lemma exec_first (ic : bool) (r : regex) (s : string) (m : mstate) :
  exec ic r s = Some m ->
  exists before after rest : string,
    s = before +:+ after
    /\ match_here ic r init after = Some (m, rest)
    /\ forall b1 b2 : string,
         before = b1 +:+ b2 -> b2 <> "" -> match_here ic r init (b2 +:+ after) = None.
Proof.
  induction s as [|c s IH]; simpl.
  - destruct (match_here ic r init "") as [[m0 rest]|] eqn:Hm; [|discriminate].
    intros [= <-]. exists "", "", rest. split; [reflexivity|]. split; [exact Hm|].
    intros [|? ?] [|? ?] H Hne; try discriminate. now elim Hne.
  - destruct (match_here ic r init (String c s)) as [[m0 rest]|] eqn:Hm.
    + intros [= <-]. exists "", (String c s), rest. split; [reflexivity|].
      split; [exact Hm|].
      intros [|? ?] [|? ?] H Hne; try discriminate. now elim Hne.
    + intros H. apply IH in H as (before & after & rest & -> & Ha & Hno).
      exists (String c before), after, rest. split; [reflexivity|]. split; [exact Ha|].
      intros [|x b1] b2 H Hb2.
      * change ("" +:+ b2) with b2 in H. subst b2. exact Hm.
      * rewrite append_cons in H. injection H as _ ->.
        apply (Hno b1 b2); [reflexivity|assumption].
Qed.

Lemma exec_first_fwd (ic : bool) (r : regex) (before after rest : string) (m : mstate) :
  match_here ic r init after = Some (m, rest) ->
  (forall b1 b2 : string,
      before = b1 +:+ b2 -> b2 <> "" -> match_here ic r init (b2 +:+ after) = None) ->
  exec ic r (before +:+ after) = Some m.
Proof.
  intros Hm. induction before as [|c before IH]; intros Hno.
  - change ("" +:+ after) with after. destruct after; simpl; now rewrite Hm.
  - rewrite append_cons. cbn [exec].
    rewrite <- append_cons, (Hno "" (String c before) eq_refl) by discriminate.
    apply IH. intros b1 b2 -> Hb2. now apply (Hno (String c b1) b2).
Qed.

Lemma append_same_length (a b c d : string) :
  a +:+ b = c +:+ d -> String.length a = String.length c -> a = c /\ b = d.
Proof.
  revert c. induction a as [|x a IH]; intros [|y c] H Hlen; try discriminate.
  - split; [reflexivity|exact H].
  - rewrite !append_cons in H. injection H as -> H. simpl in Hlen.
    destruct (IH c H) as [-> ->]; [lia|]. split; reflexivity.
Qed.

Lemma greedy_none (p : ascii -> bool) (k : cont) (st : mstate) (s : string) :
  greedy p k st s = None ->
  forall w s' : string,
    s = w +:+ s' -> allChars p w = true -> k (pushAll w st) s' = None.
Proof.
  revert st. induction s as [|c s IH]; intros st; simpl.
  - intros Hk [|? ?] [|? ?] H _; try discriminate. exact Hk.
  - destruct (p c) eqn:Hc.
    + destruct (greedy p k (push c st) s) as [res'|] eqn:Hg; [discriminate|].
      intros Hk [|x w] s' H Hw.
      * change ("" +:+ s') with s' in H. subst s'. exact Hk.
      * rewrite append_cons in H. injection H as <- H. simpl.
        apply (IH _ Hg w s' H). simpl in Hw. now apply andb_true_iff in Hw as [_ ?].
    + intros Hk [|x w] s' H Hw.
      * change ("" +:+ s') with s' in H. subst s'. exact Hk.
      * rewrite append_cons in H. injection H as <- _. simpl in Hw.
        now rewrite Hc in Hw.
Qed.

(** A greedy repetition takes the longest run after which the rest of the
    regex matches. *)
Lemma greedy_longest (p : ascii -> bool) (k : cont) (st : mstate) (s : string)
  (res : mstate * string) :
  greedy p k st s = Some res ->
  exists w s' : string,
    s = w +:+ s' /\ allChars p w = true /\ k (pushAll w st) s' = Some res
    /\ forall w2 s2 : string,
         s = w2 +:+ s2 -> allChars p w2 = true ->
         (String.length w < String.length w2)%nat -> k (pushAll w2 st) s2 = None.
Proof.
  revert st. induction s as [|c s IH]; intros st; simpl.
  - intros Hk. exists "", "". repeat split; try assumption.
    intros [|? ?] [|? ?] H _ Hlen; try discriminate. simpl in Hlen. lia.
  - destruct (p c) eqn:Hc.
    + destruct (greedy p k (push c st) s) as [res'|] eqn:Hg.
      * intros [= <-]. destruct (IH _ Hg) as (w & s' & -> & Hw & Hk & Hmax).
        exists (String c w), s'. split; [reflexivity|]. split; [simpl; now rewrite Hc|].
        split; [exact Hk|].
        intros [|x w2] s2 H Hw2 Hlen; [simpl in Hlen; lia|].
        rewrite !append_cons in H. injection H as <- H. simpl.
        apply (Hmax w2 s2 H); [|simpl in Hlen; lia].
        simpl in Hw2. now apply andb_true_iff in Hw2 as [_ ?].
      * intros Hk. exists "", (String c s). split; [reflexivity|]. split; [reflexivity|].
        split; [exact Hk|].
        intros [|x w2] s2 H Hw2 Hlen; [simpl in Hlen; lia|].
        rewrite append_cons in H. injection H as <- H. simpl.
        apply (greedy_none _ _ _ _ Hg w2 s2 H).
        simpl in Hw2. now apply andb_true_iff in Hw2 as [_ ?].
    + intros Hk. exists "", (String c s). split; [reflexivity|]. split; [reflexivity|].
      split; [exact Hk|].
      intros [|x w2] s2 H Hw2 Hlen; [simpl in Hlen; lia|].
      rewrite append_cons in H. injection H as <- _. simpl in Hw2. now rewrite Hc in Hw2.
Qed.

Lemma greedy_longest_fwd (p : ascii -> bool) (k : cont) (st : mstate) (w s' : string)
  (res : mstate * string) :
  allChars p w = true -> k (pushAll w st) s' = Some res ->
  (forall w2 s2 : string,
      w +:+ s' = w2 +:+ s2 -> allChars p w2 = true ->
      (String.length w < String.length w2)%nat -> k (pushAll w2 st) s2 = None) ->
  greedy p k st (w +:+ s') = Some res.
Proof.
  intros Hw Hk Hmax.
  destruct (greedy p k st (w +:+ s')) as [res'|] eqn:Hg.
  - apply greedy_longest in Hg as (w1 & s1 & Hs & Hw1 & Hk1 & Hmax1).
    destruct (Nat.lt_trichotomy (String.length w) (String.length w1)) as [Hlt|[Heq|Hgt]].
    + rewrite (Hmax w1 s1 Hs Hw1 Hlt) in Hk1. discriminate.
    + destruct (append_same_length _ _ _ _ Hs Heq) as [-> ->]. congruence.
    + rewrite (Hmax1 w s' eq_refl Hw Hgt) in Hk. discriminate.
  - rewrite (greedy_none _ _ _ _ Hg w s' eq_refl Hw) in Hk. discriminate.
Qed.

(** A text is matched by the literal of its lower-case form. *)
Lemma chr_lower (x : ascii) : cset_match true (chr (Js.lower_ascii x)) x = true.
Proof. destruct x as [[] [] [] [] [] [] [] []]; vm_compute; reflexivity. Qed.

Lemma litOk_lower (w : string) : litOk true (asciiLower w) w = true.
Proof. induction w as [|c w IH]; simpl; [reflexivity|]. now rewrite chr_lower, IH. Qed.


(** ** Headings in document order *)

Lemma not_gt_char (c : ascii) :
  cset_match true not_gt c = negb (Ascii.eqb c ">").
Proof. destruct c as [[] [] [] [] [] [] [] []]; reflexivity. Qed.

Lemma not_quote_char (c : ascii) :
  cset_match true not_quote c = negb (isQuote c).
Proof. destruct c as [[] [] [] [] [] [] [] []]; reflexivity. Qed.

Lemma not_quote_char_cs (c : ascii) :
  cset_match false not_quote c = negb (isQuote c).
Proof. destruct c as [[] [] [] [] [] [] [] []]; reflexivity. Qed.

Lemma quote_char (c : ascii) : cset_match true quote c = isQuote c.
Proof. destruct c as [[] [] [] [] [] [] [] []]; reflexivity. Qed.

Lemma allChars_ext (p q : ascii -> bool) (s : string) :
  (forall c, p c = q c) -> allChars p s = allChars q s.
Proof. intros H. induction s as [|c s IH]; [reflexivity|]. simpl. now rewrite H, IH. Qed.

Lemma not_gt_noGt (s : string) : allChars (cset_match true not_gt) s = noGt s.
Proof. apply allChars_ext, not_gt_char. Qed.

Lemma not_quote_noQuote (s : string) : allChars (cset_match true not_quote) s = noQuote s.
Proof. apply allChars_ext, not_quote_char. Qed.

Lemma gt_stops (rest : string) :
  stopsAt (cset_match true not_gt) (">" +:+ rest) = true.
Proof. reflexivity. Qed.

Lemma letter_h (c : ascii) :
  Js.lower_ascii c = "h"%char -> c = "h"%char \/ c = "H"%char.
Proof.
  destruct c as [[] [] [] [] [] [] [] []]; vm_compute; intros H;
    try discriminate; auto.
Qed.

Lemma lower_lt (c : ascii) : Js.lower_ascii c = "<"%char -> c = "<"%char.
Proof.
  destruct c as [[] [] [] [] [] [] [] []]; vm_compute; intros H;
    try discriminate; reflexivity.
Qed.

Lemma level_of_digit (c : ascii) :
  cset_match true one_to_six c = true ->
  exists level : Z,
    c = levelDigit level /\ (1 <= level <= 6)%Z /\ parseInt (String c "") = Some level.
Proof.
  destruct c as [[] [] [] [] [] [] [] []]; vm_compute; intros H; try discriminate;
    first [exists 1%Z; split; [reflexivity|]
          |exists 2%Z; split; [reflexivity|]
          |exists 3%Z; split; [reflexivity|]
          |exists 4%Z; split; [reflexivity|]
          |exists 5%Z; split; [reflexivity|]
          |exists 6%Z; split; [reflexivity|]];
    (split; [split; discriminate|reflexivity]).
Qed.

Lemma digit_of_level (level : Z) :
  (1 <= level <= 6)%Z ->
  cset_match true one_to_six (levelDigit level) = true
  /\ parseInt (String (levelDigit level) "") = Some level.
Proof.
  intros H.
  assert (Hl : (level = 1 \/ level = 2 \/ level = 3 \/ level = 4 \/ level = 5
                \/ level = 6)%Z) by lia.
  destruct Hl as [->|[->|[->|[->|[->| ->]]]]]; split; reflexivity.
Qed.

(** The heading regex matches at the head of a text exactly when the text
    starts with the opening tag of a heading. *)
Lemma heading_match (s : string) (level : Z) (rest : string) :
  headingTagAt s level rest <->
  exists m, match_here true headingRegex init s = Some (m, rest) /\ levelOf m = level.
Proof.
  split.
  - intros (h & attrs & -> & Hh & Hlevel & Hattrs).
    destruct (digit_of_level level Hlevel) as [Hd Hp].
    eexists. split.
    + unfold headingRegex.
      change (String "<" (String h (String (levelDigit level) (attrs +:+ ">" +:+ rest))))
        with (String "<" (String h "")
              +:+ String (levelDigit level) (attrs +:+ ">" +:+ rest)).
      rewrite lit_fwd by (destruct Hh as [-> | ->]; reflexivity).
      cbn [app match_here]. rewrite Hd.
      apply greedy_max; [now rewrite not_gt_noGt|apply gt_stops|].
      change (">" +:+ rest) with (String ">" rest). reflexivity.
    + unfold levelOf, group. cbn [push groups]. rewrite pushAll_groups.
      cbn [push close_group open_group groups cur option_map]. rewrite pushAll_groups.
      cbn [init groups app nth Nat.sub snoc].
      change (snoc "" (levelDigit level)) with (String (levelDigit level) "").
      now rewrite Hp.
  - intros (m & Hm & Hlevel). unfold headingRegex in Hm.
    apply lit_inv in Hm as (w1 & s1 & -> & Hw1 & Hm).
    pose proof (litOk_length _ _ _ Hw1) as Hlen. apply litOk_ci in Hw1.
    destruct w1 as [|a [|b [|? ?]]]; try discriminate.
    injection Hw1 as Ha Hb. apply lower_lt in Ha. apply letter_h in Hb. subst a.
    cbn [app] in Hm.
    change (match_here true (GOpen :: ?r) ?st) with (match_here true r (open_group st)) in Hm.
    apply one_inv in Hm as (d & s2 & -> & Hd & Hm).
    change (match_here true (GClose :: ?r) ?st) with (match_here true r (close_group st)) in Hm.
    apply star_inv in Hm as (attrs & s3 & -> & Hattrs & Hm).
    change (lit ">") with (lit ">" ++ []) in Hm.
    apply lit_inv in Hm as (w3 & s4 & -> & Hw3 & Hm). apply litOk_gt in Hw3. subst w3.
    injection Hm as <- <-.
    destruct (level_of_digit d Hd) as (n & -> & Hn & Hp).
    assert (Hl : level = n).
    { rewrite <- Hlevel. unfold levelOf, group.
      cbn [push groups]. rewrite pushAll_groups.
      cbv [groups close_group push open_group cur option_map init app nth Nat.sub
           snoc whole pushAll String.append].
      now rewrite Hp. }
    subst n. exists b, attrs. split; [reflexivity|]. split; [exact Hb|].
    split; [exact Hn|]. now rewrite <- not_gt_noGt.
Qed.

Lemma heading_match_not_empty (s : string) (m : mstate) (rest : string) :
  match_here true headingRegex init s = Some (m, rest) -> whole m <> "".
Proof.
  intros Hm. unfold headingRegex in Hm.
  apply lit_inv in Hm as (w1 & s1 & -> & Hw1 & Hm).
  apply litOk_length in Hw1.
  apply match_here_consumes in Hm as (w & _ & ->). rewrite pushAll_whole.
  destruct w1; [discriminate|]. change (whole init) with "". discriminate.
Qed.

(** The levels in document order are the numbers that the heading check
    collects. *)
Lemma extractHeadings_headingLevels (html : string) (levels : list Z) :
  headingLevels html levels <-> extractHeadings html = map Some levels.
Proof.
  unfold headingLevels.
  rewrite (exec_loop_order true headingRegex levelOf headingTagAt
             heading_match heading_match_not_empty).
  unfold extractHeadings, exec_all.
  assert (H : map (fun m => parseInt (group 1 m)) (exec_loop true headingRegex 0 html)
              = map Some (map levelOf (exec_loop true headingRegex 0 html))).
  { rewrite map_map. apply map_ext_in. intros m Hm.
    apply exec_loop_In in Hm as (s' & rest & Hm).
    apply heading_match_level in Hm as (n & Hn & _). unfold levelOf. now rewrite Hn. }
  rewrite H. split; [now intros ->|].
  intros Heq. revert Heq. generalize (map levelOf (exec_loop true headingRegex 0 html)).
  intros l. revert levels. induction l as [|a l IH]; intros [|b levels]; try discriminate.
  - reflexivity.
  - simpl. intros [= -> Hl]. f_equal. now apply IH.
Qed.

(** C2.  On a page document that exists, there is one sequence of heading
    levels in document order (the opening heading tags of the page from
    left to right, each with its level); its levels lie between 1 and 6,
    and the heading check of the file passes exactly when the sequence
    holds the level 1 and, for every adjacent pair of it, the later level
    minus the earlier level is at most 1 (any decrease is allowed). *)
Theorem heading_hierarchy_check
  (fs : gmap string string) (filename html : string) :
  fs !! filename = Some html ->
  (exists levels : list Z, headingLevels html levels)
  /\ forall levels : list Z,
       headingLevels html levels ->
       Forall (fun n => (1 <= n <= 6)%Z) levels
       /\ (headingFileCheck fs filename = Passed
           <-> In 1%Z levels /\ noSkippedLevel levels).
Proof.
  intros Hfile. destruct (extractHeadings_levels html) as (levels0 & Hl0 & Hrange).
  split.
  - exists levels0. now apply extractHeadings_headingLevels.
  - intros levels Hlevels. apply extractHeadings_headingLevels in Hlevels.
    assert (Heq : levels = levels0).
    { rewrite Hl0 in Hlevels. clear -Hlevels. revert levels Hlevels.
      induction levels0 as [|a l IH]; intros [|b levels]; try discriminate.
      - reflexivity.
      - simpl. intros [= -> Hl]. f_equal. now apply IH. }
    subst levels0. split; [exact Hrange|].
    unfold headingFileCheck. rewrite (guarded_read _ _ _ _ _ Hfile), Hl0.
    apply headingAssertions_iff.
Qed.

Lemma heading_hierarchy_check_witness :
  headingLevels samplePage [1; 2; 3; 2]%Z
  /\ Forall (fun n => (1 <= n <= 6)%Z) [1; 2; 3; 2]%Z
  /\ (headingFileCheck sampleSite "index.html" = Passed
      <-> In 1%Z [1; 2; 3; 2]%Z /\ noSkippedLevel [1; 2; 3; 2]%Z).
Proof.
  assert (H : headingLevels samplePage [1; 2; 3; 2]%Z)
    by (apply extractHeadings_headingLevels; reflexivity).
  split; [exact H|].
  apply (heading_hierarchy_check sampleSite "index.html" samplePage eq_refl); exact H.
Defined.

(** ** Tags with a quoted attribute *)

Lemma lit_app (a b : string) : lit (a +:+ b) = lit a ++ lit b.
Proof.
  unfold lit. induction a as [|c a IH]; [reflexivity|].
  rewrite append_cons. simpl. now rewrite IH.
Qed.

Lemma quote_lower (c : ascii) : isQuote (Js.lower_ascii c) = isQuote c.
Proof. destruct c as [[] [] [] [] [] [] [] []]; reflexivity. Qed.

Lemma noQuote_lower (s : string) : noQuote (asciiLower s) = noQuote s.
Proof.
  unfold noQuote. induction s as [|c s IH]; [reflexivity|].
  simpl. now rewrite quote_lower, IH.
Qed.

Lemma noQuote_app (a b : string) : noQuote (a +:+ b) = noQuote a && noQuote b.
Proof.
  unfold noQuote. induction a as [|c a IH]; [reflexivity|].
  rewrite append_cons. simpl. now rewrite IH, andb_assoc.
Qed.

Lemma quote_stops_value (q : ascii) (s : string) :
  isQuote q = true -> stopsAt (cset_match true not_quote) (String q s) = true.
Proof. intros Hq. simpl. now rewrite not_quote_char, Hq. Qed.

Lemma append_inv_tail (a b r : string) : a +:+ r = b +:+ r -> a = b.
Proof.
  intros H.
  assert (Hlen : String.length a = String.length b).
  { apply (f_equal String.length) in H. rewrite !append_length in H. lia. }
  now destruct (append_same_length _ _ _ _ H Hlen).
Qed.

Lemma asciiLower_length (s : string) : String.length (asciiLower s) = String.length s.
Proof. induction s as [|c s IH]; [reflexivity|]. simpl. now rewrite IH. Qed.

Section QuotedAttribute.

Variables name attr : string.
Variable V : regex.
Variable ok : string -> Prop.

Hypothesis name_lower : asciiLower name = name.
Hypothesis attr_lower : asciiLower attr = attr.

(** The regex of the value matches a text without quote characters that
    is as the specification asks, and only such a text. *)
Hypothesis value_inv :
  forall (r' : regex) (st : mstate) (s : string) (res : mstate * string),
    match_here true (V ++ r') st s = Some res ->
    exists v s' : string,
      s = v +:+ s' /\ noQuote v = true /\ ok v
      /\ match_here true r' (pushAll v st) s' = Some res.
Hypothesis value_fwd :
  forall (r' : regex) (st : mstate) (v s' : string) (res : mstate * string),
    noQuote v = true -> ok v -> stopsAt (cset_match true not_quote) s' = true ->
    match_here true r' (pushAll v st) s' = Some res ->
    match_here true (V ++ r') st (v +:+ s') = Some res.

Lemma attribute_inv (st : mstate) (s : string) (m : mstate) (rest : string) :
  match_here true (attributeRegex attr V) st s = Some (m, rest) ->
  exists value : string,
    attributeAt attr ok s value rest /\ groups m = groups st ++ [value].
Proof.
  unfold attributeRegex. intros Hm.
  apply lit_inv in Hm as (key & s1 & -> & Hkey & Hm).
  apply litOk_ci in Hkey. rewrite asciiLower_app, attr_lower in Hkey.
  apply one_inv in Hm as (q1 & s2 & -> & Hq1 & Hm). rewrite quote_char in Hq1.
  change (match_here true (GOpen :: ?r) ?st) with (match_here true r (open_group st)) in Hm.
  apply value_inv in Hm as (value & s3 & -> & Hvalue & Hok & Hm).
  change (match_here true (GClose :: ?r) ?st) with (match_here true r (close_group st)) in Hm.
  apply one_inv in Hm as (q2 & s4 & -> & Hq2 & Hm). rewrite quote_char in Hq2.
  apply star_inv in Hm as (tail & s5 & -> & Htail & Hm). rewrite not_gt_noGt in Htail.
  change (lit ">") with (lit ">" ++ []) in Hm.
  apply lit_inv in Hm as (w & s6 & -> & Hw & Hm). apply litOk_gt in Hw. subst w.
  injection Hm as <- <-.
  exists value. split.
  - exists key, q1, q2, tail. repeat split; assumption.
  - rewrite push_groups, pushAll_groups, push_groups.
    destruct (captured value (push q1 (pushAll key st))) as (Hg & _).
    now rewrite Hg, push_groups, pushAll_groups.
Qed.

Lemma attribute_fwd (st : mstate) (s value rest : string) :
  attributeAt attr ok s value rest ->
  exists m : mstate,
    match_here true (attributeRegex attr V) st s = Some (m, rest)
    /\ groups m = groups st ++ [value].
Proof.
  intros (key & q1 & q2 & tail & -> & Hkey & Hq1 & Hq2 & Hvalue & Hok & Htail).
  eexists. split.
  - unfold attributeRegex. rewrite lit_fwd by (rewrite <- Hkey; apply litOk_lower).
    cbn [match_here]. rewrite quote_char, Hq1.
    apply value_fwd; [assumption|assumption|now apply quote_stops_value|].
    cbn [match_here]. rewrite quote_char, Hq2.
    apply greedy_max; [now rewrite not_gt_noGt|apply gt_stops|].
    change (">" +:+ rest) with (String ">" rest). reflexivity.
  - rewrite push_groups, pushAll_groups, push_groups.
    destruct (captured value (push q1 (pushAll key st))) as (Hg & _).
    now rewrite Hg, push_groups, pushAll_groups.
Qed.

Lemma opening_same (o1 o2 a b : string) :
  asciiLower o1 = "<" +:+ name -> asciiLower o2 = "<" +:+ name ->
  o1 +:+ a = o2 +:+ b -> o1 = o2 /\ a = b.
Proof.
  intros H1 H2 H. apply append_same_length; [exact H|].
  rewrite <- (asciiLower_length o1), <- (asciiLower_length o2). congruence.
Qed.

(** The regex of the tag matches at the head of a text exactly when the
    text starts with such a tag, and the group it captures is the value
    of the last place of the tag that fits. *)
Lemma tag_match (s value rest : string) :
  tagValueAt name attr ok s value rest <->
  exists m : mstate,
    match_here true (tagRegex name attr V) init s = Some (m, rest)
    /\ group 1 m = value.
Proof.
  unfold tagRegex. split.
  - intros (lead & (opening & s2 & -> & Hopen & Hlead & Hattr) & Hmax).
    destruct (attribute_fwd (pushAll lead (pushAll opening init)) _ _ _ Hattr)
      as (m & Hm & Hg).
    exists m. split.
    + rewrite lit_fwd by (rewrite <- Hopen; apply litOk_lower).
      cbn [match_here]. apply greedy_longest_fwd; [now rewrite not_gt_noGt|exact Hm|].
      intros w2 s2' Hs Hw2 Hlen.
      destruct (match_here true (attributeRegex attr V) (pushAll w2 (pushAll opening init)) s2')
        as [[m' rest']|] eqn:Hm'; [exfalso|reflexivity].
      apply attribute_inv in Hm' as (value' & Hattr' & _).
      assert (Htag : tagAt name attr ok (opening +:+ lead +:+ s2) w2 value' rest').
      { exists opening, s2'. rewrite Hs. rewrite not_gt_noGt in Hw2. now repeat split. }
      apply Hmax in Htag. lia.
    + unfold group. rewrite Hg, !pushAll_groups. reflexivity.
  - intros (m & Hm & Hgroup).
    apply lit_inv in Hm as (opening & s1 & -> & Hopen & Hm).
    apply litOk_ci in Hopen. rewrite asciiLower_app, name_lower in Hopen.
    cbn [match_here] in Hm.
    apply greedy_longest in Hm as (lead & s2 & -> & Hlead & Hm & Hmax).
    rewrite not_gt_noGt in Hlead.
    apply attribute_inv in Hm as (value0 & Hattr & Hg).
    assert (Hv : value0 = value).
    { rewrite <- Hgroup. unfold group. rewrite Hg, !pushAll_groups. reflexivity. }
    subst value0. exists lead. split.
    + exists opening, s2. now repeat split.
    + intros lead' value' rest' (opening' & s2' & Hs & Hopen' & Hlead' & Hattr').
      destruct (opening_same _ _ _ _ Hopen Hopen' Hs) as [<- Hrest].
      destruct (Nat.le_gt_cases (String.length lead') (String.length lead)) as [|Hlt];
        [assumption|exfalso].
      rewrite <- not_gt_noGt in Hlead'.
      pose proof (Hmax lead' s2' Hrest Hlead' Hlt) as Hnone.
      destruct (attribute_fwd (pushAll lead' (pushAll opening init)) _ _ _ Hattr')
        as (m' & Hm' & _).
      congruence.
Qed.

Lemma tag_match_not_empty (s : string) (m : mstate) (rest : string) :
  match_here true (tagRegex name attr V) init s = Some (m, rest) -> whole m <> "".
Proof.
  unfold tagRegex. intros Hm.
  apply lit_inv in Hm as (opening & s1 & -> & Hopen & Hm).
  apply litOk_length in Hopen.
  apply match_here_consumes in Hm as (w & _ & ->). rewrite pushAll_whole.
  destruct opening; [discriminate|]. change (whole init) with "". discriminate.
Qed.

(** The values in document order are the groups that the loop over the
    matches collects. *)
Lemma tag_values_in_order (html : string) (values : list string) :
  inDocumentOrder (tagValueAt name attr ok) html values
  <-> map (group 1) (exec_all true (tagRegex name attr V) html) = values.
Proof.
  apply (exec_loop_order true (tagRegex name attr V) (group 1)
           (tagValueAt name attr ok) tag_match tag_match_not_empty).
Qed.

End QuotedAttribute.

(** ** The values of the hrefs and srcs *)

Lemma resourceRegex_tagRegex (tagName attr : string) (prefix : regex) :
  resourceRegex tagName attr prefix
  = tagRegex tagName attr (prefix ++ [Atom not_quote Plus]).
Proof.
  unfold resourceRegex, tagRegex, attributeRegex. rewrite !lit_app.
  rewrite <- !app_assoc. reflexivity.
Qed.

Lemma linkRegex_tagRegex : linkRegex = tagRegex "a" "href" [Atom not_quote Star].
Proof. reflexivity. Qed.

(** *** Any value *)

Lemma any_value_inv (r' : regex) (st : mstate) (s : string) (res : mstate * string) :
  match_here true ([Atom not_quote Star] ++ r') st s = Some res ->
  exists v s' : string,
    s = v +:+ s' /\ noQuote v = true /\ anyValue v
    /\ match_here true r' (pushAll v st) s' = Some res.
Proof.
  cbn [app]. intros Hm. apply star_inv in Hm as (v & s' & -> & Hv & Hm).
  exists v, s'. rewrite <- not_quote_noQuote. now repeat split.
Qed.

Lemma any_value_fwd (r' : regex) (st : mstate) (v s' : string)
  (res : mstate * string) :
  noQuote v = true -> anyValue v -> stopsAt (cset_match true not_quote) s' = true ->
  match_here true r' (pushAll v st) s' = Some res ->
  match_here true ([Atom not_quote Star] ++ r') st (v +:+ s') = Some res.
Proof.
  intros Hv _ Hs Hm. cbn [app match_here].
  apply greedy_max; [now rewrite not_quote_noQuote|assumption|assumption].
Qed.

(** The anchors of a page in document order are what the link regex
    finds. *)
Lemma anchor_values_in_order (html : string) (values : list string) :
  inDocumentOrder (tagValueAt "a" "href" anyValue) html values
  <-> map (group 1) (exec_all true linkRegex html) = values.
Proof.
  rewrite linkRegex_tagRegex.
  apply (tag_values_in_order "a" "href" [Atom not_quote Star] anyValue
           eq_refl eq_refl any_value_inv any_value_fwd).
Qed.

(** *** Absolute and protocol-relative URLs *)

Lemma lower_colon (c : ascii) : Js.lower_ascii c = ":"%char -> c = ":"%char.
Proof.
  destruct c as [[] [] [] [] [] [] [] []]; vm_compute; intros H;
    try discriminate; reflexivity.
Qed.

Lemma lower_slash (c : ascii) : Js.lower_ascii c = "/"%char -> c = "/"%char.
Proof.
  destruct c as [[] [] [] [] [] [] [] []]; vm_compute; intros H;
    try discriminate; reflexivity.
Qed.

Lemma letter_s (c : ascii) :
  cset_match true (chr "s") c = true <-> Js.lower_ascii c = "s"%char.
Proof.
  destruct c as [[] [] [] [] [] [] [] []]; vm_compute; split; intros H;
    try discriminate; reflexivity.
Qed.

Lemma plus_fwd (cs : cset) (r' : regex) (st : mstate) (body s' : string)
  (res : mstate * string) :
  body <> "" -> allChars (cset_match true cs) body = true ->
  stopsAt (cset_match true cs) s' = true ->
  match_here true r' (pushAll body st) s' = Some res ->
  match_here true (Atom cs Plus :: r') st (body +:+ s') = Some res.
Proof.
  intros Hne Hbody Hs Hm. destruct body as [|b body]; [contradiction|].
  rewrite append_cons. cbn [match_here]. simpl in Hbody.
  apply andb_true_iff in Hbody as [Hb Hbody]. rewrite Hb.
  apply greedy_max; assumption.
Qed.

Lemma absolute_inv (r' : regex) (st : mstate) (s : string) (res : mstate * string) :
  match_here true ((httpPrefix ++ [Atom not_quote Plus]) ++ r') st s = Some res ->
  exists v s' : string,
    s = v +:+ s' /\ noQuote v = true /\ absoluteUrl v
    /\ match_here true r' (pushAll v st) s' = Some res.
Proof.
  unfold httpPrefix. rewrite <- !app_assoc. intros Hm.
  apply lit_inv in Hm as (w1 & s1 & -> & Hw1 & Hm). apply litOk_ci in Hw1.
  cbn [app] in Hm.
  apply opt_inv in Hm as (w2 & s2 & -> & Hlen & Hw2 & Hm).
  apply lit_inv in Hm as (w3 & s3 & -> & Hw3 & Hm). apply litOk_ci in Hw3.
  cbn [app] in Hm.
  apply plus_inv in Hm as (body & s4 & -> & Hbody & Hchars & Hm).
  rewrite not_quote_noQuote in Hchars.
  exists (((w1 +:+ w2) +:+ w3) +:+ body), s4. split; [now rewrite !append_assoc|].
  assert (Hscheme : asciiLower ((w1 +:+ w2) +:+ w3) = "http://"
                    \/ asciiLower ((w1 +:+ w2) +:+ w3) = "https://").
  { rewrite !asciiLower_app, Hw1, Hw3. destruct w2 as [|c [|? ?]]; [left; reflexivity| |].
    - right. simpl in Hw2. rewrite andb_true_r in Hw2. apply letter_s in Hw2.
      simpl. now rewrite Hw2.
    - simpl in Hlen. lia. }
  split; [|split].
  - rewrite noQuote_app, Hchars, andb_true_r, <- noQuote_lower.
    now destruct Hscheme as [-> | ->].
  - exists ((w1 +:+ w2) +:+ w3), body. split; [reflexivity|]. split; [exact Hscheme|].
    destruct body; [simpl in Hbody; lia|discriminate].
  - now rewrite !pushAll_app.
Qed.

Lemma absolute_fwd (r' : regex) (st : mstate) (v s' : string) (res : mstate * string) :
  noQuote v = true -> absoluteUrl v -> stopsAt (cset_match true not_quote) s' = true ->
  match_here true r' (pushAll v st) s' = Some res ->
  match_here true ((httpPrefix ++ [Atom not_quote Plus]) ++ r') st (v +:+ s') = Some res.
Proof.
  intros Hv (scheme & body & -> & Hscheme & Hbody) Hs Hm.
  rewrite noQuote_app in Hv. apply andb_true_iff in Hv as [_ Hchars].
  rewrite <- not_quote_noQuote in Hchars.
  rewrite pushAll_app in Hm.
  unfold httpPrefix. rewrite <- !app_assoc. rewrite append_assoc.
  destruct Hscheme as [Hscheme|Hscheme].
  - destruct scheme as [|c1 [|c2 [|c3 [|c4 [|c5 [|c6 [|c7 [|? ?]]]]]]]]; try discriminate.
    injection Hscheme as H1 H2 H3 H4 H5 H6 H7.
    apply lower_colon in H5. apply lower_slash in H6, H7. subst c5 c6 c7.
    change (String c1 (String c2 (String c3 (String c4 "://"))) +:+ body +:+ s')
      with (String c1 (String c2 (String c3 (String c4 "")))
            +:+ "://" +:+ body +:+ s').
    assert (Hhttp : asciiLower (String c1 (String c2 (String c3 (String c4 "")))) = "http")
      by (simpl; now rewrite H1, H2, H3, H4).
    rewrite lit_fwd by (rewrite <- Hhttp; apply litOk_lower).
    cbn [app]. change ("://" +:+ body +:+ s') with (String ":" ("//" +:+ body +:+ s')).
    cbn [match_here]. change (cset_match true (chr "s") ":") with false. cbv iota.
    change (String ":" ("//" +:+ body +:+ s')) with ("://" +:+ body +:+ s').
    rewrite lit_fwd by reflexivity. cbn [app].
    apply plus_fwd; assumption.
  - destruct scheme as [|c1 [|c2 [|c3 [|c4 [|c5 [|c6 [|c7 [|c8 [|? ?]]]]]]]]];
      try discriminate.
    injection Hscheme as H1 H2 H3 H4 H5 H6 H7 H8.
    apply lower_colon in H6. apply lower_slash in H7, H8. subst c6 c7 c8.
    change (String c1 (String c2 (String c3 (String c4 (String c5 "://")))) +:+ body +:+ s')
      with (String c1 (String c2 (String c3 (String c4 "")))
            +:+ String c5 ("://" +:+ body +:+ s')).
    assert (Hhttp : asciiLower (String c1 (String c2 (String c3 (String c4 "")))) = "http")
      by (simpl; now rewrite H1, H2, H3, H4).
    rewrite lit_fwd by (rewrite <- Hhttp; apply litOk_lower).
    cbn [app match_here]. apply letter_s in H5. rewrite H5.
    assert (Hinner : match_here true (lit "://" ++ Atom not_quote Plus :: r')
                       (push c5 (pushAll (String c1 (String c2 (String c3 (String c4 ""))))
                                         st))
                       ("://" +:+ body +:+ s') = Some res).
    { rewrite lit_fwd by reflexivity. apply plus_fwd; assumption. }
    now rewrite Hinner.
Qed.

Lemma relative_inv (r' : regex) (st : mstate) (s : string) (res : mstate * string) :
  match_here true ((protocolRelativePrefix ++ [Atom not_quote Plus]) ++ r') st s
  = Some res ->
  exists v s' : string,
    s = v +:+ s' /\ noQuote v = true /\ protocolRelativeUrl v
    /\ match_here true r' (pushAll v st) s' = Some res.
Proof.
  unfold protocolRelativePrefix. rewrite <- !app_assoc. intros Hm.
  apply lit_inv in Hm as (w1 & s1 & -> & Hw1 & Hm). apply litOk_ci in Hw1.
  destruct w1 as [|a [|b [|? ?]]]; try discriminate.
  injection Hw1 as Ha Hb. apply lower_slash in Ha, Hb. subst a b.
  cbn [app] in Hm.
  apply plus_inv in Hm as (body & s2 & -> & Hbody & Hchars & Hm).
  rewrite not_quote_noQuote in Hchars.
  exists ("//" +:+ body), s2. split; [now rewrite !append_assoc|]. split; [|split].
  - now rewrite noQuote_app, Hchars.
  - exists body. split; [reflexivity|]. destruct body; [simpl in Hbody; lia|discriminate].
  - now rewrite pushAll_app.
Qed.

Lemma relative_fwd (r' : regex) (st : mstate) (v s' : string) (res : mstate * string) :
  noQuote v = true -> protocolRelativeUrl v ->
  stopsAt (cset_match true not_quote) s' = true ->
  match_here true r' (pushAll v st) s' = Some res ->
  match_here true ((protocolRelativePrefix ++ [Atom not_quote Plus]) ++ r') st (v +:+ s')
  = Some res.
Proof.
  intros Hv (body & -> & Hbody) Hs Hm.
  rewrite noQuote_app in Hv. apply andb_true_iff in Hv as [_ Hchars].
  rewrite <- not_quote_noQuote in Hchars. rewrite pushAll_app in Hm.
  unfold protocolRelativePrefix. rewrite <- !app_assoc, append_assoc.
  rewrite lit_fwd by reflexivity. cbn [app]. apply plus_fwd; assumption.
Qed.

(** The resources of the specification are the list that
    [extractExternalResources] returns. *)
Lemma extractExternalResources_spec (html : string) (urls : list string) :
  externalResources html urls <-> extractExternalResources html = urls.
Proof.
  unfold externalResources, extractExternalResources.
  rewrite !resourceRegex_tagRegex.
  pose proof (tag_values_in_order "link" "href" _ absoluteUrl eq_refl eq_refl
                absolute_inv absolute_fwd html) as Hlink.
  pose proof (tag_values_in_order "script" "src" _ absoluteUrl eq_refl eq_refl
                absolute_inv absolute_fwd html) as Hscript.
  pose proof (tag_values_in_order "img" "src" _ absoluteUrl eq_refl eq_refl
                absolute_inv absolute_fwd html) as Himg.
  pose proof (tag_values_in_order "img" "src" _ protocolRelativeUrl eq_refl eq_refl
                relative_inv relative_fwd html) as Hrel.
  split.
  - intros (links & scripts & imgs & rel & H1 & H2 & H3 & H4 & ->).
    apply Hlink in H1. apply Hscript in H2. apply Himg in H3. apply Hrel in H4.
    rewrite H1, H2, H3, <- H4, map_map. reflexivity.
  - intros <-. eexists _, _, _, _.
    split; [now apply Hlink|]. split; [now apply Hscript|]. split; [now apply Himg|].
    split; [now apply Hrel|]. now rewrite map_map.
Qed.

(** C6.  On a page document that exists, the externally hosted resources
    of the page are one list of URLs: the absolute http or https URLs of
    the link hrefs, of the script srcs and of the img srcs, and the
    protocol-relative img srcs with the prefix https: before them, as they
    stand in the tags of the page.  The resource check (both test cases)
    passes exactly when this list has at most 15 distinct URLs and no URL
    occurs in it more than once. *)
Theorem resource_check_iff
  (fs : gmap string string) (filename html : string) :
  fs !! filename = Some html ->
  (exists urls : list string, externalResources html urls)
  /\ forall urls : list string,
       externalResources html urls ->
       (resourceCheck fs filename = true <->
        (size (list_to_set urls : gset string) <= 15)%nat
        /\ forall url, (count_occ string_dec urls url <= 1)%nat).
Proof.
  intros Hfile. split.
  - exists (extractExternalResources html). now apply extractExternalResources_spec.
  - intros urls Hurls. apply extractExternalResources_spec in Hurls. subst urls.
    now apply resourceCheck_counts.
Qed.

Lemma resource_check_iff_witness :
  let urls := ["https://fonts.example.org/inter.css"; "https://cdn.example.org/le.jpg"] in
  externalResources samplePage urls
  /\ (resourceCheck sampleSite "index.html" = true <->
      (size (list_to_set urls : gset string) <= 15)%nat
      /\ forall url, (count_occ string_dec urls url <= 1)%nat).
Proof.
  intros urls.
  assert (H : externalResources samplePage urls)
    by (apply extractExternalResources_spec; reflexivity).
  split; [exact H|].
  apply (resource_check_iff sampleSite "index.html" samplePage eq_refl); exact H.
Defined.

(** ** What an anchor tag carries *)

Lemma startsWith_iff (s p : string) :
  Js.startsWith s p = true <-> exists r : string, s = p +:+ r.
Proof.
  revert s. induction p as [|a p IH]; intros s.
  - split; [|now destruct s]. intros _. now exists s.
  - destruct s as [|b s]; simpl.
    + split; [discriminate|]. intros [r Hr]. discriminate.
    + destruct (Ascii.eqb a b) eqn:Hab.
      * apply Ascii.eqb_eq in Hab. subst b. rewrite IH. split.
        -- intros [r ->]. now exists r.
        -- intros [r Hr]. rewrite append_cons in Hr. injection Hr as ->. now exists r.
      * split; [discriminate|]. intros [r Hr]. rewrite append_cons in Hr.
        injection Hr as -> _. now rewrite Ascii.eqb_refl in Hab.
Qed.

Lemma isExternal_webAddress (url : string) :
  isExternal url = true <-> webAddress url.
Proof.
  unfold isExternal, webAddress. now rewrite orb_true_iff, !startsWith_iff.
Qed.

(** The anchors of the specification are the matches of the link regex. *)
Lemma anchor_match (s : string) (a : link) (rest : string) :
  anchorAt s a rest <->
  exists m : mstate,
    match_here true linkRegex init s = Some (m, rest) /\ anchorOf m = a.
Proof.
  unfold anchorAt. rewrite linkRegex_tagRegex.
  rewrite (tag_match "a" "href" [Atom not_quote Star] anyValue
             eq_refl eq_refl any_value_inv any_value_fwd).
  split.
  - intros (-> & m & Hm & Hg). exists m. split; [exact Hm|].
    pose proof Hm as Hc. apply match_here_consumes in Hc as (w & Hs & Hw).
    change (whole init +:+ w) with w in Hw. subst w. apply append_inv_tail in Hs.
    unfold anchorOf. rewrite <- Hs, Hg. now destruct a.
  - intros (m & Hm & <-). cbn [anchorOf tag href]. split; [|eauto].
    apply match_here_consumes in Hm as (w & -> & Hw).
    change (whole init +:+ w) with w in Hw. now subst w.
Qed.

Lemma link_match_not_empty (s : string) (m : mstate) (rest : string) :
  match_here true linkRegex init s = Some (m, rest) -> whole m <> "".
Proof. rewrite linkRegex_tagRegex. apply tag_match_not_empty. Qed.

Lemma anchors_in_order (html : string) (anchors : list link) :
  anchorsInOrder html anchors <-> map anchorOf (exec_all true linkRegex html) = anchors.
Proof.
  apply (exec_loop_order true linkRegex anchorOf anchorAt anchor_match
           link_match_not_empty).
Qed.

(** *** Case-sensitive literals *)

Lemma chr_exact (c x : ascii) : cset_match false (chr c) x = true -> x = c.
Proof.
  unfold cset_match, chr, in_ranges, in_range. simpl. rewrite orb_false_r.
  intros H. apply andb_true_iff in H as [H1 H2].
  apply N.leb_le in H1, H2. apply code_inj. lia.
Qed.

Lemma litOk_exact (w w' : string) : litOk false w w' = true -> w' = w.
Proof.
  revert w'. induction w as [|c w IH]; intros [|x w'] H; try discriminate.
  - reflexivity.
  - simpl in H. apply andb_true_iff in H as [Hc Hw].
    apply chr_exact in Hc. subst x. now rewrite (IH _ Hw).
Qed.

Lemma litOk_refl (w : string) : litOk false w w = true.
Proof.
  induction w as [|c w IH]; [reflexivity|]. simpl. rewrite IH, andb_true_r.
  unfold cset_match, chr, in_ranges, in_range. simpl.
  now rewrite N.leb_refl.
Qed.

(** The test of a case-sensitive literal asks whether the text holds it. *)
Lemma test_lit (w s : string) : test false (lit w) s = true <-> occursIn w s.
Proof.
  split.
  - intros H. apply test_true in H as (before & after & res & -> & Hm).
    rewrite <- (app_nil_r (lit w)) in Hm.
    apply lit_inv in Hm as (w' & s' & -> & Hw & _). apply litOk_exact in Hw. subst w'.
    now exists before, s'.
  - intros (before & after & ->).
    apply (test_suffix false (lit w) before (w +:+ after) (pushAll w init, after)).
    rewrite <- (app_nil_r (lit w)). rewrite lit_fwd by apply litOk_refl. reflexivity.
Qed.

(** *** The target attribute *)

Lemma target_blank (linkTag : string) :
  linkHasAttribute linkTag "target" (Some "_blank") = true <-> carriesTargetBlank linkTag.
Proof.
  unfold linkHasAttribute, carriesTargetBlank.
  change (lit "target" ++ lit "=" ++ [Atom quote One] ++ lit "_blank" ++ [Atom quote One])
    with (lit "target=" ++ Atom quote One :: lit "_blank" ++ [Atom quote One]).
  split.
  - intros H. apply test_true in H as (before & after & res & -> & Hm).
    apply lit_inv in Hm as (key & s1 & -> & Hkey & Hm). apply litOk_ci in Hkey.
    apply one_inv in Hm as (q1 & s2 & -> & Hq1 & Hm). rewrite quote_char in Hq1.
    apply lit_inv in Hm as (value & s3 & -> & Hvalue & Hm). apply litOk_ci in Hvalue.
    apply one_inv in Hm as (q2 & s4 & -> & Hq2 & Hm). rewrite quote_char in Hq2.
    exists before, key, q1, value, q2, s4. now repeat split.
  - intros (before & key & q1 & value & q2 & after & -> & Hkey & Hvalue & Hq1 & Hq2).
    eapply test_suffix.
    rewrite lit_fwd by (rewrite <- Hkey; apply litOk_lower).
    cbn [match_here]. rewrite quote_char, Hq1.
    rewrite lit_fwd by (rewrite <- Hvalue; apply litOk_lower).
    cbn [match_here]. rewrite quote_char, Hq2. reflexivity.
Qed.

(** *** The rel attribute *)

Lemma rel_match (s value : string) :
  relAttributeAt s value <->
  exists (m : mstate) (rest : string),
    match_here true relRegex init s = Some (m, rest) /\ group 1 m = value.
Proof.
  unfold relAttributeAt, relRegex. split.
  - intros (key & q1 & q2 & after & -> & Hkey & Hq1 & Hq2 & Hvalue).
    eexists _, _. split.
    + rewrite lit_fwd by (rewrite <- Hkey; apply litOk_lower).
      cbn [match_here]. rewrite quote_char, Hq1.
      apply greedy_max; [now rewrite not_quote_noQuote|now apply quote_stops_value|].
      cbn [match_here]. rewrite quote_char, Hq2. reflexivity.
    + unfold group. rewrite push_groups.
      destruct (captured value (push q1 (pushAll key init))) as (Hg & _).
      now rewrite Hg, push_groups, pushAll_groups.
  - intros (m & rest & Hm & Hgroup).
    apply lit_inv in Hm as (key & s1 & -> & Hkey & Hm). apply litOk_ci in Hkey.
    apply one_inv in Hm as (q1 & s2 & -> & Hq1 & Hm). rewrite quote_char in Hq1.
    change (match_here true (GOpen :: ?r) ?st) with (match_here true r (open_group st)) in Hm.
    apply star_inv in Hm as (v & s3 & -> & Hv & Hm). rewrite not_quote_noQuote in Hv.
    change (match_here true (GClose :: ?r) ?st) with (match_here true r (close_group st)) in Hm.
    apply one_inv in Hm as (q2 & s4 & -> & Hq2 & Hm). rewrite quote_char in Hq2.
    injection Hm as <- <-.
    assert (Hvalue : v = value).
    { rewrite <- Hgroup. unfold group. rewrite push_groups.
      destruct (captured v (push q1 (pushAll key init))) as (Hg & _).
      now rewrite Hg, push_groups, pushAll_groups. }
    subst v. exists key, q1, q2, s4. now repeat split.
Qed.

Lemma rel_no_match (s : string) :
  match_here true relRegex init s = None <-> forall value, ~ relAttributeAt s value.
Proof.
  split.
  - intros Hm value H. apply rel_match in H as (m & rest & H & _). congruence.
  - intros H. destruct (match_here true relRegex init s) as [[m rest]|] eqn:Hm;
      [|reflexivity].
    exfalso. apply (H (group 1 m)). apply rel_match. eauto.
Qed.

(** The value that the rel test case reads is the value of the first rel
    attribute. *)
Lemma first_rel (linkTag value : string) :
  firstRelValue linkTag value <->
  exists m : mstate, exec true relRegex linkTag = Some m /\ group 1 m = value.
Proof.
  unfold firstRelValue. split.
  - intros (before & s & -> & Hrel & Hfirst).
    apply rel_match in Hrel as (m & rest & Hm & Hg). exists m. split; [|exact Hg].
    apply (exec_first_fwd _ _ _ _ rest); [exact Hm|].
    intros b1 b2 Hb Hb2. apply rel_no_match. intros v. now apply (Hfirst b1 b2).
  - intros (m & He & Hg).
    apply exec_first in He as (before & after & rest & -> & Hm & Hfirst).
    exists before, after. split; [reflexivity|]. split.
    + apply rel_match. eauto.
    + intros b1 b2 v Hb Hb2. apply rel_no_match. now apply (Hfirst b1 b2).
Qed.

Lemma rel_attribute_present (linkTag value : string) :
  firstRelValue linkTag value -> linkHasAttribute linkTag "rel" None = true.
Proof.
  intros (before & s & -> & (key & q1 & q2 & after & -> & Hkey & Hq1 & Hq2 & Hvalue) & _).
  unfold linkHasAttribute.
  change (lit "rel" ++ lit "=" ++ [Atom quote One; Atom not_quote Star; Atom quote One])
    with (lit "rel=" ++ [Atom quote One; Atom not_quote Star; Atom quote One]).
  eapply test_suffix.
  rewrite lit_fwd by (rewrite <- Hkey; apply litOk_lower).
  cbn [match_here]. rewrite quote_char, Hq1.
  apply greedy_max; [now rewrite not_quote_noQuote|now apply quote_stops_value|].
  cbn [match_here]. rewrite quote_char, Hq2. reflexivity.
Qed.

(** What the two test cases ask of a tag, in the words of the
    specification. *)
Lemma linkTagOk_carries (linkTag : string) :
  linkTagOk linkTag <-> carriesTargetBlank linkTag /\ carriesRelIsolation linkTag.
Proof.
  unfold linkTagOk, carriesRelIsolation. rewrite target_blank, !test_lit.
  apply and_iff_compat_l. unfold relValue. split.
  - intros (_ & Ho & Hn).
    destruct (exec true relRegex linkTag) as [m|] eqn:He.
    + exists (group 1 m). split; [apply first_rel; eauto|]. now split.
    + destruct Ho as (b & a & Ho). destruct b; discriminate.
  - intros (value & Hfirst & Ho & Hn).
    split; [now apply (rel_attribute_present linkTag value)|].
    apply first_rel in Hfirst as (m & -> & ->). now split.
Qed.



(** ** The tags that the checks look at *)

Lemma img_match_shape (s rest : string) (m : mstate) :
  match_here true imgRegex init s = Some (m, rest) ->
  exists head body : string,
    whole m = head +:+ body +:+ ">"
    /\ asciiLower head = "<img"
    /\ allChars (cset_match true not_gt) body = true.
Proof.
  unfold imgRegex. intros Hm.
  apply lit_inv in Hm as (w1 & s1 & _ & Hw1 & Hm).
  change ([Atom not_gt Star] ++ lit ">") with (Atom not_gt Star :: lit ">" ++ []) in Hm.
  apply star_inv in Hm as (w2 & s2 & _ & Hw2 & Hm).
  apply lit_inv in Hm as (w3 & s3 & _ & Hw3 & Hm).
  injection Hm as <- _. apply litOk_gt in Hw3. subst w3.
  exists w1, w2. rewrite !pushAll_whole. split; [|split].
  - change (whole init) with "". now rewrite append_assoc.
  - apply litOk_ci in Hw1. exact Hw1.
  - exact Hw2.
Qed.

(** X7.  Every img tag that the image checks look at is a piece of the
    page: it starts with the four characters of [<img] in any case, goes
    on with characters other than [>], and ends with the first [>]. *)
Theorem imgTags_shape (html imgTag : string) :
  In imgTag (imgTags html) ->
  occursIn imgTag html
  /\ exists head body : string,
       imgTag = head +:+ body +:+ ">"
       /\ asciiLower head = "<img"
       /\ allChars (cset_match true not_gt) body = true.
Proof.
  unfold imgTags, exec_all. intros Hin.
  apply in_map_iff in Hin as (m & <- & Hin).
  apply exec_loop_occurs in Hin as (before & after & Hhtml & Hm).
  split.
  - exists before, after. exact Hhtml.
  - eapply img_match_shape, Hm.
Qed.

Lemma imgTags_shape_witness :
  occursIn "<img src='https://cdn.example.org/le.jpg' alt='Portrait of Dr. Le'>"
           samplePage
  /\ exists head body : string,
       "<img src='https://cdn.example.org/le.jpg' alt='Portrait of Dr. Le'>"
       = head +:+ body +:+ ">"
       /\ asciiLower head = "<img"
       /\ allChars (cset_match true not_gt) body = true.
Proof.
  apply (imgTags_shape samplePage). vm_compute. left. reflexivity.
Defined.

Lemma link_match_shape (s rest : string) (m : mstate) :
  match_here true linkRegex init s = Some (m, rest) ->
  exists before after : string,
    whole m = before +:+ group 1 m +:+ after
    /\ allChars (cset_match true not_quote) (group 1 m) = true
    /\ asciiLower (substring 0 2 (whole m)) = "<a".
Proof.
  unfold linkRegex. intros Hm.
  apply lit_inv in Hm as (w1 & s1 & _ & Hw1 & Hm).
  change ([Atom not_gt Star] ++ ?r) with (Atom not_gt Star :: r) in Hm.
  apply star_inv in Hm as (w2 & s2 & _ & Hw2 & Hm).
  apply lit_inv in Hm as (w3 & s3 & _ & Hw3 & Hm).
  cbn [app] in Hm.
  apply one_inv in Hm as (q1 & s4 & _ & Hq1 & Hm).
  change (match_here true (GOpen :: ?r) ?st) with (match_here true r (open_group st)) in Hm.
  apply star_inv in Hm as (href & s5 & _ & Hhref & Hm).
  change (match_here true (GClose :: ?r) ?st) with (match_here true r (close_group st)) in Hm.
  apply one_inv in Hm as (q2 & s6 & _ & Hq2 & Hm).
  apply star_inv in Hm as (w4 & s7 & _ & Hw4 & Hm).
  change (lit ">") with (lit ">" ++ []) in Hm.
  apply lit_inv in Hm as (w5 & s8 & _ & Hw5 & Hm).
  injection Hm as <- _.
  destruct (captured href (push q1 (pushAll w3 (pushAll w2 (pushAll w1 init)))))
    as (Hg & Hwhole & _).
  assert (Hgroup : group 1 (pushAll w5 (pushAll w4 (push q2
            (close_group (pushAll href (open_group
               (push q1 (pushAll w3 (pushAll w2 (pushAll w1 init)))))))))) = href).
  { unfold group. rewrite !pushAll_groups. cbn [push groups]. rewrite Hg.
    cbn [push groups]. rewrite !pushAll_groups. reflexivity. }
  rewrite Hgroup.
  assert (Hwh : whole (pushAll w5 (pushAll w4 (push q2
            (close_group (pushAll href (open_group
               (push q1 (pushAll w3 (pushAll w2 (pushAll w1 init))))))))))
          = (w1 +:+ w2 +:+ w3 +:+ String q1 "") +:+ href
            +:+ (String q2 "" +:+ w4 +:+ w5)).
  { rewrite !pushAll_whole. cbn [push whole]. rewrite Hwhole. cbn [push whole].
    rewrite !pushAll_whole. change (whole init) with "". unfold snoc.
    rewrite !append_assoc. reflexivity. }
  rewrite Hwh. exists (w1 +:+ w2 +:+ w3 +:+ String q1 ""), (String q2 "" +:+ w4 +:+ w5).
  split; [reflexivity|]. split; [exact Hhref|].
  apply litOk_ci in Hw1 as Hlow. pose proof (litOk_length _ _ _ Hw1) as Hlen.
  destruct w1 as [|a [|b [|c w1]]]; try discriminate.
  rewrite !append_cons. cbn [substring].
  match goal with
  | |- context [substring 0 0 ?x] =>
      replace (substring 0 0 x) with "" by (now destruct x)
  end.
  exact Hlow.
Qed.

(** X8.  Every external link that is extracted is a piece of the page that
    starts with [<a] in any case; its href is the text between two quote
    characters inside the tag, holds no quote character, and starts with
    http:// or https://. *)
Theorem extractExternalLinks_shape (html : string) (l : link) :
  In l (extractExternalLinks html) ->
  occursIn (tag l) html
  /\ occursIn (href l) (tag l)
  /\ allChars (cset_match true not_quote) (href l) = true
  /\ isExternal (href l) = true
  /\ asciiLower (substring 0 2 (tag l)) = "<a".
Proof.
  intros Hin. apply extractExternalLinks_spec in Hin as (m & Hm & Hext & ->).
  cbn [tag href].
  apply exec_loop_occurs in Hm as (before & after & Hhtml & Hm).
  apply link_match_shape in Hm as (b & a & Hwhole & Hquote & Hhead).
  split; [exists before, after; exact Hhtml|].
  split; [exists b, a; exact Hwhole|].
  repeat split; assumption.
Qed.

Lemma extractExternalLinks_shape_witness :
  let l := Link "<a href='https://scholar.example.org/le' target='_blank' rel='noopener noreferrer'>"
                "https://scholar.example.org/le" in
  occursIn (tag l) samplePage
  /\ occursIn (href l) (tag l)
  /\ allChars (cset_match true not_quote) (href l) = true
  /\ isExternal (href l) = true
  /\ asciiLower (substring 0 2 (tag l)) = "<a".
Proof.
  apply (extractExternalLinks_shape samplePage). vm_compute. left. reflexivity.
Defined.

(** ** The URLs of external resources *)

(** The part of a resource regex before the captured URL: the capture
    starts with nothing captured so far. *)
Lemma resource_head_inv (tagName attr : string) (r : regex) (s : string)
  (res : mstate * string) :
  match_here true
    (lit "<" ++ lit tagName ++ [Atom not_gt Star] ++ lit attr ++ lit "="
     ++ [Atom quote One; GOpen] ++ r) init s = Some res ->
  exists (st : mstate) (s' : string),
    cur st = Some "" /\ groups st = [] /\ match_here true r st s' = Some res.
Proof.
  intros Hm.
  apply lit_inv in Hm as (w1 & s1 & _ & _ & Hm).
  apply lit_inv in Hm as (w2 & s2 & _ & _ & Hm).
  change ([Atom not_gt Star] ++ ?r) with (Atom not_gt Star :: r) in Hm.
  apply star_inv in Hm as (w3 & s3 & _ & _ & Hm).
  apply lit_inv in Hm as (w4 & s4 & _ & _ & Hm).
  apply lit_inv in Hm as (w5 & s5 & _ & _ & Hm).
  cbn [app] in Hm.
  apply one_inv in Hm as (q & s6 & _ & _ & Hm).
  change (match_here true (GOpen :: ?r) ?st) with (match_here true r (open_group st)) in Hm.
  eexists _, s6. split; [|split; [|exact Hm]].
  - reflexivity.
  - cbn [open_group push groups]. now rewrite !pushAll_groups.
Qed.

(** The part after the prefix of the URL: the capture ends after at least
    one more character. *)
Lemma resource_tail_inv (st : mstate) (s : string) (g : string)
  (m : mstate) (rest : string) :
  cur st = Some g -> groups st = [] ->
  match_here true
    ([Atom not_quote Plus; GClose; Atom quote One; Atom not_gt Star] ++ lit ">")
    st s = Some (m, rest) ->
  exists w : string, group 1 m = g +:+ w /\ (1 <= String.length w)%nat.
Proof.
  intros Hcur Hgroups Hm. cbn [app] in Hm.
  apply plus_inv in Hm as (w & s1 & _ & Hlen & _ & Hm).
  change (match_here true (GClose :: ?r) ?st) with (match_here true r (close_group st)) in Hm.
  apply one_inv in Hm as (q & s2 & _ & _ & Hm).
  apply star_inv in Hm as (w2 & s3 & _ & _ & Hm).
  change (lit ">") with (lit ">" ++ []) in Hm.
  apply lit_inv in Hm as (w3 & s4 & _ & _ & Hm).
  injection Hm as <- _.
  exists w. split; [|exact Hlen].
  unfold group. rewrite !pushAll_groups. cbn [push close_group groups].
  rewrite pushAll_groups, pushAll_cur, Hcur, Hgroups. reflexivity.
Qed.

Lemma s_only (w : string) :
  (String.length w <= 1)%nat -> allChars (cset_match true (chr "s")) w = true ->
  asciiLower w = "" \/ asciiLower w = "s".
Proof.
  destruct w as [|x [|y w]]; simpl; intros Hlen Hall; [now left| |lia].
  right. rewrite andb_true_r in Hall. now rewrite (chr_ci _ _ Hall).
Qed.

Lemma http_resource_scheme (tagName attr : string) (s rest : string) (m : mstate) :
  match_here true (resourceRegex tagName attr httpPrefix) init s = Some (m, rest) ->
  Js.startsWith (asciiLower (group 1 m)) "http://" = true
  \/ Js.startsWith (asciiLower (group 1 m)) "https://" = true.
Proof.
  unfold resourceRegex. intros Hm.
  apply resource_head_inv in Hm as (st & s' & Hcur & Hgroups & Hm).
  unfold httpPrefix in Hm. rewrite <- !app_assoc in Hm.
  apply lit_inv in Hm as (w1 & s1 & _ & Hw1 & Hm).
  change ([Atom (chr "s") Opt] ++ ?r) with (Atom (chr "s") Opt :: r) in Hm.
  apply opt_inv in Hm as (w2 & s2 & _ & Hlen & Hw2 & Hm).
  apply lit_inv in Hm as (w3 & s3 & _ & Hw3 & Hm).
  apply resource_tail_inv with (g := (w1 +:+ w2) +:+ w3) in Hm as (w & -> & _).
  - apply litOk_ci in Hw1, Hw3. rewrite !asciiLower_app, Hw1, Hw3.
    destruct (s_only _ Hlen Hw2) as [-> | ->].
    + left. apply (startsWith_app "http://").
    + right. apply (startsWith_app "https://").
  - rewrite !pushAll_cur, Hcur. reflexivity.
  - now rewrite !pushAll_groups.
Qed.

Lemma relative_resource_scheme (tagName attr : string) (s rest : string) (m : mstate) :
  match_here true (resourceRegex tagName attr protocolRelativePrefix) init s
  = Some (m, rest) ->
  Js.startsWith (asciiLower ("https:" +:+ group 1 m)) "https://" = true.
Proof.
  unfold resourceRegex. intros Hm.
  apply resource_head_inv in Hm as (st & s' & Hcur & Hgroups & Hm).
  unfold protocolRelativePrefix in Hm.
  apply lit_inv in Hm as (w1 & s1 & _ & Hw1 & Hm).
  apply resource_tail_inv with (g := w1) in Hm as (w & -> & _).
  - apply litOk_ci in Hw1. rewrite !asciiLower_app, Hw1.
    apply (startsWith_app "https://").
  - rewrite !pushAll_cur, Hcur. reflexivity.
  - now rewrite !pushAll_groups.
Qed.

(** X9.  Every URL that [extractExternalResources] returns is absolute:
    in lower case it starts with http:// or https:// (the protocol-relative
    ones through the prefix that is put before them). *)
Theorem extractExternalResources_absolute (html url : string) :
  In url (extractExternalResources html) ->
  Js.startsWith (asciiLower url) "http://" = true
  \/ Js.startsWith (asciiLower url) "https://" = true.
Proof.
  unfold extractExternalResources, exec_all. rewrite !in_app_iff.
  intros [Hin|[Hin|[Hin|Hin]]]; apply in_map_iff in Hin as (m & <- & Hin);
    apply exec_loop_occurs in Hin as (before & after & _ & Hm).
  - eapply http_resource_scheme, Hm.
  - eapply http_resource_scheme, Hm.
  - eapply http_resource_scheme, Hm.
  - right. eapply relative_resource_scheme, Hm.
Qed.

Lemma extractExternalResources_absolute_witness :
  Js.startsWith (asciiLower "https://cdn.example.org/le.jpg") "http://" = true
  \/ Js.startsWith (asciiLower "https://cdn.example.org/le.jpg") "https://" = true.
Proof.
  apply (extractExternalResources_absolute samplePage). vm_compute. right. left.
  reflexivity.
Defined.

(** ** The two link checks *)

Lemma upper_or_lower (x : ascii) : x = Js.upper_ascii x \/ x = Js.lower_ascii x.
Proof. destruct x as [[] [] [] [] [] [] [] []]; vm_compute; auto. Qed.

Lemma upper_lower_ascii (x : ascii) :
  Js.upper_ascii (Js.lower_ascii x) = Js.upper_ascii x.
Proof. destruct x as [[] [] [] [] [] [] [] []]; reflexivity. Qed.

Lemma upper_upper_ascii (x : ascii) :
  Js.upper_ascii (Js.upper_ascii x) = Js.upper_ascii x.
Proof. destruct x as [[] [] [] [] [] [] [] []]; reflexivity. Qed.

Lemma in_ranges_case (rs : list (ascii * ascii)) (x : ascii) :
  in_ranges x rs = in_ranges (Js.upper_ascii x) rs
  \/ in_ranges x rs = in_ranges (Js.lower_ascii x) rs.
Proof.
  destruct (upper_or_lower x) as [H|H]; [left|right]; now rewrite <- H.
Qed.

(** With the [i] flag a class does not tell a character from its other
    case. *)
Lemma cset_match_upper (cs : cset) (x : ascii) :
  cset_match true cs (Js.upper_ascii x) = cset_match true cs x.
Proof.
  unfold cset_match. f_equal.
  rewrite upper_upper_ascii, lower_upper_ascii.
  destruct (in_ranges_case (cs_ranges cs) x) as [-> | ->];
    destruct (in_ranges (Js.upper_ascii x) (cs_ranges cs)),
             (in_ranges (Js.lower_ascii x) (cs_ranges cs)); reflexivity.
Qed.

Lemma cset_match_lower (cs : cset) (x : ascii) :
  cset_match true cs (Js.lower_ascii x) = cset_match true cs x.
Proof.
  unfold cset_match. f_equal.
  rewrite upper_lower_ascii, lower_lower_ascii.
  destruct (in_ranges_case (cs_ranges cs) x) as [-> | ->];
    destruct (in_ranges (Js.upper_ascii x) (cs_ranges cs)),
             (in_ranges (Js.lower_ascii x) (cs_ranges cs)); reflexivity.
Qed.

Lemma ci_invariant (cs : cset) (c x : ascii) :
  cset_match true (chr c) x = true -> cset_match true cs x = cset_match true cs c.
Proof.
  unfold cset_match at 1. unfold chr. cbn [cs_neg cs_ranges xorb].
  rewrite !orb_true_iff. intros [[H|H]|H]; apply in_single in H; subst c.
  - reflexivity.
  - now rewrite cset_match_upper.
  - now rewrite cset_match_lower.
Qed.

Lemma litOk_allChars (cs : cset) (w w' : string) :
  litOk true w w' = true ->
  allChars (cset_match true cs) w' = allChars (cset_match true cs) w.
Proof.
  revert w'. induction w as [|c w IH]; intros [|x w'] H; try discriminate;
    [reflexivity|].
  simpl in H. apply andb_true_iff in H as [Hc H]. simpl.
  now rewrite (ci_invariant cs _ _ Hc), (IH _ H).
Qed.

Lemma quote_stops (q : ascii) :
  cset_match true quote q = true -> cset_match true not_quote q = false.
Proof.
  unfold cset_match, quote, not_quote. cbn [cs_neg cs_ranges xorb].
  intros ->. reflexivity.
Qed.

(** A tag that has the attribute with a value free of quote characters has
    the attribute. *)
Lemma attribute_with_value (linkTag attribute : string) (c : ascii) (v : string) :
  allChars (cset_match true not_quote) (String c v) = true ->
  linkHasAttribute linkTag attribute (Some (String c v)) = true ->
  linkHasAttribute linkTag attribute None = true.
Proof.
  intros Hv. unfold linkHasAttribute. intros Ht.
  apply test_true in Ht as (before & after & res & -> & Hm).
  apply lit_inv in Hm as (w1 & s1 & -> & Hw1 & Hm).
  apply lit_inv in Hm as (w2 & s2 & -> & Hw2 & Hm).
  cbn [app] in Hm.
  apply one_inv in Hm as (q1 & s3 & -> & Hq1 & Hm).
  apply lit_inv in Hm as (w3 & s4 & -> & Hw3 & Hm).
  apply one_inv in Hm as (q2 & s5 & -> & Hq2 & _).
  eapply test_suffix.
  rewrite (lit_fwd _ _ _ _ _ _ Hw1), (lit_fwd _ _ _ _ _ _ Hw2).
  cbn [app match_here]. rewrite Hq1.
  rewrite (greedy_max _ _ _ w3 (String q2 s5)
             (push q2 (pushAll w3 (push q1 (pushAll w2 (pushAll w1 init)))), s5)).
  - reflexivity.
  - rewrite (litOk_allChars _ _ _ Hw3). exact Hv.
  - simpl. now rewrite (quote_stops _ Hq2).
  - cbn [match_here]. now rewrite Hq2.
Qed.

Lemma linkCheck_tags (fs : gmap string string) (filename html : string) :
  fs !! filename = Some html -> linkCheck fs filename = true ->
  Forall (fun l => linkTagOk (tag l)) (extractExternalLinks html).
Proof.
  intros Hfile. unfold linkCheck, targetBlankProperty, relProperty.
  rewrite !(guarded_read _ _ _ _ _ Hfile).
  set (links := extractExternalLinks html). intros H.
  destruct (forEach _ links) eqn:Ht; try discriminate.
  destruct (forEach (fun l => _ &> _) links) eqn:Hr; try discriminate.
  apply forEach_Passed in Ht, Hr.
  rewrite List.Forall_forall in *. intros l Hl.
  specialize (Ht l Hl). specialize (Hr l Hl). cbv zeta in Hr.
  apply expect_Passed in Ht.
  apply andThen_Passed in Hr as [Hrel Hr]. apply expect_Passed in Hrel.
  rewrite Hrel in Hr. apply andThen_Passed in Hr as [Ho Hn].
  apply expect_Passed in Ho, Hn. repeat split; assumption.
Qed.

(** X10.  On a page document that exists, the test case [external links
    have security attributes] passes whenever the two strict link test
    cases pass: a tag with target=_blank has a target attribute, and the
    rel value it reads is the one they read. *)
Theorem strict_link_check_implies_security_attributes
  (fs : gmap string string) (filename html : string) :
  fs !! filename = Some html ->
  linkCheck fs filename = true ->
  securityAttributesFileCheck fs filename = Passed.
Proof.
  intros Hfile Hcheck.
  pose proof (linkCheck_tags _ _ _ Hfile Hcheck) as Htags.
  unfold securityAttributesFileCheck. rewrite (guarded_read _ _ _ _ _ Hfile).
  apply forEach_Passed. eapply List.Forall_impl; [|exact Htags].
  intros l (Htarget & Hrel & Hopener & _).
  apply andThen_Passed. split.
  - apply expect_Passed.
    eapply attribute_with_value; [|exact Htarget]. reflexivity.
  - apply andThen_Passed. split; [now apply expect_Passed|].
    unfold relValue in Hopener.
    destruct (exec true relRegex (tag l)); [now apply expect_Passed|reflexivity].
Qed.

Lemma strict_link_check_implies_security_attributes_witness :
  securityAttributesFileCheck sampleSite "index.html" = Passed.
Proof.
  apply (strict_link_check_implies_security_attributes sampleSite "index.html" samplePage);
    reflexivity.
Defined.

(** ** Matching with the [i] flag does not depend on the case of the text *)

Lemma succeeds_or (o1 o2 : option (mstate * string)) :
  succeeds (match o1 with Some r => Some r | None => o2 end)
  = succeeds o1 || succeeds o2.
Proof. now destruct o1. Qed.

Lemma greedy_sameOutcome (cs : cset) (k k' : cont) :
  sameOutcome k k' ->
  sameOutcome (greedy (cset_match true cs) k) (greedy (cset_match true cs) k').
Proof.
  intros Hk st st' s. revert st st'.
  induction s as [|c s IH]; intros st st'; simpl; [apply (Hk st st' "")|].
  rewrite cset_match_lower.
  destruct (cset_match true cs c); [|apply (Hk st st' (String c s))].
  rewrite !succeeds_or. f_equal; [apply IH|apply (Hk st st' (String c s))].
Qed.

Lemma lazy_sameOutcome (cs : cset) (k k' : cont) :
  sameOutcome k k' ->
  sameOutcome (lazy (cset_match true cs) k) (lazy (cset_match true cs) k').
Proof.
  intros Hk st st' s. revert st st'.
  induction s as [|c s IH]; intros st st'; simpl.
  - pose proof (Hk st st' "") as H. simpl in H.
    destruct (k st ""), (k' st' ""); simpl in *; congruence.
  - pose proof (Hk st st' (String c s)) as H. simpl in H.
    rewrite cset_match_lower.
    destruct (k st (String c s)),
             (k' st' (String (Js.lower_ascii c) (asciiLower s)));
      simpl in *; try congruence.
    destruct (cset_match true cs c); [apply IH|reflexivity].
Qed.

Lemma match_here_sameOutcome (r : regex) :
  sameOutcome (match_here true r) (match_here true r).
Proof.
  induction r as [|n r IH]; [intros st st' s; reflexivity|].
  destruct n as [cs q| | |].
  - destruct q.
    + intros st st' [|c s]; simpl; [reflexivity|].
      rewrite cset_match_lower. destruct (cset_match true cs c); [apply IH|reflexivity].
    + intros st st' [|c s]; simpl; [apply (IH st st' "")|].
      rewrite cset_match_lower.
      destruct (cset_match true cs c); [|apply (IH st st' (String c s))].
      rewrite !succeeds_or. f_equal; [apply IH|apply (IH st st' (String c s))].
    + now apply greedy_sameOutcome.
    + intros st st' [|c s]; simpl; [reflexivity|].
      rewrite cset_match_lower. destruct (cset_match true cs c); [|reflexivity].
      now apply greedy_sameOutcome.
    + now apply lazy_sameOutcome.
  - intros st st' s. simpl. apply IH.
  - intros st st' s. simpl. apply IH.
  - intros st st' [|c s]; simpl; [apply (IH st st' "")|reflexivity].
Qed.

Lemma test_asciiLower (r : regex) (s : string) :
  test true r (asciiLower s) = test true r s.
Proof.
  unfold test. induction s as [|c s IH]; simpl.
  - now destruct (match_here true r init "") as [[? ?]|].
  - pose proof (match_here_sameOutcome r init init (String c s)) as H. simpl in H.
    destruct (match_here true r init (String c s)) as [[? ?]|],
             (match_here true r init (String (Js.lower_ascii c) (asciiLower s)))
               as [[? ?]|]; simpl in H; try discriminate; [reflexivity|exact IH].
Qed.

(** X11.  With an attribute name and a value that are plain words, as at
    every call, [linkHasAttribute] does not depend on the case of the
    letters of the tag: the tag in lower case has an attribute, or an
    attribute with a value, exactly when the tag has it. *)
Theorem linkHasAttribute_ignores_case
  (linkTag attribute : string) (value : option string) :
  plainWord attribute = true ->
  plainWord (default "" value) = true ->
  linkHasAttribute (asciiLower linkTag) attribute value
  = linkHasAttribute linkTag attribute value.
Proof.
  intros _ _.
  unfold linkHasAttribute. destruct value as [[|c v]|]; apply test_asciiLower.
Qed.

Lemma linkHasAttribute_ignores_case_witness :
  linkHasAttribute "<a href='#top' target='_blank'>" "target" (Some "_blank")
  = linkHasAttribute "<A HREF='#top' TARGET='_BLANK'>" "target" (Some "_blank").
Proof.
  apply (linkHasAttribute_ignores_case "<A HREF='#top' TARGET='_BLANK'>" "target"
           (Some "_blank")); reflexivity.
Defined.

(** ** Test cases that follow from other test cases *)

(** X12.  On a page document that exists, the test case [all images should
    have explicit dimensions] passes whenever [images should have width
    and height attributes] passes: the latter asks for both attributes or
    both inline dimensions, the former for one way of giving each. *)
Theorem dimension_attributes_imply_dimensions
  (fs : gmap string string) (filename html : string) :
  fs !! filename = Some html ->
  dimensionAttributesFileCheck fs filename = Passed ->
  dimensionsProperty fs filename = Passed.
Proof.
  intros Hfile. unfold dimensionAttributesFileCheck, dimensionsProperty.
  rewrite !(guarded_read _ _ _ _ _ Hfile), !forEach_Passed.
  apply List.Forall_impl. intros imgTag. cbv zeta. unfold imageHasDimensions.
  destruct (test true (dimensionAttrRegex "width") imgTag),
           (test true (dimensionAttrRegex "height") imgTag),
           (test true (dimensionStyleRegex "width") imgTag),
           (test true (dimensionStyleRegex "height") imgTag);
    simpl; congruence.
Qed.

Lemma dimension_attributes_imply_dimensions_witness :
  dimensionsProperty {[ "index.html" := sizedPage ]} "index.html" = Passed.
Proof.
  apply (dimension_attributes_imply_dimensions _ "index.html" sizedPage);
    reflexivity.
Defined.

(** X13.  On a page document that exists, the test case [all images have
    non-empty alt text] passes whenever [all images have alt attributes]
    and [alt text is descriptive] pass. *)
Theorem alt_present_and_descriptive_imply_non_empty
  (fs : gmap string string) (filename html : string) :
  fs !! filename = Some html ->
  altPresentProperty fs filename = Passed ->
  altDescriptiveFileCheck fs filename = Passed ->
  altNonEmptyFileCheck fs filename = Passed.
Proof.
  intros Hfile.
  unfold altPresentProperty, altDescriptiveFileCheck, altNonEmptyFileCheck.
  rewrite !(guarded_read _ _ _ _ _ Hfile), !forEach_Passed, !List.Forall_forall.
  intros Hpresent Hdescr imgTag Hin.
  specialize (Hpresent _ Hin). specialize (Hdescr _ Hin). cbv zeta in Hdescr.
  apply expect_Passed, altMatch_test in Hpresent as [alt Halt].
  rewrite Halt in *. apply andThen_Passed in Hdescr as [Hlen _].
  apply expect_Passed, Nat.leb_le in Hlen. apply expect_Passed, Nat.ltb_lt. lia.
Qed.

Lemma alt_present_and_descriptive_imply_non_empty_witness :
  altNonEmptyFileCheck sampleSite "index.html" = Passed.
Proof.
  apply (alt_present_and_descriptive_imply_non_empty sampleSite "index.html" samplePage);
    reflexivity.
Defined.

(** ** Class names and custom properties ([tests/styling.test.js]) *)

Lemma allChars_snoc (p : ascii -> bool) (w : string) (c : ascii) :
  allChars p (snoc w c) = allChars p w && p c.
Proof.
  unfold snoc. induction w as [|x w IH].
  - simpl. now rewrite andb_true_r.
  - rewrite append_cons. simpl. now rewrite IH, andb_assoc.
Qed.

Lemma snoc_not_empty (w : string) (c : ascii) : snoc w c <> "".
Proof. unfold snoc. destruct w; discriminate. Qed.

(** The words are made of characters of the text and of the word being
    read. *)
Lemma splitWords_chars (p : ascii -> bool) (s word : string) :
  allChars p word = true -> allChars p s = true ->
  Forall (fun w => allChars p w = true) (splitWords word s).
Proof.
  revert word. induction s as [|c s IH]; intros word Hword Hs; simpl.
  - destruct word; [constructor|]. now repeat constructor.
  - simpl in Hs. apply andb_true_iff in Hs as [Hc Hs].
    destruct (cset_match false space c).
    + destruct word; [now apply IH|]. constructor; [assumption|now apply IH].
    + apply IH; [|assumption]. now rewrite allChars_snoc, Hword, Hc.
Qed.

(** No word is empty and no word holds white space. *)
Lemma splitWords_words (s word : string) :
  allChars notSpace word = true ->
  Forall (fun w => w <> "" /\ allChars notSpace w = true) (splitWords word s).
Proof.
  revert word. induction s as [|c s IH]; intros word Hword; simpl.
  - destruct word; [constructor|]. repeat constructor; [discriminate|assumption].
  - destruct (cset_match false space c) eqn:Hc.
    + destruct word; [now apply IH|].
      constructor; [split; [discriminate|assumption]|now apply IH].
    + apply IH. unfold notSpace in *. now rewrite allChars_snoc, Hword, Hc.
Qed.

Lemma class_match_value (s rest : string) (m : mstate) :
  match_here false classRegex init s = Some (m, rest) ->
  allChars (cset_match false not_quote) (group 1 m) = true.
Proof.
  unfold classRegex. intros Hm.
  apply lit_inv in Hm as (w1 & s1 & _ & _ & Hm).
  cbn [app] in Hm.
  apply one_inv in Hm as (q1 & s2 & _ & _ & Hm).
  change (match_here false (GOpen :: ?r) ?st) with (match_here false r (open_group st)) in Hm.
  apply star_inv in Hm as (value & s3 & _ & Hvalue & Hm).
  change (match_here false (GClose :: ?r) ?st) with (match_here false r (close_group st)) in Hm.
  apply one_inv in Hm as (q2 & s4 & _ & _ & Hm).
  injection Hm as <- _.
  destruct (captured value (push q1 (pushAll w1 init))) as (Hg & _).
  unfold group. cbn [push groups]. rewrite Hg. cbn [push groups].
  rewrite pushAll_groups. exact Hvalue.
Qed.

(** X14.  The class names that [extractClasses] returns are never empty
    and hold neither white space nor a quote character. *)
Theorem extractClasses_names (elementHtml className : string) :
  In className (extractClasses elementHtml) ->
  className <> ""
  /\ allChars notSpace className = true
  /\ allChars (cset_match false not_quote) className = true.
Proof.
  unfold extractClasses.
  destruct (exec false classRegex elementHtml) as [m|] eqn:He; [|intros []].
  apply exec_Some in He as (before & after & rest & _ & Hm).
  apply class_match_value in Hm.
  intros Hin.
  pose proof (splitWords_words (group 1 m) "" eq_refl) as Hwords.
  pose proof (splitWords_chars _ (group 1 m) "" eq_refl Hm) as Hchars.
  rewrite List.Forall_forall in Hwords, Hchars.
  destruct (Hwords _ Hin) as [Hne Hspace]. repeat split; auto.
Qed.

Lemma extractClasses_names_witness :
  "publication-entry" <> ""
  /\ allChars notSpace "publication-entry" = true
  /\ allChars (cset_match false not_quote) "publication-entry" = true.
Proof.
  apply (extractClasses_names "<article class='card  publication-entry'>").
  vm_compute. right. left. reflexivity.
Defined.

Lemma findLast_snoc {A : Type} (f : A -> bool) (l : list A) (x : A) :
  findLast f (l ++ [x]) = if f x then Some x else findLast f l.
Proof. unfold findLast. rewrite rev_unit. reflexivity. Qed.

(** After the loop over the declarations a name other than [__proto__]
    holds the value of its last declaration. *)
Lemma setProperty_fold (ms : list mstate) (name : string) :
  name <> "__proto__" ->
  fold_left (fun variables m => setProperty variables (group 1 m) (Js.trim (group 2 m)))
            ms ∅ !! name
  = option_map (fun m => Js.trim (group 2 m))
               (findLast (fun m => String.eqb (group 1 m) name) ms).
Proof.
  intros Hname. induction ms as [|m ms IH] using rev_ind; [apply lookup_empty|].
  rewrite fold_left_app, findLast_snoc. cbn [fold_left]. unfold setProperty at 1.
  destruct (String.eqb (group 1 m) name) eqn:Hm.
  - apply String.eqb_eq in Hm. subst name.
    apply String.eqb_neq in Hname. rewrite Hname.
    now rewrite lookup_insert_eq.
  - apply String.eqb_neq in Hm.
    destruct (String.eqb (group 1 m) "__proto__"); [exact IH|].
    now rewrite lookup_insert_ne.
Qed.

Lemma setProperty_fold_proto (ms : list mstate) :
  fold_left (fun variables m => setProperty variables (group 1 m) (Js.trim (group 2 m)))
            ms ∅ !! "__proto__" = None.
Proof.
  induction ms as [|m ms IH] using rev_ind; [apply lookup_empty|].
  rewrite fold_left_app. cbn [fold_left]. unfold setProperty at 1.
  destruct (String.eqb (group 1 m) "__proto__") eqn:Hm; [exact IH|].
  apply String.eqb_neq in Hm. now rewrite lookup_insert_ne.
Qed.

(** X15.  In the object that [extractCSSVariables] returns a custom
    property holds the trimmed value of its last declaration in the sheet,
    and is absent when the sheet does not declare it; [__proto__] is never
    an own property. *)
Theorem extractCSSVariables_last_wins (cssContent name : string) :
  name <> "__proto__" ->
  extractCSSVariables cssContent !! name
  = option_map (fun m => Js.trim (group 2 m))
               (findLast (fun m => String.eqb (group 1 m) name)
                         (exec_all false cssVarRegex cssContent))
  /\ extractCSSVariables cssContent !! "__proto__" = None.
Proof.
  intros Hname. unfold extractCSSVariables. split.
  - now apply setProperty_fold.
  - apply setProperty_fold_proto.
Qed.

Lemma extractCSSVariables_last_wins_witness :
  extractCSSVariables spacingSheet !! "spacing-sm" = Some "8px"
  /\ extractCSSVariables spacingSheet !! "__proto__" = None.
Proof.
  pose proof (extractCSSVariables_last_wins spacingSheet "spacing-sm") as [H1 H2];
    [discriminate|].
  split; [|exact H2]. rewrite H1. vm_compute. reflexivity.
Defined.

(** ** Publication entries ([tests/publications.test.js]) *)

(** A lazy repetition stops at the first place where the rest of the regex
    matches. *)
Lemma lazy_min (p : ascii -> bool) (k : cont) (st : mstate) (s : string)
  (res : mstate * string) :
  lazy p k st s = Some res ->
  exists w s' : string,
    s = w +:+ s' /\ allChars p w = true /\ k (pushAll w st) s' = Some res
    /\ forall a b : string,
         w = a +:+ b -> b <> "" -> k (pushAll a st) (b +:+ s') = None.
Proof.
  revert st. induction s as [|c s IH]; intros st; simpl.
  - destruct (k st "") eqn:Hk; [|discriminate]. intros [= <-].
    exists "", "". repeat split; try assumption.
    intros [|? ?] [|? ?] Hab Hb; try discriminate. now elim Hb.
  - destruct (k st (String c s)) eqn:Hk.
    + intros [= <-]. exists "", (String c s). repeat split; try assumption.
      intros [|? ?] [|? ?] Hab Hb; try discriminate. now elim Hb.
    + destruct (p c) eqn:Hc; [|discriminate]. intros H.
      apply IH in H as (w & s' & -> & Hw & Hres & Hmin).
      exists (String c w), s'. split; [reflexivity|]. split; [simpl; now rewrite Hc|].
      split; [exact Hres|].
      intros [|x a] b Hab Hb.
      * change ("" +:+ b) with b in Hab. subst b. exact Hk.
      * rewrite append_cons in Hab. injection Hab as <- ->. simpl. now apply Hmin.
Qed.

(** The parts of a match of the entry regex: the opening tag, the captured
    body, which holds no closing tag, and the closing tag. *)
Lemma entry_match_shape (s rest : string) (m : mstate) :
  match_here true entryRegex init s = Some (m, rest) ->
  (exists head closing : string, whole m = head +:+ group 1 m +:+ closing)
  /\ forall closing : string,
       asciiLower closing = "</article>" -> ~ occursIn closing (group 1 m).
Proof.
  unfold entryRegex. intros Hm.
  apply lit_inv in Hm as (w1 & s1 & _ & _ & Hm).
  change ([Atom not_gt Star] ++ ?r) with (Atom not_gt Star :: r) in Hm.
  apply star_inv in Hm as (w2 & s2 & _ & _ & Hm).
  apply lit_inv in Hm as (w3 & s3 & _ & _ & Hm).
  apply lit_inv in Hm as (w4 & s4 & _ & _ & Hm).
  change ([Atom not_dquote Star] ++ ?r) with (Atom not_dquote Star :: r) in Hm.
  apply star_inv in Hm as (w5 & s5 & _ & _ & Hm).
  apply lit_inv in Hm as (w6 & s6 & _ & _ & Hm).
  change ([Atom not_dquote Star] ++ ?r) with (Atom not_dquote Star :: r) in Hm.
  apply star_inv in Hm as (w7 & s7 & _ & _ & Hm).
  apply lit_inv in Hm as (w8 & s8 & _ & _ & Hm).
  change ([Atom not_gt Star] ++ ?r) with (Atom not_gt Star :: r) in Hm.
  apply star_inv in Hm as (w9 & s9 & _ & _ & Hm).
  apply lit_inv in Hm as (w10 & s10 & _ & _ & Hm).
  set (st := pushAll w10 _) in Hm.
  assert (Hst : groups st = []) by (unfold st; now rewrite !pushAll_groups).
  change ([GOpen; Atom any LazyStar; GClose] ++ ?r)
    with (GOpen :: Atom any LazyStar :: GClose :: r ++ []) in Hm.
  change (match_here true (GOpen :: Atom any LazyStar :: ?r) st s10)
    with (lazy (cset_match true any) (match_here true r) (open_group st) s10) in Hm.
  apply lazy_min in Hm as (body & s11 & _ & _ & Hm & Hmin).
  change (match_here true (GClose :: ?r) ?st0) with (match_here true r (close_group st0))
    in Hm.
  apply lit_inv in Hm as (w12 & s12 & _ & _ & Hm).
  injection Hm as <- _.
  destruct (captured body st) as (Hg & Hwhole & _).
  assert (Hgroup : group 1 (pushAll w12 (close_group (pushAll body (open_group st))))
                   = body).
  { unfold group. now rewrite pushAll_groups, Hg, Hst. }
  rewrite Hgroup. split.
  - exists (whole st), w12. now rewrite pushAll_whole, Hwhole, append_assoc.
  - intros closing Hclosing (x & y & Hbody).
    specialize (Hmin x (closing +:+ y) Hbody).
    assert (Hne : closing +:+ y <> "").
    { destruct closing; [discriminate|]. rewrite append_cons. discriminate. }
    specialize (Hmin Hne).
    change (match_here true (GClose :: ?r) ?st0) with (match_here true r (close_group st0))
      in Hmin.
    rewrite append_assoc, lit_fwd in Hmin; [discriminate|].
    rewrite <- Hclosing. apply litOk_lower.
Qed.

(** X25.  Every entry that [extractPublicationEntries] returns is a piece of
    the page and holds no closing article tag, in any letter case: an entry
    ends at the first closing tag after its opening tag. *)
Theorem publication_entry_ends_at_first_closing_tag (html entry closing : string) :
  In entry (extractPublicationEntries html) ->
  asciiLower closing = "</article>" ->
  occursIn entry html /\ ~ occursIn closing entry.
Proof.
  unfold extractPublicationEntries, exec_all. intros Hin Hclosing.
  apply in_map_iff in Hin as (m & <- & Hin).
  apply exec_loop_occurs in Hin as (before & after & Hhtml & Hm).
  apply entry_match_shape in Hm as [(head & tail & Hwhole) Hfirst].
  split; [|now apply Hfirst].
  exists (before +:+ head), (tail +:+ after).
  now rewrite Hhtml, Hwhole, !append_assoc.
Qed.

Lemma publication_entry_ends_at_first_closing_tag_witness :
  occursIn publicationsPageEntry publicationsPage
  /\ ~ occursIn "</ARTICLE>" publicationsPageEntry.
Proof.
  apply (publication_entry_ends_at_first_closing_tag publicationsPage);
    [vm_compute; left; reflexivity|reflexivity].
Defined.

(** *** The year of a venue *)

Lemma yearHere_inv (s : string) :
  yearHere s = true ->
  exists (century : string) (c3 c4 : ascii) (after : string),
    s = century +:+ String c3 (String c4 after)
    /\ (century = "19" \/ century = "20")
    /\ cset_match false digit c3 = true /\ cset_match false digit c4 = true
    /\ stopsAt (cset_match false word_char) after = true.
Proof.
  destruct s as [|c1 [|c2 [|c3 [|c4 rest]]]]; try discriminate.
  unfold yearHere. rewrite !andb_true_iff, orb_true_iff, !andb_true_iff.
  intros [[[Hcentury H3] H4] Hrest].
  assert (Hc : String c1 (String c2 "") = "19" \/ String c1 (String c2 "") = "20").
  { destruct Hcentury as [[H1 H2]|[H1 H2]];
      apply Ascii.eqb_eq in H1, H2; subst; auto. }
  exists (String c1 (String c2 "")), c3, c4, rest.
  split; [reflexivity|]. split; [exact Hc|]. split; [exact H3|]. split; [exact H4|].
  now destruct rest.
Qed.

Lemma yearHere_fwd (century : string) (c3 c4 : ascii) (after : string) :
  century = "19" \/ century = "20" ->
  cset_match false digit c3 = true -> cset_match false digit c4 = true ->
  stopsAt (cset_match false word_char) after = true ->
  yearHere (century +:+ String c3 (String c4 after)) = true.
Proof.
  intros [-> | ->] H3 H4 Hafter;
    rewrite !append_cons; change ("" +:+ ?x) with x; unfold yearHere;
    rewrite H3, H4; destruct after; simpl in *; try rewrite Hafter; reflexivity.
Qed.

Lemma hasYear_inv (afterWord : bool) (s : string) :
  hasYear afterWord s = true ->
  exists (before century : string) (c3 c4 : ascii) (after : string),
    s = before +:+ century +:+ String c3 (String c4 after)
    /\ wordBefore afterWord before = false
    /\ (century = "19" \/ century = "20")
    /\ cset_match false digit c3 = true /\ cset_match false digit c4 = true
    /\ stopsAt (cset_match false word_char) after = true.
Proof.
  revert afterWord. induction s as [|c s IH]; intros afterWord H.
  - simpl in H. rewrite orb_false_r, andb_false_r in H. discriminate.
  - cbn [hasYear] in H. apply orb_true_iff in H as [H|H].
    + apply andb_true_iff in H as [Haw H].
      apply yearHere_inv in H as (century & c3 & c4 & after & Hs & Hrest).
      exists "", century, c3, c4, after. split; [exact Hs|].
      split; [now destruct afterWord|exact Hrest].
    + apply IH in H as (before & century & c3 & c4 & after & -> & Hb & Hrest).
      exists (String c before), century, c3, c4, after.
      split; [now rewrite append_cons|]. split; [exact Hb|exact Hrest].
Qed.

Lemma hasYear_fwd (afterWord : bool) (before century : string) (c3 c4 : ascii)
  (after : string) :
  wordBefore afterWord before = false ->
  century = "19" \/ century = "20" ->
  cset_match false digit c3 = true -> cset_match false digit c4 = true ->
  stopsAt (cset_match false word_char) after = true ->
  hasYear afterWord (before +:+ century +:+ String c3 (String c4 after)) = true.
Proof.
  intros Hb Hc H3 H4 Hafter.
  revert afterWord Hb. induction before as [|c before IH]; intros afterWord Hb.
  - simpl in Hb. subst afterWord. change ("" +:+ ?x) with x.
    pose proof (yearHere_fwd century c3 c4 after Hc H3 H4 Hafter) as Hy.
    destruct (century +:+ String c3 (String c4 after));
      cbn [hasYear]; rewrite Hy; reflexivity.
  - rewrite append_cons. cbn [hasYear]. rewrite (IH _ Hb). apply orb_true_r.
Qed.

(** X26.  The year check of a venue text, the regex [\b(19|20)\d{2}\b],
    succeeds exactly when the text holds 19 or 20 followed by two digits,
    with no word character right before these four characters and none
    right after them. *)
Theorem venue_year_iff (venue : string) :
  hasYear false venue = true <->
  exists (before century : string) (c3 c4 : ascii) (after : string),
    venue = before +:+ century +:+ String c3 (String c4 after)
    /\ wordBefore false before = false
    /\ (century = "19" \/ century = "20")
    /\ cset_match false digit c3 = true /\ cset_match false digit c4 = true
    /\ stopsAt (cset_match false word_char) after = true.
Proof.
  split.
  - apply hasYear_inv.
  - intros (before & century & c3 & c4 & after & -> & Hb & Hc & H3 & H4 & Hafter).
    now apply hasYear_fwd.
Qed.

(** ** Elements of a class and their text ([tests/styling.test.js],
       [tests/publications.test.js]) *)

Lemma lt_only (x : ascii) : cset_match true (chr "<") x = true -> x = "<"%char.
Proof.
  intros H. apply chr_ci in H.
  destruct x as [[] [] [] [] [] [] [] []]; try discriminate; reflexivity.
Qed.

Lemma litOk_lt (w : string) : litOk true "<" w = true -> w = "<".
Proof.
  destruct w as [|x [|y w]]; try discriminate.
  - simpl. rewrite andb_true_r. intros H. now rewrite (lt_only _ H).
  - simpl. rewrite andb_false_r. discriminate.
Qed.

Lemma allChars_app (p : ascii -> bool) (a b : string) :
  allChars p (a +:+ b) = allChars p a && allChars p b.
Proof.
  induction a as [|c a IH]; [reflexivity|].
  rewrite append_cons. simpl. now rewrite IH, andb_assoc.
Qed.

Lemma letter_is_alnum (c : ascii) :
  cset_match true (CSet false [("a", "z")%char]) c = true ->
  cset_match true (CSet false [("a", "z"); ("0", "9")]%char) c = true.
Proof.
  destruct c as [[] [] [] [] [] [] [] []]; vm_compute; intros H;
    try discriminate; reflexivity.
Qed.

Lemma element_match_shape (className s rest : string) (m : mstate) :
  match_here true (elementsByClassRegex className) init s = Some (m, rest) ->
  whole m = "<" +:+ group 1 m +:+ group 2 m +:+ ">"
  /\ group 1 m <> ""
  /\ allChars (cset_match true (CSet false [("a", "z"); ("0", "9")]%char)) (group 1 m)
     = true
  /\ exists w : string, occursIn w (group 2 m) /\ asciiLower w = asciiLower className.
Proof.
  unfold elementsByClassRegex. intros Hm.
  apply lit_inv in Hm as (w0 & s0 & _ & Hw0 & Hm). apply litOk_lt in Hw0.
  cbn [app] in Hm.
  change (match_here true (GOpen :: ?r) ?st) with (match_here true r (open_group st)) in Hm.
  apply one_inv in Hm as (c & s1 & _ & Hc & Hm).
  apply star_inv in Hm as (t & s2 & _ & Ht & Hm).
  change (match_here true (GClose :: ?r) ?st) with (match_here true r (close_group st)) in Hm.
  change (match_here true (GOpen :: ?r) ?st) with (match_here true r (open_group st)) in Hm.
  apply star_inv in Hm as (a1 & s3 & _ & _ & Hm).
  apply lit_inv in Hm as (a2 & s4 & _ & _ & Hm).
  apply lit_inv in Hm as (a3 & s5 & _ & _ & Hm).
  change ([Atom not_dquote Star] ++ ?r) with (Atom not_dquote Star :: r) in Hm.
  apply star_inv in Hm as (a4 & s6 & _ & _ & Hm).
  apply lit_inv in Hm as (a5 & s7 & _ & H5 & Hm).
  change ([Atom not_dquote Star] ++ ?r) with (Atom not_dquote Star :: r) in Hm.
  apply star_inv in Hm as (a6 & s8 & _ & _ & Hm).
  apply lit_inv in Hm as (a7 & s9 & _ & _ & Hm).
  cbn [app] in Hm.
  apply star_inv in Hm as (a8 & s10 & _ & _ & Hm).
  change (match_here true (GClose :: ?r) ?st) with (match_here true r (close_group st)) in Hm.
  change (lit ">") with (lit ">" ++ []) in Hm.
  apply lit_inv in Hm as (w9 & s11 & _ & Hw9 & Hm). apply litOk_gt in Hw9.
  injection Hm as <- _.
  change (pushAll t (push c ?st)) with (pushAll (String c t) st).
  set (tagName := String c t).
  set (st1 := close_group (pushAll tagName (open_group (pushAll w0 init)))).
  rewrite <- !pushAll_app.
  assert (Hattrs : a1 +:+ a2 +:+ a3 +:+ a4 +:+ a5 +:+ a6 +:+ a7 +:+ a8
                   = (a1 +:+ a2 +:+ a3 +:+ a4) +:+ a5 +:+ (a6 +:+ a7 +:+ a8))
    by now rewrite !append_assoc.
  set (attrs := a1 +:+ a2 +:+ a3 +:+ a4 +:+ a5 +:+ a6 +:+ a7 +:+ a8) in *.
  destruct (captured tagName (pushAll w0 init)) as (Hg1 & Hwh1 & _).
  destruct (captured attrs st1) as (Hg2 & Hwh2 & _).
  fold st1 in Hg1, Hwh1.
  assert (Hgroups : groups (pushAll w9 (close_group (pushAll attrs (open_group st1))))
                    = [tagName; attrs]).
  { now rewrite pushAll_groups, Hg2, Hg1, pushAll_groups. }
  unfold group. rewrite Hgroups. cbn [nth Nat.sub].
  split4.
  - rewrite pushAll_whole, Hwh2, Hwh1, pushAll_whole, Hw0, Hw9.
    change (whole init) with "". now rewrite !append_assoc.
  - discriminate.
  - unfold tagName. simpl. now rewrite (letter_is_alnum _ Hc), Ht.
  - exists a5. split.
    + exists (a1 +:+ a2 +:+ a3 +:+ a4), (a6 +:+ a7 +:+ a8). exact Hattrs.
    + now apply litOk_ci.
Qed.

(** X27.  For a class name that is a plain word, every element that
    [extractElementsByClass] returns is a piece of the page, and its three
    fields fit together: the full match is the tag name and the attributes
    between angle brackets, the tag name is not empty and made of letters
    and digits, and the attributes hold the class name, in any letter
    case. *)
Theorem extractElementsByClass_parts (html className : string) (e : element) :
  plainWord className = true ->
  In e (extractElementsByClass html className) ->
  occursIn (fullMatch e) html
  /\ fullMatch e = "<" +:+ elTag e +:+ attributes e +:+ ">"
  /\ elTag e <> ""
  /\ allChars (cset_match true (CSet false [("a", "z"); ("0", "9")]%char)) (elTag e)
     = true
  /\ exists w : string,
       occursIn w (attributes e) /\ asciiLower w = asciiLower className.
Proof.
  intros _. unfold extractElementsByClass, exec_all. intros Hin.
  apply in_map_iff in Hin as (m & <- & Hin). cbn [fullMatch elTag attributes].
  apply exec_loop_occurs in Hin as (before & after & Hhtml & Hm).
  split; [now exists before, after|].
  eapply element_match_shape, Hm.
Qed.

Lemma extractElementsByClass_parts_witness :
  occursIn (fullMatch publicationsPageElement) publicationsPage
  /\ fullMatch publicationsPageElement
     = "<" +:+ elTag publicationsPageElement +:+ attributes publicationsPageElement
       +:+ ">"
  /\ elTag publicationsPageElement <> ""
  /\ allChars (cset_match true (CSet false [("a", "z"); ("0", "9")]%char))
              (elTag publicationsPageElement)
     = true
  /\ exists w : string,
       occursIn w (attributes publicationsPageElement)
       /\ asciiLower w = asciiLower "publication-entry".
Proof.
  apply (extractElementsByClass_parts publicationsPage "publication-entry");
    [reflexivity|vm_compute; left; reflexivity].
Defined.

(** *** Capture groups are pieces of the match *)

Lemma occursIn_snoc (g s : string) (c : ascii) :
  occursIn g s -> occursIn g (snoc s c).
Proof.
  intros (a & b & ->). exists a, (b +:+ String c ""). unfold snoc.
  now rewrite !append_assoc.
Qed.

Lemma capturesInside_init : capturesInside init.
Proof. split; [constructor|discriminate]. Qed.

Lemma capturesInside_push (c : ascii) (st : mstate) :
  capturesInside st -> capturesInside (push c st).
Proof.
  intros [Hg Hc]. split; cbn [push groups whole cur].
  - eapply List.Forall_impl; [|exact Hg]. intros g. apply occursIn_snoc.
  - intros g Hcur. destruct (cur st) as [g0|]; [|discriminate].
    injection Hcur as <-. destruct (Hc g0 eq_refl) as [a Ha].
    exists a. unfold snoc. now rewrite Ha, append_assoc.
Qed.

Lemma capturesInside_pushAll (w : string) (st : mstate) :
  capturesInside st -> capturesInside (pushAll w st).
Proof.
  revert st. induction w as [|c w IH]; intros st H; [exact H|].
  simpl. apply IH. now apply capturesInside_push.
Qed.

Lemma capturesInside_open (st : mstate) :
  capturesInside st -> capturesInside (open_group st).
Proof.
  intros [Hg _]. split; cbn [open_group groups whole cur]; [exact Hg|].
  intros g [= <-]. exists (whole st). now rewrite append_nil_r.
Qed.

Lemma capturesInside_close (st : mstate) :
  capturesInside st -> capturesInside (close_group st).
Proof.
  intros [Hg Hc]. split; cbn [close_group groups whole cur]; [|discriminate].
  apply Forall_app. split; [exact Hg|]. constructor; [|constructor].
  destruct (cur st) as [g|].
  - destruct (Hc g eq_refl) as [a Ha]. exists a, "". now rewrite append_nil_r.
  - exists "", (whole st). reflexivity.
Qed.

Lemma greedy_keepsInside (p : ascii -> bool) (k : cont) :
  keepsInside k -> keepsInside (greedy p k).
Proof.
  intros Hk st s st' rest Hst H. apply greedy_inv in H as (w & s' & _ & _ & H).
  eapply Hk; [|exact H]. now apply capturesInside_pushAll.
Qed.

Lemma lazy_keepsInside (p : ascii -> bool) (k : cont) :
  keepsInside k -> keepsInside (lazy p k).
Proof.
  intros Hk st s st' rest Hst H. apply lazy_inv in H as (w & s' & _ & _ & H).
  eapply Hk; [|exact H]. now apply capturesInside_pushAll.
Qed.

Lemma match_here_keepsInside (ic : bool) (r : regex) : keepsInside (match_here ic r).
Proof.
  induction r as [|n r IH].
  - intros st s st' rest Hst [= <- <-]. exact Hst.
  - destruct n as [cs q| | |].
    + destruct q.
      * intros st s st' rest Hst H. apply one_inv in H as (c & s' & _ & _ & H).
        eapply IH; [|exact H]. now apply capturesInside_push.
      * intros st s st' rest Hst H. apply opt_inv in H as (w & s' & _ & _ & _ & H).
        eapply IH; [|exact H]. now apply capturesInside_pushAll.
      * intros st s st' rest Hst H. apply star_inv in H as (w & s' & _ & _ & H).
        eapply IH; [|exact H]. now apply capturesInside_pushAll.
      * intros st s st' rest Hst H. apply plus_inv in H as (w & s' & _ & _ & _ & H).
        eapply IH; [|exact H]. now apply capturesInside_pushAll.
      * now apply lazy_keepsInside.
    + intros st s st' rest Hst H. simpl in H.
      eapply IH; [|exact H]. now apply capturesInside_open.
    + intros st s st' rest Hst H. simpl in H.
      eapply IH; [|exact H]. now apply capturesInside_close.
    + intros st [|c s] st' rest Hst H; [|discriminate]. simpl in H.
      eapply IH; [exact Hst|exact H].
Qed.

(** A capture group of a match is a piece of the matched text. *)
Lemma group_occurs (ic : bool) (r : regex) (s rest : string) (m : mstate) (i : nat) :
  match_here ic r init s = Some (m, rest) -> occursIn (group i m) (whole m).
Proof.
  intros H. apply match_here_keepsInside in H as [Hg _]; [|apply capturesInside_init].
  unfold group. destruct (nth_in_or_default (i - 1) (groups m) "") as [Hin| ->].
  - rewrite List.Forall_forall in Hg. now apply Hg.
  - exists "", (whole m). reflexivity.
Qed.

(** *** [trim] *)

Lemma trimStart_suffix (s : string) : exists a : string, s = a +:+ Js.trimStart s.
Proof.
  induction s as [|c s [a Ha]]; [now exists ""|]. simpl.
  destruct (Js.is_space c); [|now exists ""].
  exists (String c a). now rewrite append_cons, <- Ha.
Qed.

Lemma trimEnd_prefix (s : string) : exists b : string, s = Js.trimEnd s +:+ b.
Proof.
  induction s as [|c s [b Hb]]; [now exists ""|]. simpl.
  destruct (Js.trimEnd s) as [|d t] eqn:Ht.
  - destruct (Js.is_space c); [now exists (String c s)|].
    exists s. reflexivity.
  - exists b. now rewrite append_cons, <- Hb.
Qed.

Lemma trimEnd_idem (s : string) : Js.trimEnd (Js.trimEnd s) = Js.trimEnd s.
Proof.
  induction s as [|c s IH]; [reflexivity|]. simpl.
  destruct (Js.trimEnd s) as [|d t] eqn:Ht.
  - destruct (Js.is_space c) eqn:Hc; [reflexivity|]. simpl. now rewrite Hc.
  - change (Js.trimEnd (String c (String d t)))
      with (match Js.trimEnd (String d t) with
            | EmptyString => if Js.is_space c then EmptyString else String c EmptyString
            | t0 => String c t0
            end).
    now rewrite IH.
Qed.

Lemma trimStart_fixed (s : string) :
  stopsAt Js.is_space s = true -> Js.trimStart s = s.
Proof.
  destruct s as [|c s]; [reflexivity|]. simpl. intros H.
  apply negb_true_iff in H. now rewrite H.
Qed.

Lemma trimStart_stops (s : string) : stopsAt Js.is_space (Js.trimStart s) = true.
Proof.
  induction s as [|c s IH]; [reflexivity|]. simpl.
  destruct (Js.is_space c) eqn:Hc; [exact IH|]. simpl. now rewrite Hc.
Qed.

Lemma trimEnd_stops (s : string) :
  stopsAt Js.is_space s = true -> stopsAt Js.is_space (Js.trimEnd s) = true.
Proof.
  destruct s as [|c s]; [reflexivity|]. simpl. intros H.
  destruct (Js.trimEnd s); [|exact H].
  apply negb_true_iff in H. rewrite H. simpl. now rewrite H.
Qed.

Lemma trim_idem (s : string) : Js.trim (Js.trim s) = Js.trim s.
Proof.
  unfold Js.trim.
  rewrite (trimStart_fixed (Js.trimEnd (Js.trimStart s))).
  - apply trimEnd_idem.
  - apply trimEnd_stops, trimStart_stops.
Qed.

Lemma trim_occurs (s : string) : occursIn (Js.trim s) s.
Proof.
  unfold Js.trim. destruct (trimStart_suffix s) as [a Ha].
  destruct (trimEnd_prefix (Js.trimStart s)) as [b Hb].
  exists a, b. now rewrite <- Hb.
Qed.

Lemma occursIn_trans (a b c : string) : occursIn a b -> occursIn b c -> occursIn a c.
Proof.
  intros (x & y & ->) (u & v & ->). exists (u +:+ x), (y +:+ v).
  now rewrite !append_assoc.
Qed.

(** X28.  For a class name that is a plain word, the text that
    [extractTextContent] returns is a piece of the HTML it was given and
    has no white space at either end: trimming it again changes nothing. *)
Theorem extractTextContent_trimmed (html className text : string) :
  plainWord className = true ->
  extractTextContent html className = Some text ->
  occursIn text html /\ Js.trim text = text.
Proof.
  intros _. unfold extractTextContent. cbv zeta.
  destruct (exec true _ html) as [m|] eqn:He; [|discriminate].
  intros [= <-]. split; [|apply trim_idem].
  apply exec_Some in He as (before & after & rest & -> & Hm).
  pose proof (group_occurs _ _ _ _ _ 1 Hm) as Hg.
  apply match_here_consumes in Hm as (w & -> & Hw). change (whole init) with "" in Hw.
  change ("" +:+ w) with w in Hw. rewrite Hw in Hg.
  eapply occursIn_trans; [apply trim_occurs|].
  eapply occursIn_trans; [exact Hg|].
  exists before, rest. reflexivity.
Qed.

Lemma extractTextContent_trimmed_witness :
  occursIn "Contrast checks" publicationsPageEntry
  /\ Js.trim "Contrast checks" = "Contrast checks".
Proof.
  apply (extractTextContent_trimmed publicationsPageEntry "publication-title");
    reflexivity.
Defined.

(** ** The tasks of the build file *)

Section GulpTasks.
Import Gulp.

Lemma rmSync_outside (t : gmap path fsnode) (p q : path) :
  ¬ p `prefix_of` q -> rmSync t p !! q = t !! q.
Proof.
  intros Hq. unfold rmSync. destruct (t !! q) as [n|] eqn:Hn.
  - apply map_lookup_filter_Some. split; [assumption|exact Hq].
  - apply map_lookup_filter_None. now left.
Qed.

Lemma rmSync_inside (t : gmap path fsnode) (p q : path) :
  p `prefix_of` q -> rmSync t p !! q = None.
Proof. intros Hq. now apply absent_rmSync. Qed.

(** X16.  The cleanup removes vendor/jquery with everything below it when
    the directory exists, leaves every other entry as it is, and has
    nothing left to do when it runs again. *)
Theorem cleanVendor_only_jquery (t : gmap path fsnode) (q : path) :
  let cleaned := run (cleanVendor t) t in
  cleaned !! q
  = (if bool_decide (jqueryPath `prefix_of` q) && existsSync t jqueryPath
     then None else t !! q)
  /\ cleanVendor cleaned = [].
Proof.
  intros cleaned. unfold cleaned, cleanVendor.
  destruct (existsSync t jqueryPath) eqn:Hex.
  - change (run [Remove jqueryPath] t) with (rmSync t jqueryPath). split.
    + rewrite andb_true_r. case_bool_decide as Hq.
      * now apply rmSync_inside.
      * now apply rmSync_outside.
    + assert (Hgone : existsSync (rmSync t jqueryPath) jqueryPath = false).
      { unfold existsSync. apply bool_decide_eq_false.
        rewrite rmSync_inside by reflexivity. intros [? ?]. discriminate. }
      now rewrite Hgone.
  - change (run [] t) with t. split; [now rewrite andb_false_r|]. now rewrite Hex.
Qed.

(** *** What one write does *)

Lemma ancestor_ne (k d : path) : In d (ancestors k) -> d <> k.
Proof.
  intros Hd ->. apply ancestors_prefix in Hd as (j & Hj & Hlen).
  apply (f_equal (@List.length string)) in Hj. rewrite length_take in Hj. lia.
Qed.

Lemma mkdir_ok (t t1 : gmap path fsnode) (d : path) :
  mkdir t d = (t1, true) -> t1 !! d = Some Dir.
Proof.
  unfold mkdir. destruct (t !! d) as [[c|]|] eqn:Hd; intros [= <-]; [assumption|].
  apply lookup_insert_eq.
Qed.

Lemma mkdirp_ok (ds : list path) (t t1 : gmap path fsnode) :
  mkdirp ds t = (t1, true) -> Forall (fun d => t1 !! d = Some Dir) ds.
Proof.
  revert t. induction ds as [|d ds IH]; intros t; [constructor|].
  cbn [mkdirp]. destruct (mkdir t d) as [t' [|]] eqn:Hm; cbn [fst snd]; [|discriminate].
  intros H. constructor; [|now apply (IH t')].
  apply mkdir_ok in Hm. pose proof (mkdirp_keep ds t' d Dir Hm) as Hk.
  now rewrite H in Hk.
Qed.

Lemma mkdirp_in_place (ds : list path) (t : gmap path fsnode) :
  Forall (fun d => t !! d = Some Dir) ds -> mkdirp ds t = (t, true).
Proof.
  induction 1 as [|d ds Hd _ IH]; [reflexivity|].
  cbn [mkdirp]. unfold mkdir. rewrite Hd. exact IH.
Qed.

Lemma mkdirp_file (ds : list path) (t : gmap path fsnode) (q : path) (c : string) :
  (mkdirp ds t).1 !! q = Some (File c) -> t !! q = Some (File c).
Proof.
  revert t. induction ds as [|d ds IH]; intros t; [auto|].
  cbn [mkdirp].
  assert (Hm : (mkdir t d).1 !! q = Some (File c) -> t !! q = Some (File c)).
  { unfold mkdir. destruct (t !! d) as [[c'|]|] eqn:Hd; cbn [fst]; auto.
    destruct (decide (d = q)) as [->|Hne].
    - rewrite lookup_insert_eq. discriminate.
    - now rewrite lookup_insert_ne. }
  destruct (mkdir t d) as [t' [|]]; cbn [fst snd] in *; [|exact Hm].
  intros H. apply Hm. now apply IH.
Qed.

Lemma write_ok (t t1 : gmap path fsnode) (p : path) (n : fsnode) :
  write t p n = (t1, true) -> t1 !! p = Some n.
Proof.
  unfold write. destruct n as [c|], (t !! p) as [[c'|]|] eqn:Hp;
    intros [= <-]; try apply lookup_insert_eq. assumption.
Qed.

Lemma write_in_place (t : gmap path fsnode) (p : path) (n : fsnode) :
  t !! p = Some n -> write t p n = (t, true).
Proof.
  intros Hp. unfold write. rewrite Hp. destruct n as [c|]; [|reflexivity].
  now rewrite insert_id.
Qed.

(** A write that succeeds leaves its entry in place below directories. *)
Lemma put_ok (t t1 : gmap path fsnode) (k : path) (n : fsnode) :
  apply t (Put k n) = (t1, true) ->
  t1 !! k = Some n /\ Forall (fun d => t1 !! d = Some Dir) (ancestors k).
Proof.
  cbn [apply]. destruct (mkdirp (ancestors k) t) as [t' [|]] eqn:Hm; cbn [fst snd];
    [|discriminate].
  intros Hw. split; [now apply write_ok in Hw|].
  apply mkdirp_ok in Hm. rewrite List.Forall_forall in *. intros d Hd.
  pose proof (ancestor_ne k d Hd) as Hne.
  pose proof (write_other t' k d n (not_eq_sym Hne)) as Ho.
  rewrite Hw in Ho. cbn [fst] in Ho. rewrite Ho. now apply Hm.
Qed.

(** A directory stays a directory, whether the write succeeds or not. *)
Lemma put_keeps_dir (t : gmap path fsnode) (k d : path) (n : fsnode) :
  t !! d = Some Dir -> (apply t (Put k n)).1 !! d = Some Dir.
Proof.
  intros Hd. cbn [apply]. pose proof (mkdirp_keep (ancestors k) t d Dir Hd) as Hm.
  destruct (mkdirp (ancestors k) t) as [t' [|]]; cbn [fst snd] in *; [|exact Hm].
  destruct (decide (k = d)) as [->|Hne]; [|now rewrite write_other].
  unfold write. rewrite Hm. now destruct n.
Qed.

(** An entry stays what it is through a write that succeeds, unless the
    write puts something else in its place. *)
Lemma put_keeps (t t1 : gmap path fsnode) (k q : path) (n x : fsnode) :
  t !! q = Some x -> (k = q -> n = x) -> apply t (Put k n) = (t1, true) ->
  t1 !! q = Some x.
Proof.
  intros Hq Hsame. cbn [apply].
  pose proof (mkdirp_keep (ancestors k) t q x Hq) as Hm.
  destruct (mkdirp (ancestors k) t) as [t' [|]]; cbn [fst snd] in *; [|discriminate].
  intros Hw. destruct (decide (k = q)) as [->|Hne].
  - rewrite (Hsame eq_refl) in Hw. now apply write_ok in Hw.
  - pose proof (write_other t' k q n Hne) as Ho. rewrite Hw in Ho. cbn [fst] in Ho.
    now rewrite Ho.
Qed.

Lemma put_file (t : gmap path fsnode) (k q : path) (n : fsnode) (c : string) :
  k <> q -> (apply t (Put k n)).1 !! q = Some (File c) -> t !! q = Some (File c).
Proof.
  intros Hne. cbn [apply].
  pose proof (mkdirp_file (ancestors k) t q c) as Hm.
  destruct (mkdirp (ancestors k) t) as [t' [|]]; cbn [fst snd] in *; [|exact Hm].
  rewrite write_other by assumption. exact Hm.
Qed.

(** A write that finds its entry in place below directories changes
    nothing. *)
Lemma put_in_place (t : gmap path fsnode) (k : path) (n : fsnode) :
  t !! k = Some n -> Forall (fun d => t !! d = Some Dir) (ancestors k) ->
  apply t (Put k n) = (t, true).
Proof.
  intros Hk Hds. cbn [apply]. rewrite (mkdirp_in_place _ _ Hds). cbn [fst snd].
  now apply write_in_place.
Qed.

(** *** What a sequence of writes does *)

Lemma perform_keeps (ops : list op) (t t1 : gmap path fsnode) (q : path) (x : fsnode) :
  Forall bootstrapCopy ops ->
  (forall n, In (Put q n) ops -> n = x) ->
  t !! q = Some x -> perform ops t = (t1, true) -> t1 !! q = Some x.
Proof.
  intros Hall. revert t.
  induction Hall as [|o ops (rel & n & -> & _) _ IH]; intros t Hfun Hq.
  - now intros [= <-].
  - cbn [perform].
    destruct (apply t (Put (vendorBootstrap ++ rel) n)) as [t' [|]] eqn:Ha;
      cbn [fst snd]; [|discriminate].
    apply IH.
    + intros n' Hin. apply Hfun. now right.
    + eapply put_keeps; [exact Hq| |exact Ha].
      intros Heq. apply Hfun. left. now rewrite Heq.
Qed.

(** After writes that all succeeded, a destination holds what was written
    to it. *)
Lemma perform_written (ops : list op) (t t1 : gmap path fsnode) (k : path) (n : fsnode) :
  Forall bootstrapCopy ops ->
  (forall k n n', In (Put k n) ops -> In (Put k n') ops -> n = n') ->
  In (Put k n) ops -> perform ops t = (t1, true) -> t1 !! k = Some n.
Proof.
  intros Hall. revert t.
  induction Hall as [|o ops (rel & x & -> & Hcopy) Hall IH]; intros t Hfun; [intros []|].
  intros Hin. cbn [perform].
  destruct (apply t (Put (vendorBootstrap ++ rel) x)) as [t' [|]] eqn:Ha;
    cbn [fst snd]; [|discriminate].
  intros Hp. destruct (decide (vendorBootstrap ++ rel = k)) as [Hk|Hk].
  - assert (Hx : x = n).
    { apply (Hfun k); [left; now rewrite Hk|exact Hin]. }
    subst x. rewrite Hk in Ha. apply put_ok in Ha as [Ha _].
    eapply perform_keeps; [exact Hall| |exact Ha|exact Hp].
    intros n' Hin'. symmetry. apply (Hfun k); [exact Hin|now right].
  - destruct Hin as [Hin|Hin]; [congruence|].
    eapply IH; [|exact Hin|exact Hp].
    intros k0 a b Ha' Hb'. apply (Hfun k0); now right.
Qed.

Lemma perform_keeps_dir (ops : list op) (t : gmap path fsnode) (d : path) :
  Forall bootstrapCopy ops -> t !! d = Some Dir -> run ops t !! d = Some Dir.
Proof.
  intros Hall. apply (run_invariant (fun s => s !! d = Some Dir)).
  intros o s Hin Hs. rewrite List.Forall_forall in Hall.
  destruct (Hall o Hin) as (rel & n & -> & _). now apply put_keeps_dir.
Qed.

(** After writes that all succeeded, the directories above a destination
    are directories. *)
Lemma perform_dirs (ops : list op) (t t1 : gmap path fsnode) (k : path) (n : fsnode) :
  Forall bootstrapCopy ops ->
  In (Put k n) ops -> perform ops t = (t1, true) ->
  Forall (fun d => t1 !! d = Some Dir) (ancestors k).
Proof.
  intros Hall. revert t.
  induction Hall as [|o ops (rel & x & -> & Hcopy) Hall IH]; intros t; [intros []|].
  intros Hin. cbn [perform].
  destruct (apply t (Put (vendorBootstrap ++ rel) x)) as [t' [|]] eqn:Ha;
    cbn [fst snd]; [|discriminate].
  intros Hp. destruct Hin as [Heq|Hin]; [|now apply (IH t')].
  injection Heq as Hk Hx. subst k x.
  apply put_ok in Ha as [_ Hds]. eapply List.Forall_impl; [|exact Hds].
  intros d Hd. pose proof (perform_keeps_dir ops t' d Hall Hd) as Hk.
  unfold run in Hk. now rewrite Hp in Hk.
Qed.

Lemma perform_in_place (ops : list op) (t : gmap path fsnode) :
  Forall (fun o => apply t o = (t, true)) ops -> perform ops t = (t, true).
Proof.
  induction 1 as [|o ops Ho _ IH]; [reflexivity|]. cbn [perform]. now rewrite Ho.
Qed.

(** *** The copy *)

(** The entries that the copy writes or creates lie in [vendor]. *)
Lemma copy_in_vendor (rel d : path) :
  d = vendorBootstrap ++ rel \/ In d (ancestors (vendorBootstrap ++ rel)) ->
  ["vendor"] `prefix_of` d.
Proof.
  intros [->|H].
  - exists ("bootstrap" :: rel). reflexivity.
  - apply ancestors_prefix in H as (j & -> & Hj).
    destruct j as [|j]; [lia|]. eexists. reflexivity.
Qed.

Lemma copies_outside_vendor (ops : list op) (t : gmap path fsnode) (q : path) :
  Forall bootstrapCopy ops -> ¬ ["vendor"] `prefix_of` q -> run ops t !! q = t !! q.
Proof.
  intros Hops Hq. apply (run_invariant (fun s => s !! q = t !! q)); [|reflexivity].
  intros o s Hin Hs. rewrite List.Forall_forall in Hops.
  destruct (Hops o Hin) as (rel & n & -> & _). rewrite <- Hs. apply put_other.
  - intros ->. apply Hq. apply (copy_in_vendor rel). now left.
  - intros Hd. apply Hq. apply (copy_in_vendor rel). now right.
Qed.

Lemma stripPrefix_Some (pre p rel : path) :
  stripPrefix pre p = Some rel -> p = pre ++ rel.
Proof.
  revert p. induction pre as [|a pre IH]; intros p; simpl.
  - now intros [= ->].
  - destruct p as [|c p]; [discriminate|].
    destruct (String.eqb a c) eqn:Hac; [|discriminate].
    apply String.eqb_eq in Hac. subst c. intros H. now rewrite (IH _ H).
Qed.

Lemma selected_path (p rel : path) : selected p = Some rel -> p = bootstrapDist ++ rel.
Proof.
  unfold selected. destruct (stripPrefix bootstrapDist p) as [[|seg r]|] eqn:Hs;
    try discriminate.
  destruct (existsb hidden (seg :: r) || excludedVariant (seg :: r)); [discriminate|].
  intros [= <-]. now apply stripPrefix_Some.
Qed.

Lemma vendor_op (t : gmap path fsnode) (o : op) :
  In o (vendor t) <->
  exists p n rel, t !! p = Some n /\ selected p = Some rel
                  /\ o = Put (vendorBootstrap ++ rel) n.
Proof.
  unfold vendor. rewrite in_flat_map. split.
  - intros ([p n] & Hin & Ho). simpl in Ho.
    apply list_elem_of_In, elem_of_map_to_list in Hin.
    destruct (selected p) as [rel|] eqn:Hsel; [|destruct Ho].
    destruct Ho as [<-|[]]. eauto 6.
  - intros (p & n & rel & Hp & Hsel & ->). exists (p, n). split.
    + now apply list_elem_of_In, elem_of_map_to_list.
    + simpl. rewrite Hsel. now left.
Qed.

(** One destination is written with one content. *)
Lemma vendor_functional (t : gmap path fsnode) (k : path) (n n' : fsnode) :
  In (Put k n) (vendor t) -> In (Put k n') (vendor t) -> n = n'.
Proof.
  rewrite !vendor_op.
  intros (p & x & rel & Hp & Hsel & [= -> ->]) (p' & x' & rel' & Hp' & Hsel' & Heq).
  assert (Hk : rel = rel') by (injection Heq; auto).
  assert (Hx : n' = x') by (injection Heq; auto). subst rel' n'.
  apply selected_path in Hsel, Hsel'. subst p p'. congruence.
Qed.

(** The copy reads what it read before: its sources lie outside
    [vendor]. *)
Lemma vendor_unchanged_sources (t : gmap path fsnode) (o : op) :
  In o (vendor (run (vendor t) t)) -> In o (vendor t).
Proof.
  rewrite !vendor_op. intros (p & n & rel & Hp & Hsel & ->).
  exists p, n, rel. split; [|now split].
  rewrite copies_outside_vendor in Hp; [assumption|apply vendor_copies|].
  apply selected_path in Hsel. subst p. intros [k Hk]. discriminate.
Qed.

Lemma vendor_twice (t : gmap path fsnode) :
  completes (vendor t) t = true ->
  perform (vendor (run (vendor t) t)) (run (vendor t) t) = (run (vendor t) t, true).
Proof.
  intros Hok.
  assert (Hp : perform (vendor t) t = (run (vendor t) t, true)).
  { unfold run, completes in *. destruct (perform (vendor t) t). simpl in *. now subst. }
  apply perform_in_place, List.Forall_forall. intros o Ho.
  apply vendor_unchanged_sources in Ho.
  pose proof (vendor_copies t) as Hall.
  assert (Hput : exists k n, o = Put k n).
  { rewrite List.Forall_forall in Hall. destruct (Hall _ Ho) as (rel & n & -> & _). eauto. }
  destruct Hput as (k & n & ->). apply put_in_place.
  - exact (perform_written _ _ _ k n Hall (vendor_functional t) Ho Hp).
  - exact (perform_dirs _ _ _ k n Hall Ho Hp).
Qed.

Lemma copies_jquery (ops : list op) (s : gmap path fsnode) :
  Forall bootstrapCopy ops -> s !! jqueryPath = None ->
  run ops s !! jqueryPath = None.
Proof.
  intros Hall. apply (run_invariant (fun s => s !! jqueryPath = None)).
  intros o s' Hin Hs. rewrite List.Forall_forall in Hall.
  destruct (Hall o Hin) as (rel & n & -> & _). rewrite put_other; [assumption| |].
  - pose proof (jquery_not_prefix rel (List.length (vendorBootstrap ++ rel))) as H.
    rewrite firstn_all in H. intros Heq. apply H. rewrite <- Heq. reflexivity.
  - intros Hd. apply ancestors_prefix in Hd as (j & Hj & _).
    apply (jquery_not_prefix rel j). rewrite <- Hj. reflexivity.
Qed.

Lemma copies_file (ops : list op) (s : gmap path fsnode) (rel : path) (content : string) :
  Forall bootstrapCopy ops -> excludedVariant rel = true ->
  run ops s !! (vendorBootstrap ++ rel) = Some (File content) ->
  s !! (vendorBootstrap ++ rel) = Some (File content).
Proof.
  intros Hall Hex.
  apply (run_invariant
           (fun s' => s' !! (vendorBootstrap ++ rel) = Some (File content) ->
                      s !! (vendorBootstrap ++ rel) = Some (File content)));
    [|auto].
  intros o s' Hin Hs H. rewrite List.Forall_forall in Hall.
  destruct (Hall o Hin) as (rel' & n & -> & _ & Hnot).
  apply Hs. eapply put_file; [|exact H].
  intros Heq. apply app_inv_head in Heq. congruence.
Qed.

Lemma exports_vendor_run (t : gmap path fsnode) :
  run (exports_vendor t) t = run (vendor (run (cleanVendor t) t)) (run (cleanVendor t) t).
Proof.
  unfold exports_vendor. cbn [series]. rewrite app_nil_r.
  apply run_app, cleanVendor_completes.
Qed.

Lemma exports_vendor_completes (t : gmap path fsnode) :
  completes (exports_vendor t) t
  = completes (vendor (run (cleanVendor t) t)) (run (cleanVendor t) t).
Proof.
  unfold exports_vendor. cbn [series].
  now rewrite app_nil_r, completes_app, cleanVendor_completes.
Qed.

Lemma cleaned_lookup (t : gmap path fsnode) (q : path) :
  ¬ jqueryPath `prefix_of` q -> run (cleanVendor t) t !! q = t !! q.
Proof.
  intros Hq. unfold cleanVendor. destruct (existsSync t jqueryPath); [|reflexivity].
  change (run [Remove jqueryPath] t) with (rmSync t jqueryPath).
  now apply rmSync_outside.
Qed.

Lemma jquery_absent_after (t : gmap path fsnode) :
  run (exports_vendor t) t !! jqueryPath = None.
Proof.
  rewrite exports_vendor_run.
  set (cleaned := run (cleanVendor t) t).
  assert (Hc : cleaned !! jqueryPath = None).
  { unfold cleaned, cleanVendor. destruct (existsSync t jqueryPath) eqn:Hex.
    - change (run [Remove jqueryPath] t) with (rmSync t jqueryPath).
      now apply rmSync_inside.
    - change (run [] t) with t.
      unfold existsSync in Hex. apply bool_decide_eq_false in Hex.
      destruct (t !! jqueryPath) eqn:Hq; [|reflexivity]. exfalso. apply Hex. eauto. }
  now apply copies_jquery; [apply vendor_copies|].
Qed.



(** X18.  The vendor task changes nothing outside the directory vendor:
    the dependency cache and the rest of the project stay as they are. *)
Theorem vendor_touches_only_vendor (t : gmap path fsnode) (q : path) :
  outside ["vendor"] q -> run (exports_vendor t) t !! q = t !! q.
Proof.
  unfold outside. intros Hq. rewrite exports_vendor_run.
  rewrite copies_outside_vendor; [|apply vendor_copies|assumption].
  apply cleaned_lookup. intros [k ->]. apply Hq. eexists. reflexivity.
Qed.

Lemma vendor_touches_only_vendor_witness :
  run (exports_vendor staleTree) staleTree
    !! ["node_modules"; "bootstrap"; "dist"; "css"; "bootstrap-grid.css"]
  = staleTree !! ["node_modules"; "bootstrap"; "dist"; "css"; "bootstrap-grid.css"].
Proof.
  apply (vendor_touches_only_vendor staleTree). intros [k Hk]. discriminate.
Defined.

(** X19.  The vendor task never writes the file of an excluded variant: a
    file that stands at vendor/bootstrap/css/bootstrap-grid* or
    bootstrap-reboot* after the task was there before it. *)
Theorem vendor_never_writes_excluded
  (t : gmap path fsnode) (rel : path) (content : string) :
  excludedVariant rel = true ->
  run (exports_vendor t) t !! (vendorBootstrap ++ rel) = Some (File content) ->
  t !! (vendorBootstrap ++ rel) = Some (File content).
Proof.
  intros Hex. rewrite exports_vendor_run.
  set (cleaned := run (cleanVendor t) t).
  assert (Hc : cleaned !! (vendorBootstrap ++ rel) = t !! (vendorBootstrap ++ rel)).
  { apply cleaned_lookup.
    pose proof (jquery_not_prefix rel (List.length (vendorBootstrap ++ rel))) as H.
    now rewrite firstn_all in H. }
  rewrite <- Hc. apply copies_file; [apply vendor_copies|assumption].
Qed.

Lemma vendor_never_writes_excluded_witness :
  (<[ ["vendor"; "bootstrap"; "css"; "bootstrap-grid.css"] := File "old" ]> staleTree)
    !! (vendorBootstrap ++ ["css"; "bootstrap-grid.css"])
  = Some (File "old").
Proof.
  apply (vendor_never_writes_excluded _ ["css"; "bootstrap-grid.css"] "old");
    reflexivity.
Defined.

(** X20.  The vendor task is idempotent: when it has ended without an I/O
    error, a second run on its result ends without error as well and
    changes nothing. *)
Theorem vendor_idempotent (t : gmap path fsnode) :
  completes (exports_vendor t) t = true ->
  let synced := run (exports_vendor t) t in
  run (exports_vendor synced) synced = synced
  /\ completes (exports_vendor synced) synced = true.
Proof.
  intros Hok synced.
  assert (Hclean : cleanVendor synced = []).
  { unfold cleanVendor, existsSync. unfold synced. rewrite jquery_absent_after.
    rewrite bool_decide_eq_false_2; [reflexivity|]. intros [? ?]. discriminate. }
  rewrite exports_vendor_run, exports_vendor_completes, Hclean.
  change (run [] synced) with synced.
  unfold synced. rewrite exports_vendor_run. rewrite exports_vendor_completes in Hok.
  pose proof (vendor_twice _ Hok) as Htwice.
  unfold run at 1, completes. rewrite Htwice. split; reflexivity.
Qed.

Lemma vendor_idempotent_witness :
  let synced := run (exports_vendor staleTree) staleTree in
  run (exports_vendor synced) synced = synced
  /\ completes (exports_vendor synced) synced = true.
Proof. apply (vendor_idempotent staleTree). reflexivity. Defined.

End GulpTasks.

(** ** The CSS task *)

Lemma endsWith_app (a suffix : string) : endsWith (a +:+ suffix) suffix = true.
Proof.
  induction a as [|c a IH].
  - change ("" +:+ suffix) with suffix. destruct suffix; simpl.
    + reflexivity.
    + now rewrite Ascii.eqb_refl, String.eqb_refl.
  - rewrite append_cons. cbn [endsWith]. rewrite IH. apply orb_true_r.
Qed.

Lemma minName_not_source (name : string) : cssSource (minName name) = false.
Proof.
  unfold cssSource, minName.
  change (".min" +:+ ".css") with ".min.css".
  rewrite (endsWith_app _ ".min.css"). simpl. apply andb_false_r.
Qed.

Lemma minify_ops (cleanCSS : string -> string) (t : gmap Gulp.path Gulp.fsnode)
  (o : Gulp.op) :
  In o (minifyCSS cleanCSS t) ->
  exists name n, t !! ["css"; name] = Some n /\ cssSource name = true
                 /\ o = Gulp.Put ["css"; minName name] (minified cleanCSS n).
Proof.
  unfold minifyCSS. rewrite in_flat_map. intros ([p n] & Hin & Ho). simpl in Ho.
  apply list_elem_of_In, elem_of_map_to_list in Hin.
  destruct p as [|dir [|name [|x p]]]; try destruct Ho.
  destruct (String.eqb dir "css") eqn:Hdir; [|destruct Ho].
  destruct (cssSource name) eqn:Hsrc; [|destruct Ho].
  apply String.eqb_eq in Hdir. subst dir.
  destruct Ho as [<-|[]]. eauto.
Qed.

Lemma minified_names_other (ops : list Gulp.op) (s : gmap Gulp.path Gulp.fsnode)
  (name : string) :
  Forall (fun o => exists out n, o = Gulp.Put ["css"; minName out] n) ops ->
  cssSource name = true ->
  Gulp.run ops s !! ["css"; name] = s !! ["css"; name].
Proof.
  intros Hops Hsrc.
  apply (run_invariant (fun s' => s' !! ["css"; name] = s !! ["css"; name]));
    [|reflexivity].
  intros o s' Hin Hs. rewrite List.Forall_forall in Hops.
  destruct (Hops o Hin) as (out & n & ->). rewrite <- Hs. apply put_other.
  - intros [= Heq]. pose proof (minName_not_source out) as H.
    rewrite <- Heq in H. congruence.
  - intros [H|[]]. discriminate.
Qed.

(** X21.  Whatever the minifier computes, the CSS task writes only entries
    of css whose name ends with .min.css, so it never overwrites a
    stylesheet that it reads: every entry that the globs select is after
    the task what it was before. *)
Theorem minify_keeps_sources
  (cleanCSS : string -> string) (t : gmap Gulp.path Gulp.fsnode) (name : string) :
  cssSource name = true ->
  Gulp.run (exports_css cleanCSS t) t !! ["css"; name] = t !! ["css"; name]
  /\ Forall (fun o => exists out n,
                 o = Gulp.Put ["css"; out] n /\ endsWith out ".min.css" = true)
            (exports_css cleanCSS t).
Proof.
  intros Hsrc. unfold exports_css. split.
  - apply minified_names_other; [|assumption].
    apply List.Forall_forall. intros o Ho.
    apply minify_ops in Ho as (x & n & _ & _ & ->). eauto.
  - apply List.Forall_forall. intros o Ho.
    apply minify_ops in Ho as (x & n & _ & _ & ->).
    exists (minName x), (minified cleanCSS n). split; [reflexivity|].
    unfold minName. change (".min" +:+ ".css") with ".min.css". apply endsWith_app.
Qed.

Lemma minify_keeps_sources_witness :
  Gulp.run (exports_css (fun css => css) cssTree) cssTree !! ["css"; "base.css"]
  = cssTree !! ["css"; "base.css"]
  /\ Forall (fun o => exists out n,
                 o = Gulp.Put ["css"; out] n /\ endsWith out ".min.css" = true)
            (exports_css (fun css => css) cssTree).
Proof.
  apply (minify_keeps_sources (fun css => css) cssTree "base.css"). reflexivity.
Defined.

Example minify_example :
  exports_css (fun css => css) cssTree
  = [Gulp.Put ["css"; "base.min.css"] (Gulp.File ".a { color: #fff; }")].
Proof. vm_compute. reflexivity. Qed.

(** ** More on the navigation script *)

Section NavigationMore.
Import Nav.

Lemma filter_add (classList : list string) :
  List.filter (fun c => negb (String.eqb "navbar-scrolled" c))
              (add classList "navbar-scrolled")
  = List.filter (fun c => negb (String.eqb "navbar-scrolled" c)) classList.
Proof.
  unfold add. destruct (contains classList "navbar-scrolled"); [reflexivity|].
  rewrite List.filter_app. cbn [List.filter].
  replace (String.eqb "navbar-scrolled" "navbar-scrolled") with true by reflexivity.
  apply app_nil_r.
Qed.

Lemma filter_twice {A : Type} (f : A -> bool) (l : list A) :
  List.filter f (List.filter f l) = List.filter f l.
Proof.
  induction l as [|x l IH]; [reflexivity|]. cbn [List.filter].
  destruct (f x) eqn:Hx; [|exact IH]. cbn [List.filter]. now rewrite Hx, IH.
Qed.

Lemma filter_remove (classList : list string) :
  List.filter (fun c => negb (String.eqb "navbar-scrolled" c))
              (remove classList "navbar-scrolled")
  = List.filter (fun c => negb (String.eqb "navbar-scrolled" c)) classList.
Proof. unfold remove. apply filter_twice. Qed.

Lemma update_others (p : page) : otherClasses (updateNavbarOnScroll p) = otherClasses p.
Proof.
  unfold otherClasses, updateNavbarOnScroll.
  destruct (navbar p) as [classList|] eqn:Hn; [|now rewrite Hn].
  destruct (Qlt_le_dec 50 (scrollY p)); simpl; f_equal.
  - apply filter_add.
  - apply filter_remove.
Qed.

Lemma runListener_others (p : page) (l : listener) :
  otherClasses (runListener p l) = otherClasses p.
Proof.
  destruct l; simpl; [|apply update_others].
  unfold initAll, initNavbarScrollBehavior.
  destruct (navbar p) eqn:Hn; [|reflexivity].
  rewrite <- (update_others p). reflexivity.
Qed.

Lemma listeners_others (ls : list listener) (p : page) :
  otherClasses (fold_left runListener ls p) = otherClasses p.
Proof.
  revert p. induction ls as [|l ls IH]; intros p; simpl; [reflexivity|].
  now rewrite IH, runListener_others.
Qed.

(** X22.  The script toggles one class and no other: the script body, a
    scroll event and DOMContentLoaded leave the other classes of the navbar
    as they are, in their order. *)
Theorem navbar_other_classes_kept (p : page) (y : Q) :
  otherClasses (script p) = otherClasses p
  /\ otherClasses (fireScroll y p) = otherClasses p
  /\ otherClasses (fireDOMContentLoaded p) = otherClasses p.
Proof.
  split; [|split].
  - unfold script. destruct (loading p); [reflexivity|].
    apply (runListener_others p InitAll).
  - unfold fireScroll. now rewrite listeners_others.
  - unfold fireDOMContentLoaded. now rewrite listeners_others.
Qed.

(** X23.  In every state the page reaches, the scroll callback is
    registered at most once, and only after the initialisation has found a
    navbar. *)
Theorem scroll_callback_registered_once (p : page) :
  reachable p ->
  scrollListeners p
  = if loading p then []
    else match navbar p with
         | Some _ => [UpdateNavbarOnScroll]
         | None => []
         end.
Proof.
  intros Hr. destruct (reachable_invariant p Hr) as [Hload Hdone].
  destruct (loading p).
  - now destruct (Hload eq_refl).
  - destruct (Hdone eq_refl) as [_ Hnav].
    destruct (navbar p); [now destruct Hnav|assumption].
Qed.

Lemma scroll_callback_registered_once_witness :
  scrollListeners (fireScroll 80 (fireDOMContentLoaded (script freshPage)))
  = [UpdateNavbarOnScroll].
Proof.
  apply (scroll_callback_registered_once
           (fireScroll 80 (fireDOMContentLoaded (script freshPage)))).
  apply reach_scroll, reach_loaded; [|reflexivity].
  apply reach_script; reflexivity.
Defined.

Lemma add_add (classList : list string) (c : string) :
  add (add classList c) c = add classList c.
Proof. unfold add at 1. now rewrite contains_add. Qed.

Lemma remove_remove (classList : list string) (c : string) :
  remove (remove classList c) c = remove classList c.
Proof. unfold remove. apply filter_twice. Qed.

Lemma update_update (p : page) :
  updateNavbarOnScroll (updateNavbarOnScroll p) = updateNavbarOnScroll p.
Proof.
  destruct p as [nb y ld sl ll]. unfold updateNavbarOnScroll.
  cbn [navbar scrollY loading scrollListeners loadedListeners].
  destruct nb as [classList|]; [|reflexivity].
  destruct (Qlt_le_dec 50 y) eqn:Hdec;
    cbn [navbar scrollY loading scrollListeners loadedListeners]; rewrite Hdec.
  - now rewrite add_add.
  - now rewrite remove_remove.
Qed.

(** X24.  In a state that the page reaches, a second scroll event at the
    same offset changes nothing. *)
Theorem scroll_event_idempotent (p : page) (y : Q) :
  reachable p -> fireScroll y (fireScroll y p) = fireScroll y p.
Proof.
  intros Hr. pose proof (reachable_invariant p Hr) as [Hload Hdone].
  destruct p as [nb y0 ld sl ll].
  cbn [navbar scrollY loading scrollListeners loadedListeners] in Hload, Hdone.
  destruct ld.
  - destruct (Hload eq_refl) as [-> ->]. reflexivity.
  - destruct (Hdone eq_refl) as [-> Hnav].
    destruct nb as [classList|]; [|subst sl; reflexivity].
    destruct Hnav as [-> _]. unfold fireScroll.
    cbn [navbar scrollY loading scrollListeners loadedListeners fold_left runListener].
    unfold updateNavbarOnScroll at 2 3 4 5 6.
    cbn [navbar scrollY loading scrollListeners loadedListeners].
    destruct (Qlt_le_dec 50 y) eqn:Hdec;
      cbn [navbar scrollY loading scrollListeners loadedListeners fold_left runListener];
      unfold updateNavbarOnScroll;
      cbn [navbar scrollY loading scrollListeners loadedListeners]; rewrite ?Hdec;
      cbn [navbar scrollY loading scrollListeners loadedListeners fold_left runListener];
      unfold updateNavbarOnScroll;
      cbn [navbar scrollY loading scrollListeners loadedListeners]; rewrite ?Hdec.
    + now rewrite add_add.
    + now rewrite remove_remove.
Qed.

Lemma scroll_event_idempotent_witness :
  fireScroll 80 (fireScroll 80 (fireDOMContentLoaded (script freshPage)))
  = fireScroll 80 (fireDOMContentLoaded (script freshPage)).
Proof.
  apply (scroll_event_idempotent (fireDOMContentLoaded (script freshPage))).
  apply reach_loaded; [|reflexivity]. apply reach_script; reflexivity.
Defined.

End NavigationMore.
